(** * Trip and traveler lifecycle of the NATPAC travel-data application

    A shallow embedding of the trip route handlers
    ([src/app/api/trips/route.ts]), the traveler route handlers, the
    [StorageService] and the [useTrips] hook, together with the properties
    the specification states about them.

    Conventions of the embedding.
    - Instants are milliseconds since the epoch, in [Z].  A JavaScript
      [Date] and the ISO string that [JSON.stringify] makes of it carry the
      same instant but answer differently to [.getTime()]; both are kept
      apart in [JS.DateVal].
    - [Date.now()], [new Date()] and the random part of a generated id are
      inputs of the operations ([now], [tripId], [travelerId]).
    - An optional property is an [option]; in an update object a key can be
      absent, present with [undefined]/[null], or present with a value.
    - A JavaScript number that holds an integer is a [Z]; quotients are
      rounded the way [Math.round] does on the exact quotient. *)

From Stdlib Require Import ZArith QArith Lia Ascii.
From stdpp Require Import base decidable option list strings numbers sorting gmap.

Open Scope Z_scope.

(** ** JavaScript primitives *)

Module JS.

(** A date-valued property at run time: a [Date] object, or the ISO-8601
    string that a JSON round trip leaves in its place ([JSON.parse] has no
    reviver in [StorageService.getItem]). *)
Inductive DateVal : Type :=
| DateObj (ms : Z)
| DateIso (ms : Z).

(** [new Date(v).getTime()]: accepts a [Date] as well as an ISO string. *)
Definition new_Date (v : DateVal) : Z :=
  match v with
  | DateObj ms => ms
  | DateIso ms => ms
  end.

(** [v.getTime()]: defined on [Date] objects only; on a string the call
    raises a [TypeError] ([None]). *)
Definition getTime (v : DateVal) : option Z :=
  match v with
  | DateObj ms => Some ms
  | DateIso _ => None
  end.

(** [Date.prototype.toJSON], as applied by [JSON.stringify]. *)
Definition toJSON (v : DateVal) : DateVal := DateIso (new_Date v).

(** A number that may fail to be finite. *)
Inductive number : Type :=
| Num (z : Z)
| NaN
| Infinity (negative : bool).

(** [Math.round(n / d)] for [d > 0]: the quotient rounded to the nearest
    integer, ties towards plus infinity. *)
Definition round_half_up (n d : Z) : Z := (2 * n + d) `div` (2 * d).

(** [Math.round(n / d)] on integers [n] and [d], division by zero
    included. *)
Definition Math_round_quot (n d : Z) : number :=
  if decide (d = 0) then
    (if decide (n = 0) then NaN else Infinity (bool_decide (n < 0)))
  else if decide (0 < d) then Num (round_half_up n d)
  else Num (round_half_up (- n) (- d)).

(** [Math.max(...l)] on a non-empty array ([-Infinity] on the empty one,
    which the callers exclude). *)
Definition Math_max (l : list Z) : option Z :=
  match l with
  | [] => None
  | n :: ns => Some (foldl Z.max n ns)
  end.

(** Truthiness of a string: every string but the empty one. *)
Definition truthy (s : string) : Prop := s ≠ "".

#[global] Instance truthy_dec s : Decision (truthy s).
Proof. unfold truthy. apply _. Defined.

Definition lower_ascii (c : ascii) : ascii :=
  let n := nat_of_ascii c in
  if decide (65 ≤ n ≤ 90)%nat then ascii_of_nat (n + 32) else c.

(** [String.prototype.toLowerCase] on ASCII text. *)
Fixpoint toLowerCase (s : string) : string :=
  match s with
  | EmptyString => EmptyString
  | String c s' => String (lower_ascii c) (toLowerCase s')
  end.

Definition is_space (c : ascii) : bool :=
  let n := nat_of_ascii c in
  bool_decide (n = 32 ∨ 9 ≤ n ≤ 13)%nat.

Fixpoint trimStart (s : string) : string :=
  match s with
  | EmptyString => EmptyString
  | String c s' => if is_space c then trimStart s' else s
  end.

Fixpoint trimEnd (s : string) : string :=
  match s with
  | EmptyString => EmptyString
  | String c s' =>
      match trimEnd s' with
      | EmptyString => if is_space c then EmptyString else String c EmptyString
      | r => String c r
      end
  end.

(** [String.prototype.trim] on ASCII text. *)
Definition trim (s : string) : string := trimEnd (trimStart s).


(** An index argument of [slice] over an array of [len] elements: a
    negative index counts from the end, and the result is clamped to
    [0 .. len]. *)
Definition slice_index (len i : Z) : nat :=
  Z.to_nat (if decide (i < 0) then Z.max (len + i) 0 else Z.min i len).

(** [l.slice(start, end)]. *)
Definition slice {A} (l : list A) (start end_ : Z) : list A :=
  let len := Z.of_nat (length l) in
  take (slice_index len end_ - slice_index len start)
       (drop (slice_index len start) l).

(** Where [x] goes in a list already sorted by falling [key]: behind the
    elements with a greater key, in front of those with the same key. *)
Fixpoint insert_desc {A} (key : A → Z) (x : A) (l : list A) : list A :=
  match l with
  | [] => [x]
  | y :: l' =>
      if decide (key x < key y) then y :: insert_desc key x l' else x :: l
  end.

(** [x] may stand in front of [y] in an array sorted by falling [key]. *)
Definition not_older {A} (key : A → Z) (x y : A) : Prop := key y ≤ key x.

(** [l.sort((a, b) => key(b) - key(a))] on a copy of [l]: the elements by
    falling key, those of equal key in the order they had ([sort] is stable;
    the stable sort of a list is unique, and this insertion sort computes
    it). *)
Definition sort_desc {A} (key : A → Z) (l : list A) : list A :=
  foldr (insert_desc key) [] l.

(** [Math.ceil(n / d)] on integers, division by zero included. *)
Definition Math_ceil_quot (n d : Z) : number :=
  if decide (d = 0) then
    (if decide (n = 0) then NaN else Infinity (bool_decide (n < 0)))
  else Num (- ((- n) `div` d)).

(** [Math.min(a, b)] for an integer [a]. *)
Definition Math_min (a : Z) (b : number) : number :=
  match b with
  | Num z => Num (Z.min a z)
  | NaN => NaN
  | Infinity true => Infinity true
  | Infinity false => Num a
  end.

(** [a < b] for an integer [a]. *)
Definition lt_number (a : Z) (b : number) : bool :=
  match b with
  | Num z => bool_decide (a < z)
  | NaN => false
  | Infinity negative => negb negative
  end.

(** [l.reduce((acc, x) => { acc[key(x)] = (acc[key(x)] || 0) + 1; return
    acc; }, {})]: the object that counts the elements under each key. *)
Definition tally {A} (key : A → string) (l : list A) : gmap string Z :=
  foldl (λ acc x, <[key x := default 0 (acc !! key x) + 1]> acc) ∅ l.

End JS.

(** ** Data model ([src/lib/types.ts]) *)

Inductive TransportMode : Type :=
| walk | bicycle | motorcycle | car | bus | train | metro
| auto_rickshaw | taxi | shared_taxi | other_mode.

Inductive TripPurpose : Type :=
| work | education | shopping | medical | social | leisure
| religious | business | return_home | other_purpose.

Inductive TripStatus : Type :=
| planned | active | completed | cancelled.

#[global] Instance TripStatus_eq_dec : EqDecision TripStatus.
Proof. solve_decision. Defined.


(** The strings these values are at run time. *)
Definition mode_name (m : TransportMode) : string :=
  match m with
  | walk => "walk" | bicycle => "bicycle" | motorcycle => "motorcycle"
  | car => "car" | bus => "bus" | train => "train" | metro => "metro"
  | auto_rickshaw => "auto_rickshaw" | taxi => "taxi"
  | shared_taxi => "shared_taxi" | other_mode => "other"
  end.

Definition purpose_name (p : TripPurpose) : string :=
  match p with
  | work => "work" | education => "education" | shopping => "shopping"
  | medical => "medical" | social => "social" | leisure => "leisure"
  | religious => "religious" | business => "business"
  | return_home => "return_home" | other_purpose => "other"
  end.

Definition status_name (s : TripStatus) : string :=
  match s with
  | planned => "planned" | active => "active" | completed => "completed"
  | cancelled => "cancelled"
  end.

Module Location.

Record t : Type := mk {
  latitude : Q;
  longitude : Q;
  address : option string;
  timestamp : JS.DateVal
}.

(** What a JSON round trip makes of a location. *)
Definition toJSON (l : t) : t :=
  {| latitude := latitude l; longitude := longitude l;
     address := address l; timestamp := JS.toJSON (timestamp l) |}.

End Location.

(** The [Trip] interface.  The properties no handler reads or writes
    ([waypoints], [isPartOfChain], [chainId], [syncedAt]) are left out. *)
Module Trip.

Record t : Type := mk {
  id : string;
  tripNumber : Z;
  status : TripStatus;
  origin : Location.t;
  destination : option Location.t;
  startTime : JS.DateVal;
  endTime : option JS.DateVal;
  duration : option Z;
  mode : TransportMode;
  purpose : TripPurpose;
  purposeDetail : option string;
  primaryTraveler : string;
  accompanyingTravelers : list string;
  totalTravelers : Z;
  satisfactionRating : option Z;
  notes : option string;
  createdAt : JS.DateVal;
  updatedAt : JS.DateVal
}.

(** [trips[i].duration = d]. *)
Definition set_duration (d : Z) (x : t) : t :=
  {| id := id x; tripNumber := tripNumber x; status := status x;
     origin := origin x; destination := destination x;
     startTime := startTime x; endTime := endTime x; duration := Some d;
     mode := mode x; purpose := purpose x; purposeDetail := purposeDetail x;
     primaryTraveler := primaryTraveler x;
     accompanyingTravelers := accompanyingTravelers x;
     totalTravelers := totalTravelers x;
     satisfactionRating := satisfactionRating x; notes := notes x;
     createdAt := createdAt x; updatedAt := updatedAt x |}.

(** What [JSON.parse (JSON.stringify trip)] yields: every date becomes its
    ISO string. *)
Definition toJSON (x : t) : t :=
  {| id := id x; tripNumber := tripNumber x; status := status x;
     origin := Location.toJSON (origin x);
     destination := Location.toJSON <$> destination x;
     startTime := JS.toJSON (startTime x);
     endTime := JS.toJSON <$> endTime x; duration := duration x;
     mode := mode x; purpose := purpose x; purposeDetail := purposeDetail x;
     primaryTraveler := primaryTraveler x;
     accompanyingTravelers := accompanyingTravelers x;
     totalTravelers := totalTravelers x;
     satisfactionRating := satisfactionRating x; notes := notes x;
     createdAt := JS.toJSON (createdAt x);
     updatedAt := JS.toJSON (updatedAt x) |}.

(** The record with [updatedAt] replaced by a new [Date]. *)
Definition touch (now : Z) (x : t) : t :=
  {| id := id x; tripNumber := tripNumber x; status := status x;
     origin := origin x; destination := destination x;
     startTime := startTime x; endTime := endTime x; duration := duration x;
     mode := mode x; purpose := purpose x; purposeDetail := purposeDetail x;
     primaryTraveler := primaryTraveler x;
     accompanyingTravelers := accompanyingTravelers x;
     totalTravelers := totalTravelers x;
     satisfactionRating := satisfactionRating x; notes := notes x;
     createdAt := createdAt x; updatedAt := JS.DateObj now |}.


(** [trip.id === tripId], the test of every [find] and [findIndex] by id. *)
Definition has_id (tripId : string) (x : t) : Prop := id x = tripId.

#[global] Instance has_id_dec tripId x : Decision (has_id tripId x).
Proof. unfold has_id. apply _. Defined.

End Trip.

(** [Partial<Trip>], the [updates] object of the update operations.  For a
    required property the key is absent ([None]) or holds a value; for an
    optional property it may also be present and hold [undefined] or [null]
    ([Some None]), which the object spread copies all the same. *)
Module PartialTrip.

Record t : Type := mk {
  id : option string;
  tripNumber : option Z;
  status : option TripStatus;
  origin : option Location.t;
  destination : option (option Location.t);
  startTime : option JS.DateVal;
  endTime : option (option JS.DateVal);
  duration : option (option Z);
  mode : option TransportMode;
  purpose : option TripPurpose;
  purposeDetail : option (option string);
  primaryTraveler : option string;
  accompanyingTravelers : option (list string);
  totalTravelers : option Z;
  satisfactionRating : option (option Z);
  notes : option (option string);
  createdAt : option JS.DateVal
}.

(** The object without any key. *)
Definition empty : t :=
  mk None None None None None None None None None None None None None None
     None None None.

End PartialTrip.

(** [{ ...trip, ...updates, updatedAt: new Date() }]: every key of
    [updates] replaces the stored property (an [updatedAt] key of [updates]
    is overwritten right away, so it is not modelled). *)
Definition merge (x : Trip.t) (u : PartialTrip.t) (now : Z) : Trip.t :=
  {| Trip.id := default (Trip.id x) (PartialTrip.id u);
     Trip.tripNumber := default (Trip.tripNumber x) (PartialTrip.tripNumber u);
     Trip.status := default (Trip.status x) (PartialTrip.status u);
     Trip.origin := default (Trip.origin x) (PartialTrip.origin u);
     Trip.destination :=
       default (Trip.destination x) (PartialTrip.destination u);
     Trip.startTime := default (Trip.startTime x) (PartialTrip.startTime u);
     Trip.endTime := default (Trip.endTime x) (PartialTrip.endTime u);
     Trip.duration := default (Trip.duration x) (PartialTrip.duration u);
     Trip.mode := default (Trip.mode x) (PartialTrip.mode u);
     Trip.purpose := default (Trip.purpose x) (PartialTrip.purpose u);
     Trip.purposeDetail :=
       default (Trip.purposeDetail x) (PartialTrip.purposeDetail u);
     Trip.primaryTraveler :=
       default (Trip.primaryTraveler x) (PartialTrip.primaryTraveler u);
     Trip.accompanyingTravelers :=
       default (Trip.accompanyingTravelers x)
               (PartialTrip.accompanyingTravelers u);
     Trip.totalTravelers :=
       default (Trip.totalTravelers x) (PartialTrip.totalTravelers u);
     Trip.satisfactionRating :=
       default (Trip.satisfactionRating x) (PartialTrip.satisfactionRating u);
     Trip.notes := default (Trip.notes x) (PartialTrip.notes u);
     Trip.createdAt := default (Trip.createdAt x) (PartialTrip.createdAt u);
     Trip.updatedAt := JS.DateObj now |}.

(** The [{ success, data | error }] body and the HTTP status of a route
    handler's answer. *)
Inductive Response (A : Type) : Type :=
| Success (code : Z) (data : A)
| Failure (code : Z) (error : string).

Arguments Success {A} code data.
Arguments Failure {A} code error.

Definition is_failure {A} (r : Response A) : Prop :=
  match r with Failure _ _ => True | Success _ _ => False end.

(** Travelers and the bodies of the travelers requests. *)

Inductive AgeGroup : Type := age_child | age_teen | age_adult | age_senior.

Inductive Relationship : Type :=
| rel_self | rel_spouse | rel_child | rel_parent | rel_sibling | rel_friend
| rel_colleague | rel_other.


Definition ageGroup_name (g : AgeGroup) : string :=
  match g with
  | age_child => "child" | age_teen => "teen" | age_adult => "adult"
  | age_senior => "senior"
  end.

Definition relationship_name (r : Relationship) : string :=
  match r with
  | rel_self => "self" | rel_spouse => "spouse" | rel_child => "child"
  | rel_parent => "parent" | rel_sibling => "sibling" | rel_friend => "friend"
  | rel_colleague => "colleague" | rel_other => "other"
  end.

Module Traveler.

Record t : Type := mk {
  id : string;
  name : string;
  ageGroup : AgeGroup;
  relationship : Relationship;
  hasConsent : bool;
  createdAt : JS.DateVal
}.

End Traveler.

Module TravelerForm.

(** The JSON body of the travelers [POST]. *)
Record t : Type := mk {
  name : option string;
  ageGroup : option AgeGroup;
  relationship : option Relationship;
  hasConsent : option bool
}.

End TravelerForm.

Module PartialTraveler.

(** The [updates] object of the travelers [PUT]. *)
Record t : Type := mk {
  id : option string;
  name : option string;
  ageGroup : option AgeGroup;
  relationship : option Relationship;
  hasConsent : option bool;
  createdAt : option JS.DateVal
}.

End PartialTraveler.

(** ** The specification's vocabulary *)

Module Spec.

(** "totalTravelers == 1 + len(accompanyingTravelers)". *)
Definition travelers_counted (x : Trip.t) : Prop :=
  Trip.totalTravelers x = 1 + Z.of_nat (length (Trip.accompanyingTravelers x)).

(** "max(existing tripNumbers) + 1 (or 1 if none exist)": [n] is the number
    this rule gives over the collection [l]. *)
Definition is_next (l : list Trip.t) (n : Z) : Prop :=
  (l = [] ∧ n = 1)
  ∨ (∃ x, x ∈ l ∧ n = Trip.tripNumber x + 1
          ∧ ∀ y, y ∈ l → Trip.tripNumber y ≤ Trip.tripNumber x).

(** "No two travelers share the same name under case-insensitive
    comparison." *)
Definition names_unique (travelers : list Traveler.t) : Prop :=
  NoDup ((λ x, JS.toLowerCase (Traveler.name x)) <$> travelers).

End Spec.

(** ** The trips route handlers ([src/app/api/trips/route.ts]) *)

Module PostBody.

(** The JSON body of [POST]; a key that is absent or falsy is [None]. *)
Record t : Type := mk {
  origin : option Location.t;
  mode : option TransportMode;
  purpose : option TripPurpose;
  purposeDetail : option string;
  accompanyingTravelers : option (list string);
  notes : option string
}.

End PostBody.

Module PutBody.

(** The JSON body of [PUT]: [{ tripId, updates }]. *)
Record t : Type := mk {
  tripId : option string;
  updates : option PartialTrip.t
}.

End PutBody.

Module TripsRoute.

(** The module-level variables [trips] and [tripIdCounter]. *)
Record state : Type := mk_state {
  trips : list Trip.t;
  tripIdCounter : Z
}.

Definition initial : state := {| trips := []; tripIdCounter := 1 |}.

(** [trip.primaryTraveler === owner && trip.status === 'active']. *)
Definition active_of (owner : string) (x : Trip.t) : Prop :=
  Trip.primaryTraveler x = owner ∧ Trip.status x = active.

#[global] Instance active_of_dec owner x : Decision (active_of owner x).
Proof. unfold active_of. apply _. Defined.

(** The record [POST] builds (lines 76-94). *)
Definition newTrip (counter : Z) (origin : Location.t) (mode : TransportMode)
    (purpose : TripPurpose) (body : PostBody.t) (tripId : string) (now : Z)
  : Trip.t :=
  {| Trip.id := tripId;
     Trip.tripNumber := counter;
     Trip.status := active;
     Trip.origin :=
       {| Location.latitude := Location.latitude origin;
          Location.longitude := Location.longitude origin;
          Location.address := Location.address origin;
          Location.timestamp :=
            JS.DateObj (JS.new_Date (Location.timestamp origin)) |};
     Trip.destination := None;
     Trip.startTime := JS.DateObj now;
     Trip.endTime := None;
     Trip.duration := None;
     Trip.mode := mode;
     Trip.purpose := purpose;
     Trip.purposeDetail := PostBody.purposeDetail body;
     Trip.primaryTraveler := "current_user";
     Trip.accompanyingTravelers :=
       default [] (PostBody.accompanyingTravelers body);
     Trip.totalTravelers :=
       1 + Z.of_nat (length (default [] (PostBody.accompanyingTravelers body)));
     Trip.satisfactionRating := None;
     Trip.notes := PostBody.notes body;
     Trip.createdAt := JS.DateObj now;
     Trip.updatedAt := JS.DateObj now |}.

Definition POST (st : state) (body : PostBody.t) (tripId : string) (now : Z)
  : state * Response Trip.t :=
  match PostBody.origin body, PostBody.mode body, PostBody.purpose body with
  | Some origin, Some mode, Some purpose =>
      match list_find (active_of "current_user") (trips st) with
      | Some _ =>
          (st, Failure 400 "Cannot create new trip: active trip already exists")
      | None =>
          let x := newTrip (tripIdCounter st) origin mode purpose body tripId now in
          ({| trips := trips st ++ [x];
              tripIdCounter := tripIdCounter st + 1 |},
           Success 201 x)
      end
  | _, _, _ =>
      (st, Failure 400 "Missing required fields: origin, mode, purpose")
  end.

(** [updates.destination] is truthy. *)
Definition destination_given (u : PartialTrip.t) : Prop :=
  match PartialTrip.destination u with
  | Some (Some _) => True
  | _ => False
  end.

(** [updates.duration] is truthy: present, and neither [null] nor [0]. *)
Definition duration_given (u : PartialTrip.t) : Prop :=
  match PartialTrip.duration u with
  | Some (Some d) => d ≠ 0
  | _ => False
  end.

#[global] Instance destination_given_dec u : Decision (destination_given u).
Proof. unfold destination_given. repeat case_match; apply _. Defined.

#[global] Instance duration_given_dec u : Decision (duration_given u).
Proof. unfold duration_given. repeat case_match; apply _. Defined.

(** The guard of line 144. *)
Definition completing (u : PartialTrip.t) : Prop :=
  PartialTrip.status u = Some completed
  ∧ destination_given u ∧ ¬ duration_given u.

#[global] Instance completing_dec u : Decision (completing u).
Proof. unfold completing. apply _. Defined.

(** [new Date(updates.endTime || new Date()).getTime()]. *)
Definition endTime_or_now (u : PartialTrip.t) (now : Z) : Z :=
  match PartialTrip.endTime u with
  | Some (Some e) => JS.new_Date e
  | _ => now
  end.

(** Lines 145-147, on the record already merged. *)
Definition durationMinutes (merged : Trip.t) (u : PartialTrip.t) (now : Z) : Z :=
  JS.round_half_up
    (endTime_or_now u now - JS.new_Date (Trip.startTime merged)) (1000 * 60).

(** What [trips[tripIndex]] holds when [PUT] answers 200. *)
Definition updated (x : Trip.t) (u : PartialTrip.t) (now : Z) : Trip.t :=
  let merged := merge x u now in
  if decide (completing u)
  then Trip.set_duration (durationMinutes merged u now) merged
  else merged.

Definition with_trips (st : state) (l : list Trip.t) : state :=
  {| trips := l; tripIdCounter := tripIdCounter st |}.

(** [PUT].  When the body has no [updates], the merge of line 137 has
    already been stored by the time [updates.status] raises; the [catch]
    answers 500. *)
Definition PUT (st : state) (body : PutBody.t) (now : Z)
  : state * Response Trip.t :=
  match PutBody.tripId body with
  | Some tripId =>
      if decide (JS.truthy tripId) then
        match list_find (Trip.has_id tripId) (trips st) with
        | None => (st, Failure 404 "Trip not found")
        | Some (tripIndex, x) =>
            match PutBody.updates body with
            | Some u =>
                let y := updated x u now in
                (with_trips st (<[tripIndex := y]> (trips st)), Success 200 y)
            | None =>
                (with_trips st
                   (<[tripIndex := merge x PartialTrip.empty now]> (trips st)),
                 Failure 500 "Failed to update trip")
            end
        end
      else (st, Failure 400 "Missing tripId")
  | None => (st, Failure 400 "Missing tripId")
  end.

(** [DELETE]; [tripId] is the query parameter. *)
Definition DELETE (st : state) (tripId : option string)
  : state * Response Trip.t :=
  match tripId with
  | Some tripId =>
      if decide (JS.truthy tripId) then
        match list_find (Trip.has_id tripId) (trips st) with
        | None => (st, Failure 404 "Trip not found")
        | Some (tripIndex, x) =>
            (with_trips st (delete tripIndex (trips st)), Success 200 x)
        end
      else (st, Failure 400 "Missing tripId parameter")
  | None => (st, Failure 400 "Missing tripId parameter")
  end.

(** The scalar entries of the [stats] object ([byMode] and [byPurpose] are
    plain tallies and are left out). *)
Record Stats : Type := mk_stats {
  total : nat;
  completed_count : nat;
  active_count : nat;
  cancelled_count : nat;
  avgDuration : JS.number;
  totalDistance : Z;
  totalTravelers : Z
}.

(** [t.duration] is truthy. *)
Definition has_duration (x : Trip.t) : Prop :=
  match Trip.duration x with
  | Some d => d ≠ 0
  | None => False
  end.

#[global] Instance has_duration_dec x : Decision (has_duration x).
Proof. unfold has_duration. case_match; apply _. Defined.

Definition owned_by (userId : string) (x : Trip.t) : Prop :=
  Trip.primaryTraveler x = userId.

#[global] Instance owned_by_dec userId x : Decision (owned_by userId x).
Proof. unfold owned_by. apply _. Defined.

Definition has_status (s : TripStatus) (x : Trip.t) : Prop := Trip.status x = s.

#[global] Instance has_status_dec s x : Decision (has_status s x).
Proof. unfold has_status. apply _. Defined.

(** [.reduce((sum, t) => sum + (t.duration || 0), 0)]. *)
Definition sum_durations (l : list Trip.t) : Z :=
  foldl (λ sum x, sum + default 0 (Trip.duration x)) 0 l.

(** The divisor of line 226: [Math.max(count, 1)]. *)
Definition avg_divisor (userTrips : list Trip.t) : Z :=
  Z.max (Z.of_nat (length (filter has_duration userTrips))) 1.

Definition stats (st : state) (userId : string) : Stats :=
  let userTrips := filter (owned_by userId) (trips st) in
  {| total := length userTrips;
     completed_count := length (filter (has_status completed) userTrips);
     active_count := length (filter (has_status active) userTrips);
     cancelled_count := length (filter (has_status cancelled) userTrips);
     avgDuration :=
       JS.Math_round_quot (sum_durations (filter has_duration userTrips))
                          (avg_divisor userTrips);
     totalDistance := 0;
     totalTravelers := foldl (λ sum x, sum + Trip.totalTravelers x) 0 userTrips |}.

(** [OPTIONS]: the statistics endpoint. *)
Definition OPTIONS (st : state) (userId action : option string)
  : Response Stats :=
  let userId :=
    match userId with
    | Some u => if decide (JS.truthy u) then u else "current_user"
    | None => "current_user"
    end in
  if decide (action = Some "stats")
  then Success 200 (stats st userId)
  else Failure 400 "Invalid action".

(** The requests that change the state, and a run of them. *)
Inductive request : Type :=
| Post (body : PostBody.t) (tripId : string) (now : Z)
| Put (body : PutBody.t) (now : Z)
| Delete (tripId : option string).

Definition handle (st : state) (r : request) : state * Response Trip.t :=
  match r with
  | Post body tripId now => POST st body tripId now
  | Put body now => PUT st body now
  | Delete tripId => DELETE st tripId
  end.

(** The state after a run, and the answers in the order they were given. *)
Fixpoint run (st : state) (rs : list request)
  : state * list (request * Response Trip.t) :=
  match rs with
  | [] => (st, [])
  | r :: rs' =>
      let '(st', a) := handle st r in
      let '(st'', answers) := run st' rs' in
      (st'', (r, a) :: answers)
  end.

(** The trip number an answer carries, when it answers a successful [POST]. *)
Definition handed_out (ra : request * Response Trip.t) : option Z :=
  match ra with
  | (Post _ _ _, Success _ x) => Some (Trip.tripNumber x)
  | _ => None
  end.

(** The trip numbers handed out in the course of a run, in order. *)
Definition assigned (answers : list (request * Response Trip.t)) : list Z :=
  omap handed_out answers.

(** The number of trips of [owner] that are active. *)
Definition active_trips (owner : string) (l : list Trip.t) : nat :=
  length (filter (active_of owner) l).

(** An update that neither sets [status] to active nor reassigns the
    trip to an owner. *)
Definition tame_update (u : PartialTrip.t) : Prop :=
  PartialTrip.status u ≠ Some active ∧ PartialTrip.primaryTraveler u = None.

Definition tame (r : request) : Prop :=
  match r with
  | Put body _ =>
      match PutBody.updates body with
      | Some u => tame_update u
      | None => True
      end
  | _ => True
  end.

Definition at_most_one_active (st : state) : Prop :=
  ∀ owner, (active_trips owner (trips st) ≤ 1)%nat.

(** A request that neither removes a trip nor overwrites a trip number. *)
Definition keeps_numbers (r : request) : Prop :=
  match r with
  | Post _ _ _ => True
  | Put body _ =>
      match PutBody.updates body with
      | Some u => PartialTrip.tripNumber u = None
      | None => True
      end
  | Delete _ => False
  end.

(** The counter is what "maximum plus one" gives over the collection. *)
Definition numbered (st : state) : Prop :=
  Spec.is_next (trips st) (tripIdCounter st).


(** [searchParams.get('userId') || 'current_user']. *)
Definition userId_or_default (userId : option string) : string :=
  match userId with
  | Some u => if decide (JS.truthy u) then u else "current_user"
  | None => "current_user"
  end.

(** [trip.status === status], for the query parameter [status]. *)
Definition status_is (status : string) (x : Trip.t) : Prop :=
  status_name (Trip.status x) = status.

#[global] Instance status_is_dec status x : Decision (status_is status x).
Proof. unfold status_is. apply _. Defined.

(** [new Date(trip.createdAt).getTime()], the key of the sorts. *)
Definition created (x : Trip.t) : Z := JS.new_Date (Trip.createdAt x).

(** The trips [GET] selects, before it sorts them (lines 17-21). *)
Definition selected (st : state) (userId status : option string)
  : list Trip.t :=
  let filteredTrips :=
    filter (owned_by (userId_or_default userId)) (trips st) in
  match status with
  | Some s =>
      if decide (JS.truthy s) then filter (status_is s) filteredTrips
      else filteredTrips
  | None => filteredTrips
  end.

(** [GET].  [limit] is what [parseInt(searchParams.get('limit') || '0')]
    gives, [None] when that is [NaN].  The array sorted is the fresh one
    that [filter] made, so [trips] itself is left alone. *)
Definition GET (st : state) (userId status : option string) (limit : option Z)
  : Response (list Trip.t) :=
  let filteredTrips := JS.sort_desc created (selected st userId status) in
  match limit with
  | Some n =>
      if decide (0 < n) then Success 200 (JS.slice filteredTrips 0 n)
      else Success 200 filteredTrips
  | None => Success 200 filteredTrips
  end.

(** The [byMode] and [byPurpose] entries of the [stats] object. *)
Definition byMode (st : state) (userId : string) : gmap string Z :=
  JS.tally (λ x, mode_name (Trip.mode x)) (filter (owned_by userId) (trips st)).

Definition byPurpose (st : state) (userId : string) : gmap string Z :=
  JS.tally (λ x, purpose_name (Trip.purpose x))
           (filter (owned_by userId) (trips st)).

End TripsRoute.

(** ** The travelers route handlers *)

Module TravelersRoute.

(** [t.name.toLowerCase() === name.toLowerCase()]. *)
Definition same_name (name : string) (x : Traveler.t) : Prop :=
  JS.toLowerCase (Traveler.name x) = JS.toLowerCase name.

#[global] Instance same_name_dec name x : Decision (same_name name x).
Proof. unfold same_name. apply _. Defined.

(** [t.id !== travelerId && t.name.toLowerCase() === name.toLowerCase()]. *)
Definition other_with_name (travelerId name : string) (x : Traveler.t) : Prop :=
  Traveler.id x ≠ travelerId ∧ same_name name x.

#[global] Instance other_with_name_dec travelerId name x :
  Decision (other_with_name travelerId name x).
Proof. unfold other_with_name. apply _. Defined.

Definition has_id (travelerId : string) (x : Traveler.t) : Prop :=
  Traveler.id x = travelerId.

#[global] Instance has_id_dec travelerId x : Decision (has_id travelerId x).
Proof. unfold has_id. apply _. Defined.

(** The state is the module-level array [travelers]. *)
Definition POST (travelers : list Traveler.t) (body : TravelerForm.t)
    (travelerId : string) (now : Z)
  : list Traveler.t * Response Traveler.t :=
  let missing :=
    (travelers,
     Failure 400 "Missing required fields: name, ageGroup, relationship") in
  match TravelerForm.name body, TravelerForm.ageGroup body,
        TravelerForm.relationship body with
  | Some name, Some ageGroup, Some relationship =>
      if decide (JS.truthy name) then
        match list_find (same_name name) travelers with
        | Some _ =>
            (travelers, Failure 400 "A traveler with this name already exists")
        | None =>
            let x :=
              {| Traveler.id := travelerId;
                 Traveler.name := JS.trim name;
                 Traveler.ageGroup := ageGroup;
                 Traveler.relationship := relationship;
                 Traveler.hasConsent := default false (TravelerForm.hasConsent body);
                 Traveler.createdAt := JS.DateObj now |} in
            (travelers ++ [x], Success 201 x)
        end
      else missing
  | _, _, _ => missing
  end.

(** [{ ...travelers[travelerIndex], ...updates }]. *)
Definition merge (x : Traveler.t) (u : PartialTraveler.t) : Traveler.t :=
  {| Traveler.id := default (Traveler.id x) (PartialTraveler.id u);
     Traveler.name := default (Traveler.name x) (PartialTraveler.name u);
     Traveler.ageGroup :=
       default (Traveler.ageGroup x) (PartialTraveler.ageGroup u);
     Traveler.relationship :=
       default (Traveler.relationship x) (PartialTraveler.relationship u);
     Traveler.hasConsent :=
       default (Traveler.hasConsent x) (PartialTraveler.hasConsent u);
     Traveler.createdAt :=
       default (Traveler.createdAt x) (PartialTraveler.createdAt u) |}.

(** [if (updates.name) { ... find ... }]: is there another record with the
    new name? *)
Definition name_taken (travelers : list Traveler.t) (travelerId : string)
    (u : PartialTraveler.t) : Prop :=
  match PartialTraveler.name u with
  | Some name =>
      JS.truthy name
      ∧ is_Some (list_find (other_with_name travelerId name) travelers)
  | None => False
  end.

#[global] Instance name_taken_dec travelers travelerId u :
  Decision (name_taken travelers travelerId u).
Proof. unfold name_taken. case_match; apply _. Defined.

(** The travelers [PUT].  Without [updates] in the body, [updates.name]
    raises before anything is stored and the [catch] answers 500. *)
Definition PUT (travelers : list Traveler.t) (travelerId : option string)
    (updates : option PartialTraveler.t)
  : list Traveler.t * Response Traveler.t :=
  match travelerId with
  | Some travelerId =>
      if decide (JS.truthy travelerId) then
        match list_find (has_id travelerId) travelers with
        | None => (travelers, Failure 404 "Traveler not found")
        | Some (travelerIndex, x) =>
            match updates with
            | Some u =>
                if decide (name_taken travelers travelerId u) then
                  (travelers,
                   Failure 400 "A traveler with this name already exists")
                else
                  (<[travelerIndex := merge x u]> travelers,
                   Success 200 (merge x u))
            | None => (travelers, Failure 500 "Failed to update traveler")
            end
        end
      else (travelers, Failure 400 "Missing travelerId")
  | None => (travelers, Failure 400 "Missing travelerId")
  end.


(** [new Date(traveler.createdAt).getTime()]. *)
Definition created (x : Traveler.t) : Z := JS.new_Date (Traveler.createdAt x).

(** [traveler.hasConsent === consentFilter]. *)
Definition consent_is (consentFilter : bool) (x : Traveler.t) : Prop :=
  Traveler.hasConsent x = consentFilter.

#[global] Instance consent_is_dec consentFilter x :
  Decision (consent_is consentFilter x).
Proof. unfold consent_is. apply _. Defined.

(** The travelers [GET]; [hasConsent] is the query parameter, [None] when
    absent.  Without the parameter [filteredTravelers] is the array
    [travelers] itself, and [sort] reorders it in place; with the parameter
    the array sorted is the fresh one that [filter] made. *)
Definition GET (travelers : list Traveler.t) (hasConsent : option string)
  : list Traveler.t * Response (list Traveler.t) :=
  match hasConsent with
  | None =>
      let sorted := JS.sort_desc created travelers in
      (sorted, Success 200 sorted)
  | Some h =>
      let consentFilter := bool_decide (h = "true") in
      (travelers,
       Success 200
         (JS.sort_desc created (filter (consent_is consentFilter) travelers)))
  end.

(** The travelers [DELETE]; [travelerId] is the query parameter. *)
Definition DELETE (travelers : list Traveler.t) (travelerId : option string)
  : list Traveler.t * Response Traveler.t :=
  match travelerId with
  | Some travelerId =>
      if decide (JS.truthy travelerId) then
        match list_find (has_id travelerId) travelers with
        | None => (travelers, Failure 404 "Traveler not found")
        | Some (travelerIndex, x) =>
            (delete travelerIndex travelers, Success 200 x)
        end
      else (travelers, Failure 400 "Missing travelerId parameter")
  | None => (travelers, Failure 400 "Missing travelerId parameter")
  end.

(** The object the travelers [OPTIONS] answers for [action=stats]. *)
Record Stats : Type := mk_stats {
  total : nat;
  withConsent : nat;
  withoutConsent : nat;
  byAgeGroup : gmap string Z;
  byRelationship : gmap string Z
}.

Definition stats (travelers : list Traveler.t) : Stats :=
  {| total := length travelers;
     withConsent := length (filter (consent_is true) travelers);
     withoutConsent := length (filter (consent_is false) travelers);
     byAgeGroup :=
       JS.tally (λ x, ageGroup_name (Traveler.ageGroup x)) travelers;
     byRelationship :=
       JS.tally (λ x, relationship_name (Traveler.relationship x)) travelers |}.

End TravelersRoute.

(** ** [StorageService]: the trips kept in [localStorage] *)

Module StorageService.

(** The browser's [localStorage] as far as trips go: whether the probe of
    [isStorageAvailable] goes through, which values [localStorage.setItem]
    takes under the key [natpac_travel_trips] (it throws on the others, as
    when the quota is exceeded, and [setItem] of the service then returns
    [false]), and the value parsed from that item, if the item exists. *)
Record localStorage : Type := mk {
  available : bool;
  accepts : list Trip.t → bool;
  trips_item : option (list Trip.t)
}.

Definition getTrips (ls : localStorage) : list Trip.t :=
  if available ls then default [] (trips_item ls) else [].

(** [setItem] (lines 46-57) writes [JSON.stringify(trips)]; what is read
    back later is its parse.  When the probe fails, or when
    [localStorage.setItem] throws on the serialized value, nothing is
    written and the answer is [false]. *)
Definition saveTrips (ls : localStorage) (trips : list Trip.t)
  : localStorage * bool :=
  if available ls then
    if accepts ls (Trip.toJSON <$> trips)
    then ({| available := true; accepts := accepts ls;
             trips_item := Some (Trip.toJSON <$> trips) |}, true)
    else (ls, false)
  else (ls, false).

Definition addTrip (ls : localStorage) (trip : Trip.t) : localStorage * bool :=
  saveTrips ls (getTrips ls ++ [trip]).

Definition updateTrip (ls : localStorage) (tripId : string)
    (updates : PartialTrip.t) (now : Z) : localStorage * bool :=
  let trips := getTrips ls in
  match list_find (Trip.has_id tripId) trips with
  | None => (ls, false)
  | Some (index, x) => saveTrips ls (<[index := merge x updates now]> trips)
  end.

Definition deleteTrip (ls : localStorage) (tripId : string)
  : localStorage * bool :=
  saveTrips ls (filter (λ x, Trip.id x ≠ tripId) (getTrips ls)).


Definition getTripById (ls : localStorage) (tripId : string) : option Trip.t :=
  snd <$> list_find (Trip.has_id tripId) (getTrips ls).

Definition getActiveTrip (ls : localStorage) : option Trip.t :=
  snd <$> list_find (λ x, Trip.status x = active) (getTrips ls).

End StorageService.

(** ** The [useTrips] hook ([src/hooks/useTrips.ts]) *)

Module NewTripForm.

(** [NewTripForm & { origin: Location }], the argument of [createTrip]. *)
Record t : Type := mk {
  origin : Location.t;
  mode : TransportMode;
  purpose : TripPurpose;
  purposeDetail : option string;
  accompanyingTravelers : list string;
  notes : option string
}.

End NewTripForm.

Module TripUpdateForm.

(** [TripUpdateForm], the declared type of the [updates] of the hook's
    [updateTrip]: it has no [status], no [tripNumber], no traveler list. *)
Record t : Type := mk {
  destination : option (option Location.t);
  mode : option TransportMode;
  purpose : option TripPurpose;
  purposeDetail : option (option string);
  satisfactionRating : option (option Z);
  notes : option (option string)
}.

(** The same object seen as a [Partial<Trip>]. *)
Definition to_partial (f : t) : PartialTrip.t :=
  {| PartialTrip.id := None; PartialTrip.tripNumber := None;
     PartialTrip.status := None; PartialTrip.origin := None;
     PartialTrip.destination := destination f;
     PartialTrip.startTime := None; PartialTrip.endTime := None;
     PartialTrip.duration := None;
     PartialTrip.mode := mode f; PartialTrip.purpose := purpose f;
     PartialTrip.purposeDetail := purposeDetail f;
     PartialTrip.primaryTraveler := None;
     PartialTrip.accompanyingTravelers := None;
     PartialTrip.totalTravelers := None;
     PartialTrip.satisfactionRating := satisfactionRating f;
     PartialTrip.notes := notes f;
     PartialTrip.createdAt := None |}.

End TripUpdateForm.

(** How a call ends: with a value, or with an exception that no [catch] of
    the callee handles. *)
Inductive outcome (A : Type) : Type :=
| Returned (a : A)
| Thrown (e : string).

Arguments Returned {A} a.
Arguments Thrown {A} e.

Module UseTrips.

(** The hook's React state, and the [localStorage] behind
    [storageService].  Every operation below is taken from the render that
    follows the previous one, so its closure sees the current state. *)
Record state : Type := mk_state {
  trips : list Trip.t;
  activeTrip : option Trip.t;
  loading : bool;
  error : option string;
  storage : StorageService.localStorage
}.

Definition set_error (w : state) (e : string) : state :=
  {| trips := trips w; activeTrip := activeTrip w; loading := false;
     error := Some e; storage := storage w |}.

(** [loadTrips], run on mount and by [refreshTrips]. *)
Definition loadTrips (w : state) : state :=
  let storedTrips := StorageService.getTrips (storage w) in
  {| trips := storedTrips;
     activeTrip := snd <$> list_find (TripsRoute.has_status active) storedTrips;
     loading := loading w; error := error w; storage := storage w |}.

(** The hook as first rendered over a given [localStorage]. *)
Definition mount (ls : StorageService.localStorage) : state :=
  loadTrips {| trips := []; activeTrip := None; loading := false;
               error := None; storage := ls |}.

Definition generateTripNumber (trips : list Trip.t) : Z :=
  let existingNumbers := Trip.tripNumber <$> trips in
  match JS.Math_max existingNumbers with
  | Some m => m + 1
  | None => 1
  end.

(** The record [createTrip] builds (lines 69-84). *)
Definition newTrip (trips : list Trip.t) (tripData : NewTripForm.t)
    (tripId : string) (now : Z) : Trip.t :=
  {| Trip.id := tripId;
     Trip.tripNumber := generateTripNumber trips;
     Trip.status := active;
     Trip.origin := NewTripForm.origin tripData;
     Trip.destination := None;
     Trip.startTime := JS.DateObj now;
     Trip.endTime := None;
     Trip.duration := None;
     Trip.mode := NewTripForm.mode tripData;
     Trip.purpose := NewTripForm.purpose tripData;
     Trip.purposeDetail := NewTripForm.purposeDetail tripData;
     Trip.primaryTraveler := "current_user";
     Trip.accompanyingTravelers := NewTripForm.accompanyingTravelers tripData;
     Trip.totalTravelers :=
       1 + Z.of_nat (length (NewTripForm.accompanyingTravelers tripData));
     Trip.satisfactionRating := None;
     Trip.notes := NewTripForm.notes tripData;
     Trip.createdAt := JS.DateObj now;
     Trip.updatedAt := JS.DateObj now |}.

(** [createTrip]: the new trip's id, or [null]. *)
Definition createTrip (w : state) (tripData : NewTripForm.t)
    (tripId : string) (now : Z) : state * option string :=
  match activeTrip w with
  | Some _ =>
      (set_error w
         "Please complete or cancel the current active trip before starting a new one",
       None)
  | None =>
      let x := newTrip (trips w) tripData tripId now in
      let '(ls, success) := StorageService.addTrip (storage w) x in
      if success then
        ({| trips := trips w ++ [x]; activeTrip := Some x; loading := false;
            error := None; storage := ls |}, Some tripId)
      else
        ({| trips := trips w; activeTrip := activeTrip w; loading := false;
            error := Some "Failed to save trip"; storage := ls |}, None)
  end.

(** [trip.id === tripId ? { ...trip, ...updates, updatedAt } : trip]. *)
Definition patch (tripId : string) (updates : PartialTrip.t) (now : Z)
    (x : Trip.t) : Trip.t :=
  if decide (Trip.has_id tripId x) then merge x updates now else x.

(** [updateTrip].  At run time [updates] is any [Partial<Trip>]:
    [completeTrip] and [cancelTrip] pass one. *)
Definition updateTrip (w : state) (tripId : string) (updates : PartialTrip.t)
    (now : Z) : state * bool :=
  let '(ls, success) :=
    StorageService.updateTrip (storage w) tripId updates now in
  if success then
    ({| trips := patch tripId updates now <$> trips w;
        activeTrip := patch tripId updates now <$> activeTrip w;
        loading := false; error := None; storage := ls |}, true)
  else
    ({| trips := trips w; activeTrip := activeTrip w; loading := false;
        error := Some "Failed to update trip"; storage := ls |}, false).

(** [setActiveTrip(null)] when the trip just closed was the active one. *)
Definition clear_active (before after : state) (tripId : string) : state :=
  match activeTrip before with
  | Some a =>
      if decide (Trip.has_id tripId a)
      then {| trips := trips after; activeTrip := None;
              loading := loading after; error := error after;
              storage := storage after |}
      else after
  | None => after
  end.

(** The [updates] object [completeTrip] assembles (lines 150-156). *)
Definition completion (destination : Location.t) (rating : option Z)
    (duration now : Z) : PartialTrip.t :=
  {| PartialTrip.id := None; PartialTrip.tripNumber := None;
     PartialTrip.status := Some completed; PartialTrip.origin := None;
     PartialTrip.destination := Some (Some destination);
     PartialTrip.startTime := None;
     PartialTrip.endTime := Some (Some (JS.DateObj now));
     PartialTrip.duration := Some (Some duration);
     PartialTrip.mode := None; PartialTrip.purpose := None;
     PartialTrip.purposeDetail := None;
     PartialTrip.primaryTraveler := None;
     PartialTrip.accompanyingTravelers := None;
     PartialTrip.totalTravelers := None;
     PartialTrip.satisfactionRating := Some rating;
     PartialTrip.notes := None;
     PartialTrip.createdAt := None |}.

(** [completeTrip].  Line 148 calls [trip.startTime.getTime()] directly;
    the function has no [try], so a [TypeError] there leaves it. *)
Definition completeTrip (w : state) (tripId : string)
    (destination : Location.t) (rating : option Z) (now : Z)
  : state * outcome bool :=
  match list_find (Trip.has_id tripId) (trips w) with
  | None =>
      ({| trips := trips w; activeTrip := activeTrip w; loading := loading w;
          error := Some "Trip not found"; storage := storage w |},
       Returned false)
  | Some (_, trip) =>
      match JS.getTime (Trip.startTime trip) with
      | None => (w, Thrown "TypeError: trip.startTime.getTime is not a function")
      | Some start =>
          let duration := JS.round_half_up (now - start) (1000 * 60) in
          let updates := completion destination rating duration now in
          let '(w', success) := updateTrip w tripId updates now in
          ((if success then clear_active w w' tripId else w'),
           Returned success)
      end
  end.

(** The [updates] object of [cancelTrip]. *)
Definition cancellation (now : Z) : PartialTrip.t :=
  {| PartialTrip.id := None; PartialTrip.tripNumber := None;
     PartialTrip.status := Some cancelled; PartialTrip.origin := None;
     PartialTrip.destination := None;
     PartialTrip.startTime := None;
     PartialTrip.endTime := Some (Some (JS.DateObj now));
     PartialTrip.duration := None;
     PartialTrip.mode := None; PartialTrip.purpose := None;
     PartialTrip.purposeDetail := None;
     PartialTrip.primaryTraveler := None;
     PartialTrip.accompanyingTravelers := None;
     PartialTrip.totalTravelers := None;
     PartialTrip.satisfactionRating := None;
     PartialTrip.notes := None;
     PartialTrip.createdAt := None |}.

Definition cancelTrip (w : state) (tripId : string) (now : Z) : state * bool :=
  let '(w', success) := updateTrip w tripId (cancellation now) now in
  ((if success then clear_active w w' tripId else w'), success).

Definition deleteTrip (w : state) (tripId : string) : state * bool :=
  let '(ls, success) := StorageService.deleteTrip (storage w) tripId in
  if success then
    (clear_active w
       {| trips := filter (λ x, Trip.id x ≠ tripId) (trips w);
          activeTrip := activeTrip w; loading := false; error := None;
          storage := ls |} tripId,
     true)
  else
    ({| trips := trips w; activeTrip := activeTrip w; loading := false;
        error := Some "Failed to delete trip"; storage := ls |}, false).

(** [trip.status === 'completed' && trip.duration]. *)
Definition completed_with_duration (x : Trip.t) : Prop :=
  Trip.status x = completed ∧ TripsRoute.has_duration x.

#[global] Instance completed_with_duration_dec x :
  Decision (completed_with_duration x).
Proof. unfold completed_with_duration. apply _. Defined.

(** The [avgDuration] entry of [getTripStats]. *)
Definition avgDuration (trips : list Trip.t) : JS.number :=
  let completedTrips := filter completed_with_duration trips in
  if decide (0 < length completedTrips)%nat
  then JS.Math_round_quot (TripsRoute.sum_durations completedTrips)
                          (Z.of_nat (length completedTrips))
  else JS.Num 0.

(** The calls a page makes on the hook, with the types the hook declares. *)
Inductive call : Type :=
| CreateTrip (tripData : NewTripForm.t) (tripId : string) (now : Z)
| UpdateTrip (tripId : string) (updates : TripUpdateForm.t) (now : Z)
| CompleteTrip (tripId : string) (destination : Location.t)
    (rating : option Z) (now : Z)
| CancelTrip (tripId : string) (now : Z)
| DeleteTrip (tripId : string)
| RefreshTrips.

Definition step (w : state) (c : call) : state :=
  match c with
  | CreateTrip tripData tripId now => fst (createTrip w tripData tripId now)
  | UpdateTrip tripId updates now =>
      fst (updateTrip w tripId (TripUpdateForm.to_partial updates) now)
  | CompleteTrip tripId destination rating now =>
      fst (completeTrip w tripId destination rating now)
  | CancelTrip tripId now => fst (cancelTrip w tripId now)
  | DeleteTrip tripId => fst (deleteTrip w tripId)
  | RefreshTrips => loadTrips w
  end.

(** [createTrip] builds its id from the clock and a random suffix; a call
    is [fresh] when that id is borne by no trip of the hook. *)
Definition fresh (w : state) (c : call) : Prop :=
  match c with
  | CreateTrip _ tripId _ => ∀ x, x ∈ trips w → Trip.id x ≠ tripId
  | _ => True
  end.

(** The states a page can bring the hook to, from a browser that has never
    stored a trip. *)
Inductive reachable : state → Prop :=
| reach_mount available accepts :
    reachable (mount {| StorageService.available := available;
                        StorageService.accepts := accepts;
                        StorageService.trips_item := None |})
| reach_step w c : reachable w → fresh w c → reachable (step w c).

Definition active_count (l : list Trip.t) : nat :=
  length (filter (TripsRoute.has_status active) l).

(** What holds of every reachable state. *)
Record consistent (w : state) : Prop := mk_consistent {
  one_active : (active_count (trips w) ≤ 1)%nat;
  active_known :
    ∀ x, x ∈ trips w → Trip.status x = active →
         ∃ a, activeTrip w = Some a ∧ Trip.id a = Trip.id x;
  stored : StorageService.getTrips (storage w) = Trip.toJSON <$> trips w;
  distinct_ids : NoDup (Trip.id <$> trips w)
}.


(** [getTripById]: the first trip of the hook with this id, or [null]. *)
Definition getTripById (trips : list Trip.t) (tripId : string)
  : option Trip.t :=
  snd <$> list_find (Trip.has_id tripId) trips.

(** [getRecentTrips(limit = 5)]: a sorted copy, cut by [slice(0, limit)]. *)
Definition getRecentTrips (trips : list Trip.t) (limit : option Z)
  : list Trip.t :=
  JS.slice (JS.sort_desc TripsRoute.created trips) 0 (default 5 limit).

(** [activeTrip], when set, is active and stands for an active trip of the
    collection.  (The two copies are stamped by two calls of [new Date()],
    so they are compared by id.) *)
Definition active_in_sync (w : state) : Prop :=
  ∀ a, activeTrip w = Some a →
       Trip.status a = active
       ∧ ∃ x, x ∈ trips w ∧ Trip.id x = Trip.id a ∧ Trip.status x = active.

End UseTrips.


(** ** The composition the specification gives for [completeTrip] *)

Module SpecOps.

(** "Equivalent to updateTrip with status=completed, destination,
    endTime=now, duration=computed, satisfactionRating=rating", where the
    duration is "round((endTime - startTime) in minutes)"; "fails with
    NotFoundError if trip missing". *)
Definition completeTrip (w : UseTrips.state) (tripId : string)
    (destination : Location.t) (rating : option Z) (now : Z)
  : UseTrips.state * bool :=
  match list_find (Trip.has_id tripId) (UseTrips.trips w) with
  | None =>
      ({| UseTrips.trips := UseTrips.trips w;
          UseTrips.activeTrip := UseTrips.activeTrip w;
          UseTrips.loading := UseTrips.loading w;
          UseTrips.error := Some "Trip not found";
          UseTrips.storage := UseTrips.storage w |}, false)
  | Some (_, trip) =>
      UseTrips.updateTrip w tripId
        {| PartialTrip.id := None; PartialTrip.tripNumber := None;
           PartialTrip.status := Some completed; PartialTrip.origin := None;
           PartialTrip.destination := Some (Some destination);
           PartialTrip.startTime := None;
           PartialTrip.endTime := Some (Some (JS.DateObj now));
           PartialTrip.duration :=
             Some (Some (JS.round_half_up
                           (now - JS.new_Date (Trip.startTime trip)) 60000));
           PartialTrip.mode := None; PartialTrip.purpose := None;
           PartialTrip.purposeDetail := None;
           PartialTrip.primaryTraveler := None;
           PartialTrip.accompanyingTravelers := None;
           PartialTrip.totalTravelers := None;
           PartialTrip.satisfactionRating := Some rating;
           PartialTrip.notes := None;
           PartialTrip.createdAt := None |} now
  end.

End SpecOps.


(** ** [useTripHistory]: filtering and pagination ([useTrips.ts], 259-299) *)

Module UseTripHistory.

(** The [filter] state.  The history page stores what its select boxes
    give, so the three names are strings; an empty one is falsy and does
    not filter. *)
Record Filter : Type := mk_filter {
  status : option string;
  purpose : option string;
  mode : option string;
  dateRange : option (Z * Z)
}.

(** [filter.k && trip.k !== filter.k] does not reject the trip. *)
Definition criterion (wanted : option string) (actual : string) : Prop :=
  match wanted with
  | Some s => JS.truthy s → actual = s
  | None => True
  end.

#[global] Instance criterion_dec wanted actual :
  Decision (criterion wanted actual).
Proof. unfold criterion. case_match; apply _. Defined.

(** [new Date(trip.startTime)], the date the range is tested on and the
    key of the sort. *)
Definition started (x : Trip.t) : Z := JS.new_Date (Trip.startTime x).

(** The callback of [trips.filter] returns [true]. *)
Definition matches (f : Filter) (x : Trip.t) : Prop :=
  criterion (status f) (status_name (Trip.status x))
  ∧ criterion (purpose f) (purpose_name (Trip.purpose x))
  ∧ criterion (mode f) (mode_name (Trip.mode x))
  ∧ match dateRange f with
    | Some (start, end_) => start ≤ started x ≤ end_
    | None => True
    end.

#[global] Instance matches_dec f x : Decision (matches f x).
Proof. unfold matches. repeat case_match; apply _. Defined.

Definition filteredTrips (trips : list Trip.t) (f : Filter) : list Trip.t :=
  JS.sort_desc started (filter (matches f) trips).

(** [Math.ceil(filteredTrips.length / pageSize)]. *)
Definition totalPages (pageSize : Z) (all : list Trip.t) : JS.number :=
  JS.Math_ceil_quot (Z.of_nat (length all)) pageSize.

Definition paginatedTrips (pageSize currentPage : Z) (all : list Trip.t)
  : list Trip.t :=
  let startIndex := (currentPage - 1) * pageSize in
  JS.slice all startIndex (startIndex + pageSize).

Definition hasNextPage (pageSize currentPage : Z) (all : list Trip.t) : bool :=
  JS.lt_number currentPage (totalPages pageSize all).

Definition hasPrevPage (currentPage : Z) : bool := bool_decide (1 < currentPage).

(** The value [nextPage] and [prevPage] hand to [setCurrentPage]. *)
Definition nextPage (pageSize prev : Z) (all : list Trip.t) : JS.number :=
  JS.Math_min (prev + 1) (totalPages pageSize all).

Definition prevPage (prev : Z) : Z := Z.max (prev - 1) 1.

(** The pages [1 .. n], one after the other. *)
Definition pages (pageSize n : Z) (all : list Trip.t) : list (list Trip.t) :=
  (λ p, paginatedTrips pageSize p all) <$> seqZ 1 n.

End UseTripHistory.

(** ** The pages that call the hook *)

Module NewTripPage.

(** [handleTravelerToggle] (and [toggleTraveler] of
    [useTravelerSelection]): the next value of [selectedTravelers]. *)
Definition handleTravelerToggle (travelerId : string) (prev : list string)
  : list string :=
  if decide (travelerId ∈ prev)
  then filter (λ id, id ≠ travelerId) prev
  else prev ++ [travelerId].

(** [s.trim() || undefined]. *)
Definition trimmed_or_undefined (s : string) : option string :=
  if decide (JS.truthy (JS.trim s)) then Some (JS.trim s) else None.

(** What [handleSubmit] passes to [createTrip], once an origin and a mode
    have been chosen; [None] when it stops at one of its two alerts. *)
Definition tripData (origin : option Location.t) (mode : option TransportMode)
    (purpose : TripPurpose) (purposeDetail : string)
    (selectedTravelers : list string) (notes : string)
  : option NewTripForm.t :=
  match origin, mode with
  | Some origin, Some mode =>
      Some {| NewTripForm.origin := origin; NewTripForm.mode := mode;
              NewTripForm.purpose := purpose;
              NewTripForm.purposeDetail := trimmed_or_undefined purposeDetail;
              NewTripForm.accompanyingTravelers := selectedTravelers;
              NewTripForm.notes := trimmed_or_undefined notes |}
  | _, _ => None
  end.

End NewTripPage.

Module ActiveTripPage.

(** The [updates] of [handleUpdateNotes]:
    [{ notes: notes.trim() || undefined }]. *)
Definition notes_update (notes : string) : TripUpdateForm.t :=
  {| TripUpdateForm.destination := None; TripUpdateForm.mode := None;
     TripUpdateForm.purpose := None; TripUpdateForm.purposeDetail := None;
     TripUpdateForm.satisfactionRating := None;
     TripUpdateForm.notes := Some (NewTripPage.trimmed_or_undefined notes) |}.

Definition handleUpdateNotes (w : UseTrips.state) (activeTripId : string)
    (notes : string) (now : Z) : UseTrips.state * bool :=
  UseTrips.updateTrip w activeTripId
    (TripUpdateForm.to_partial (notes_update notes)) now.

End ActiveTripPage.

(** ** Concrete requests and states used by the examples *)

Module Sample.

Definition home : Location.t :=
  {| Location.latitude := 8.5; Location.longitude := 76.9;
     Location.address := None; Location.timestamp := JS.DateIso 0 |}.

Definition office : Location.t :=
  {| Location.latitude := 8.6; Location.longitude := 77.0;
     Location.address := None; Location.timestamp := JS.DateIso 400000 |}.

(** [{ origin, mode: 'car', purpose: 'work' }]. *)
Definition body : PostBody.t :=
  {| PostBody.origin := Some home; PostBody.mode := Some car;
     PostBody.purpose := Some work; PostBody.purposeDetail := None;
     PostBody.accompanyingTravelers := None; PostBody.notes := None |}.

(** One trip, started at instant 0. *)
Definition one_trip : TripsRoute.state :=
  fst (TripsRoute.POST TripsRoute.initial body "trip_1" 0).

(** One trip, started at instant 60000. *)
Definition late_trip : TripsRoute.state :=
  fst (TripsRoute.POST TripsRoute.initial body "trip_1" 60000).

Definition put (tripId : string) (u : PartialTrip.t) : PutBody.t :=
  {| PutBody.tripId := Some tripId; PutBody.updates := Some u |}.

(** [{ status: 'completed', destination }]. *)
Definition complete_at_office : PartialTrip.t :=
  {| PartialTrip.id := None; PartialTrip.tripNumber := None;
     PartialTrip.status := Some completed; PartialTrip.origin := None;
     PartialTrip.destination := Some (Some office);
     PartialTrip.startTime := None; PartialTrip.endTime := None;
     PartialTrip.duration := None;
     PartialTrip.mode := None; PartialTrip.purpose := None;
     PartialTrip.purposeDetail := None;
     PartialTrip.primaryTraveler := None;
     PartialTrip.accompanyingTravelers := None;
     PartialTrip.totalTravelers := None;
     PartialTrip.satisfactionRating := None;
     PartialTrip.notes := None;
     PartialTrip.createdAt := None |}.

(** [{ destination }], [{ status: s }] and [{ accompanyingTravelers }]. *)
Definition only_destination : PartialTrip.t :=
  {| PartialTrip.id := None; PartialTrip.tripNumber := None;
     PartialTrip.status := None; PartialTrip.origin := None;
     PartialTrip.destination := Some (Some office);
     PartialTrip.startTime := None; PartialTrip.endTime := None;
     PartialTrip.duration := None;
     PartialTrip.mode := None; PartialTrip.purpose := None;
     PartialTrip.purposeDetail := None;
     PartialTrip.primaryTraveler := None;
     PartialTrip.accompanyingTravelers := None;
     PartialTrip.totalTravelers := None;
     PartialTrip.satisfactionRating := None;
     PartialTrip.notes := None;
     PartialTrip.createdAt := None |}.

Definition only_status (s : TripStatus) : PartialTrip.t :=
  {| PartialTrip.id := None; PartialTrip.tripNumber := None;
     PartialTrip.status := Some s; PartialTrip.origin := None;
     PartialTrip.destination := None;
     PartialTrip.startTime := None; PartialTrip.endTime := None;
     PartialTrip.duration := None;
     PartialTrip.mode := None; PartialTrip.purpose := None;
     PartialTrip.purposeDetail := None;
     PartialTrip.primaryTraveler := None;
     PartialTrip.accompanyingTravelers := None;
     PartialTrip.totalTravelers := None;
     PartialTrip.satisfactionRating := None;
     PartialTrip.notes := None;
     PartialTrip.createdAt := None |}.

Definition only_travelers (l : list string) : PartialTrip.t :=
  {| PartialTrip.id := None; PartialTrip.tripNumber := None;
     PartialTrip.status := None; PartialTrip.origin := None;
     PartialTrip.destination := None;
     PartialTrip.startTime := None; PartialTrip.endTime := None;
     PartialTrip.duration := None;
     PartialTrip.mode := None; PartialTrip.purpose := None;
     PartialTrip.purposeDetail := None;
     PartialTrip.primaryTraveler := None;
     PartialTrip.accompanyingTravelers := Some l;
     PartialTrip.totalTravelers := None;
     PartialTrip.satisfactionRating := None;
     PartialTrip.notes := None;
     PartialTrip.createdAt := None |}.

(** Start at 0, completion reported at 450000 ms (seven and a half
    minutes): the stored duration is 8. *)
Definition complete_after (ms : Z) : PartialTrip.t :=
  {| PartialTrip.id := None; PartialTrip.tripNumber := None;
     PartialTrip.status := Some completed; PartialTrip.origin := None;
     PartialTrip.destination := Some (Some office);
     PartialTrip.startTime := None;
     PartialTrip.endTime := Some (Some (JS.DateIso ms));
     PartialTrip.duration := None;
     PartialTrip.mode := None; PartialTrip.purpose := None;
     PartialTrip.purposeDetail := None;
     PartialTrip.primaryTraveler := None;
     PartialTrip.accompanyingTravelers := None;
     PartialTrip.totalTravelers := None;
     PartialTrip.satisfactionRating := None;
     PartialTrip.notes := None;
     PartialTrip.createdAt := None |}.

(** The trip of [one_trip] once a destination has been stored for it. *)
Definition with_destination : TripsRoute.state :=
  fst (TripsRoute.PUT one_trip (put "trip_1" only_destination) 100).

(** [{ name: 'Asha', ageGroup: 'adult', relationship: 'friend',
    hasConsent: true }] and the registry that holds just this traveler. *)
Definition asha (name : string) : TravelerForm.t :=
  {| TravelerForm.name := Some name; TravelerForm.ageGroup := Some age_adult;
     TravelerForm.relationship := Some rel_friend;
     TravelerForm.hasConsent := Some true |}.

Definition registry : list Traveler.t :=
  fst (TravelersRoute.POST [] (asha "Asha") "traveler_1" 0).

(** [{ name }]. *)
Definition rename (name : string) : PartialTraveler.t :=
  {| PartialTraveler.id := None; PartialTraveler.name := Some name;
     PartialTraveler.ageGroup := None; PartialTraveler.relationship := None;
     PartialTraveler.hasConsent := None; PartialTraveler.createdAt := None |}.

(** The hook over a browser that has never stored a trip. *)
Definition fresh_storage : StorageService.localStorage :=
  {| StorageService.available := true;
     StorageService.accepts := λ _, true;
     StorageService.trips_item := None |}.

(** A browser whose quota has room for a trip as it is first written
    without notes, but not for an end time or for notes on top. *)
Definition tight_storage : StorageService.localStorage :=
  {| StorageService.available := true;
     StorageService.accepts :=
       λ l, forallb (λ x, bool_decide (Trip.endTime x = None
                                       ∧ Trip.notes x = None)) l;
     StorageService.trips_item := None |}.

Definition form : NewTripForm.t :=
  {| NewTripForm.origin := home; NewTripForm.mode := car;
     NewTripForm.purpose := work; NewTripForm.purposeDetail := None;
     NewTripForm.accompanyingTravelers := []; NewTripForm.notes := None |}.

(** A trip is started at instant 0; the page that shows it reads it back
    from storage, as every page does when it mounts. *)
Definition started : UseTrips.state :=
  UseTrips.step (UseTrips.mount fresh_storage) (UseTrips.CreateTrip form "trip_1" 0).

Definition reloaded : UseTrips.state := UseTrips.step started UseTrips.RefreshTrips.

(** A trip is completed, a second one is started, and the first is then
    set back to active by a bare [{ status: 'active' }]. *)
Definition reactivation : list TripsRoute.request :=
  [ TripsRoute.Post body "trip_1" 0;
    TripsRoute.Put (put "trip_1" complete_at_office) 100;
    TripsRoute.Post body "trip_2" 200;
    TripsRoute.Put (put "trip_1" (only_status active)) 300 ].

(** A trip is started and deleted. *)
Definition create_delete : list TripsRoute.request :=
  [ TripsRoute.Post body "trip_1" 0; TripsRoute.Delete (Some "trip_1") ].

(** Two trips, the first one completed. *)
Definition two_trips : list TripsRoute.request :=
  [ TripsRoute.Post body "trip_1" 0;
    TripsRoute.Put (put "trip_1" complete_at_office) 100;
    TripsRoute.Post body "trip_2" 200 ].

(** The same on the hook: the only trip is deleted, another is started. *)
Definition deleted : UseTrips.state :=
  UseTrips.step started (UseTrips.DeleteTrip "trip_1").

Definition restarted : UseTrips.state :=
  UseTrips.step deleted (UseTrips.CreateTrip form "trip_2" 10).

(** A second "Asha", sent with a blank in front. *)
Definition padded_asha : TravelerForm.t := asha " Asha".

(** Two travelers, "Asha" created at 0 and "Raj" created at 5. *)
Definition two_travelers : list Traveler.t :=
  fst (TravelersRoute.POST registry (asha "Raj") "traveler_2" 5).


(** The same start as [started], over the tight store. *)
Definition started_tight : UseTrips.state :=
  UseTrips.step (UseTrips.mount tight_storage)
                (UseTrips.CreateTrip form "trip_1" 0).

End Sample.

(** ** Properties of the trips route handlers *)

(** ** The primitives on concrete values *)

Example toLowerCase_Asha : JS.toLowerCase "Asha" = "asha".
Proof. reflexivity. Qed.

Example trim_padded : JS.trim "  Asha Rao  " = "Asha Rao".
Proof. reflexivity. Qed.

(** [Math.round(7.5) = 8], [Math.round(-7.5) = -7], [Math.round(7.4) = 7]. *)
Example round_ties_upwards :
  JS.round_half_up 15 2 = 8 ∧ JS.round_half_up (-15) 2 = -7
  ∧ JS.round_half_up 74 10 = 7.
Proof. repeat split. Qed.

Example quotient_by_zero :
  JS.Math_round_quot 0 0 = JS.NaN ∧ JS.Math_round_quot 5 0 = JS.Infinity false.
Proof. split; reflexivity. Qed.

Example stored_date_has_no_getTime :
  JS.getTime (JS.toJSON (JS.DateObj 42)) = None
  ∧ JS.new_Date (JS.toJSON (JS.DateObj 42)) = 42.
Proof. split; reflexivity. Qed.

(** A string literal that is not empty is truthy. *)
Ltac truthy_literal := unfold JS.truthy; discriminate.

Section TripsRouteFacts.

Import TripsRoute.

Lemma find_unknown (l : list Trip.t) (tripId : string) :
  (∀ x, x ∈ l → Trip.id x ≠ tripId) → list_find (Trip.has_id tripId) l = None.
Proof.
  intros Hno. apply list_find_None, list.Forall_forall. intros x Hx. exact (Hno x Hx).
Qed.

(** What [PUT] does once the trip is found and the body has [updates]. *)
Lemma PUT_found st tripId u now tripIndex x :
  JS.truthy tripId →
  list_find (Trip.has_id tripId) (trips st) = Some (tripIndex, x) →
  PUT st {| PutBody.tripId := Some tripId; PutBody.updates := Some u |} now
  = (with_trips st (<[tripIndex := updated x u now]> (trips st)),
     Success 200 (updated x u now)).
Proof.
  intros Hid Hfind. unfold PUT. simpl.
  destruct (decide (JS.truthy tripId)) as [_|Hn]; [|contradiction].
  by rewrite Hfind.
Qed.


(** C7. A [PUT] for a [tripId] that no trip of the collection bears fails
    and leaves the collection and the counter exactly as they were; the
    answer is 404 "Trip not found" (for the empty string, which the handler
    takes for a missing [tripId], it is 400). *)
Theorem PUT_unknown_trip_is_404_and_inert st tripId updates now :
  (∀ x, x ∈ trips st → Trip.id x ≠ tripId) →
  let answer :=
    PUT st {| PutBody.tripId := Some tripId; PutBody.updates := updates |} now in
  fst answer = st
  ∧ is_failure (snd answer)
  ∧ (JS.truthy tripId → answer = (st, Failure 404 "Trip not found")).
Proof.
  intros Hno. unfold PUT. simpl.
  destruct (decide (JS.truthy tripId)) as [Hid|Hn].
  - by rewrite (find_unknown _ _ Hno).
  - split; [done|]. split; [done|]. intros Hid. contradiction.
Qed.

Lemma PUT_unknown_trip_witness :
  PUT Sample.one_trip (Sample.put "trip_2" Sample.complete_at_office) 5
  = (Sample.one_trip, Failure 404 "Trip not found").
Proof.
  apply (PUT_unknown_trip_is_404_and_inert Sample.one_trip "trip_2").
  - intros x Hx. vm_compute in Hx. apply list_elem_of_singleton in Hx.
    subst x. vm_compute. discriminate.
  - truthy_literal.
Defined.



Example seven_and_a_half_minutes_round_to_8 :
  Trip.duration <$>
    (trips (fst (PUT Sample.late_trip
                   (Sample.put "trip_1" (Sample.complete_after 510000))
                   2000000)) !! 0%nat)
  = Some (Some 8).
Proof. vm_compute. reflexivity. Qed.

(** Without an end time in the payload the same request stores the 32
    minutes (32.33 rounded) up to the time it is handled. *)
Example completion_without_endTime_counts_to_now :
  Trip.duration <$>
    (trips (fst (PUT Sample.late_trip
                   (Sample.put "trip_1" Sample.complete_at_office)
                   2000000)) !! 0%nat)
  = Some (Some 32).
Proof. vm_compute. reflexivity. Qed.

(** C10. The duration is computed only from the payload: when the payload
    does not hold both [status = completed] and a destination, [PUT] stores
    the plain merge, whose duration is the payload's if it has one and the
    stored one otherwise.  A payload [{ status: 'completed' }] thus leaves
    the duration of a trip undefined if it was, whether or not a
    destination is already stored for the trip. *)
Theorem PUT_duration_gated_by_payload st tripId u now tripIndex x :
  JS.truthy tripId →
  list_find (Trip.has_id tripId) (trips st) = Some (tripIndex, x) →
  ¬ (PartialTrip.status u = Some completed ∧ destination_given u) →
  PUT st {| PutBody.tripId := Some tripId; PutBody.updates := Some u |} now
  = (with_trips st (<[tripIndex := merge x u now]> (trips st)),
     Success 200 (merge x u now))
  ∧ Trip.duration (merge x u now)
    = default (Trip.duration x) (PartialTrip.duration u)
  ∧ (PartialTrip.duration u = None → Trip.duration x = None →
     Trip.duration (merge x u now) = None).
Proof.
  intros Hid Hfind Hgate.
  rewrite (PUT_found _ _ _ _ _ _ Hid Hfind). unfold updated.
  destruct (decide (completing u)) as [(Hs & Hd & _)|_].
  { exfalso. apply Hgate. by split. }
  split; [done|]. split; [done|].
  intros Hu Hx. simpl. by rewrite Hu, Hx.
Qed.

Lemma PUT_duration_gated_witness :
  (∃ d, Trip.destination <$> (trips Sample.with_destination !! 0%nat)
        = Some (Some d))
  ∧ ∃ x,
      snd (PUT Sample.with_destination
             (Sample.put "trip_1" (Sample.only_status completed)) 450000)
      = Success 200 x
      ∧ Trip.status x = completed ∧ Trip.duration x = None.
Proof.
  split; [eexists; vm_compute; reflexivity|].
  destruct (PUT_duration_gated_by_payload Sample.with_destination "trip_1"
              (Sample.only_status completed) 450000 0%nat
              (merge (newTrip 1 Sample.home car work Sample.body "trip_1" 0)
                     Sample.only_destination 100))
    as (Hput & _ & Hnone).
  - truthy_literal.
  - vm_compute. reflexivity.
  - intros [_ Hd]. exact Hd.
  - eexists. split; [unfold Sample.put; by rewrite Hput|]. split; [reflexivity|].
    apply Hnone; reflexivity.
Defined.

(** *** Counting through an update in place *)

Lemma filter_none {A} (P : A → Prop) `{∀ x, Decision (P x)} (l : list A) :
  (∀ x, x ∈ l → ¬ P x) → filter P l = [].
Proof.
  induction l as [|a l IH]; intros Hno; [done|].
  rewrite filter_cons_False by (apply Hno; left).
  apply IH. intros x Hx. apply Hno. by right.
Qed.

Lemma length_filter_insert_le {A} (P : A → Prop) `{∀ x, Decision (P x)}
    (l : list A) (i : nat) (x y : A) :
  l !! i = Some x → (P y → P x) →
  (length (filter P (<[i := y]> l)) ≤ length (filter P l))%nat.
Proof.
  intros Hi Himp.
  rewrite insert_take_drop by (by eapply lookup_lt_Some).
  rewrite <- (take_drop_middle l i x Hi) at 3.
  rewrite !list.filter_app, !length_app, !filter_cons.
  destruct (decide (P y)) as [Hy|Hy].
  - destruct (decide (P x)) as [_|Hx]; [done|]. by destruct Hx; apply Himp.
  - destruct (decide (P x)); simpl; lia.
Qed.

Lemma length_filter_delete_le {A} (P : A → Prop) `{∀ x, Decision (P x)}
    (l : list A) (i : nat) :
  (length (filter P (delete i l)) ≤ length (filter P l))%nat.
Proof.
  revert i. induction l as [|a l IH]; intros [|i]; simpl; try done.
  - rewrite filter_cons. destruct (decide (P a)); simpl; lia.
  - rewrite !filter_cons. destruct (decide (P a)); simpl; [|apply IH].
    specialize (IH i). lia.
Qed.

(** *** The single active trip *)

Lemma merge_tame_active owner x u now :
  tame_update u → active_of owner (merge x u now) → active_of owner x.
Proof.
  intros [Hs Ho] [Hown Hact]. simpl in *. rewrite Ho in Hown. simpl in Hown.
  split; [done|].
  destruct (PartialTrip.status u) as [s|]; simpl in *; [|done].
  subst s. by destruct Hs.
Qed.

Lemma updated_tame_active owner x u now :
  tame_update u → active_of owner (updated x u now) → active_of owner x.
Proof.
  intros Ht. unfold updated.
  destruct (decide (completing u)); [|by apply merge_tame_active].
  intros [Hown Hact]. apply (merge_tame_active owner x u now Ht). by split.
Qed.

Lemma POST_blocked st body tripId now :
  (∃ x, x ∈ trips st ∧ active_of "current_user" x) →
  ∃ error,
    POST st body tripId now = (st, Failure 400 error)
    ∧ (is_Some (PostBody.origin body) → is_Some (PostBody.mode body) →
       is_Some (PostBody.purpose body) →
       error = "Cannot create new trip: active trip already exists").
Proof.
  intros (x & Hx & Hact). unfold POST.
  destruct (list_find_elem_of (active_of "current_user") _ x Hx Hact)
    as [[i y] Hfind].
  destruct (PostBody.origin body), (PostBody.mode body),
    (PostBody.purpose body);
    try (eexists; split; [reflexivity|];
         intros [? ?] [? ?] [? ?]; discriminate).
  rewrite Hfind. eexists. split; [reflexivity|done].
Qed.

Lemma POST_keeps_at_most_one st body tripId now :
  at_most_one_active st → at_most_one_active (fst (POST st body tripId now)).
Proof.
  intros Hinv. unfold POST.
  destruct (PostBody.origin body) as [o|]; [|done].
  destruct (PostBody.mode body) as [m|]; [|done].
  destruct (PostBody.purpose body) as [p|]; [|done].
  destruct (list_find _ _) as [?|] eqn:Hfind; [done|].
  intros owner. simpl. unfold active_trips.
  rewrite list.filter_app, length_app, filter_cons, filter_nil.
  destruct (decide (active_of owner _)) as [[Hown _]|_]; simpl.
  - simpl in Hown. subst owner.
    rewrite filter_none; [simpl; lia|].
    apply list_find_None in Hfind. by apply list.Forall_forall.
  - specialize (Hinv owner). unfold active_trips in Hinv. lia.
Qed.

Lemma PUT_keeps_at_most_one st body now :
  tame (Put body now) →
  at_most_one_active st → at_most_one_active (fst (PUT st body now)).
Proof.
  intros Htame Hinv. unfold PUT.
  destruct (PutBody.tripId body) as [tripId|]; [|done].
  destruct (decide (JS.truthy tripId)); [|done].
  destruct (list_find _ _) as [[i x]|] eqn:Hfind; [|done].
  apply list_find_Some in Hfind as (Hi & _ & _).
  simpl in Htame.
  destruct (PutBody.updates body) as [u|]; intros owner; simpl;
    unfold active_trips;
    (etrans; [|exact (Hinv owner)]);
    apply (length_filter_insert_le _ _ _ x); try done.
  by apply updated_tame_active.
Qed.

Lemma DELETE_keeps_at_most_one st tripId :
  at_most_one_active st → at_most_one_active (fst (DELETE st tripId)).
Proof.
  intros Hinv. unfold DELETE.
  destruct tripId as [tripId|]; [|done].
  destruct (decide (JS.truthy tripId)); [|done].
  destruct (list_find _ _) as [[i x]|]; [|done].
  intros owner. simpl. unfold active_trips.
  etrans; [apply length_filter_delete_le|exact (Hinv owner)].
Qed.

Lemma run_cons st r rs :
  run st (r :: rs)
  = (fst (run (fst (handle st r)) rs),
     (r, snd (handle st r)) :: snd (run (fst (handle st r)) rs)).
Proof.
  simpl. destruct (handle st r) as [st' a]. simpl.
  by destruct (run st' rs) as [st'' answers].
Qed.

Lemma run_keeps_at_most_one rs :
  ∀ st, Forall tame rs → at_most_one_active st →
        at_most_one_active (fst (run st rs)).
Proof.
  induction rs as [|r rs IH]; intros st Htame Hinv; [done|].
  rewrite run_cons. simpl.
  apply list.Forall_cons in Htame as [Hr Hrs].
  apply IH; [done|].
  destruct r as [body tripId now|body now|tripId]; simpl.
  - by apply POST_keeps_at_most_one.
  - by apply PUT_keeps_at_most_one.
  - by apply DELETE_keeps_at_most_one.
Qed.

(** *** The trip counter *)

Lemma handle_number st r :
  match handed_out (r, snd (handle st r)) with
  | Some n =>
      n = tripIdCounter st
      ∧ tripIdCounter (fst (handle st r)) = tripIdCounter st + 1
  | None => tripIdCounter (fst (handle st r)) = tripIdCounter st
  end.
Proof.
  destruct r as [body tripId now|body now|tripId]; simpl.
  - unfold POST. repeat case_match; simplify_eq/=; done.
  - unfold PUT. repeat case_match; simplify_eq/=; done.
  - unfold DELETE. repeat case_match; simplify_eq/=; done.
Qed.

Lemma assigned_cons ra answers :
  assigned (ra :: answers)
  = match handed_out ra with
    | Some n => n :: assigned answers
    | None => assigned answers
    end.
Proof. reflexivity. Qed.

Lemma run_assigned rs :
  ∀ st,
    assigned (snd (run st rs))
    = seqZ (tripIdCounter st) (Z.of_nat (length (assigned (snd (run st rs)))))
    ∧ tripIdCounter (fst (run st rs))
      = tripIdCounter st + Z.of_nat (length (assigned (snd (run st rs)))).
Proof.
  induction rs as [|r rs IH]; intros st.
  { simpl. split; [done|lia]. }
  rewrite run_cons. cbn [fst snd]. rewrite assigned_cons.
  pose proof (handle_number st r) as Hn.
  destruct (IH (fst (handle st r))) as [IH1 IH2].
  destruct (handed_out (r, snd (handle st r))) as [n|].
  - destruct Hn as [-> Hc]. cbn [length]. split.
    + rewrite seqZ_cons by lia. f_equal. rewrite IH1 at 1. f_equal; lia.
    + lia.
  - rewrite <- Hn. by split.
Qed.

(** *** Where the counter agrees with "maximum plus one" *)

Lemma is_next_snoc l x c :
  Spec.is_next l c → Trip.tripNumber x = c → Spec.is_next (l ++ [x]) (c + 1).
Proof.
  intros Hnext Hx. right. exists x.
  split; [apply elem_of_app; right; by apply list_elem_of_singleton|].
  split; [lia|].
  intros y [Hy|Hy]%elem_of_app.
  - destruct Hnext as [[-> _]|(m & Hm & -> & Hmax)].
    + by apply elem_of_nil in Hy.
    + specialize (Hmax y Hy). lia.
  - apply list_elem_of_singleton in Hy as ->. lia.
Qed.

Lemma is_next_insert l i x y c :
  l !! i = Some x → Trip.tripNumber y = Trip.tripNumber x →
  Spec.is_next l c → Spec.is_next (<[i := y]> l) c.
Proof.
  intros Hi Hy [[-> _]|(m & Hm & -> & Hmax)]; [done|].
  assert (Hlt : (i < length l)%nat) by (by eapply lookup_lt_Some).
  assert (Hbound : ∀ z, z ∈ <[i := y]> l →
                        Trip.tripNumber z ≤ Trip.tripNumber m).
  { intros z [k Hk]%list_elem_of_lookup.
    destruct (decide (k = i)) as [->|Hne].
    - rewrite list_lookup_insert_eq in Hk by done. injection Hk as <-.
      rewrite Hy. apply Hmax. by eapply list_elem_of_lookup_2.
    - rewrite list_lookup_insert_ne in Hk by done.
      apply Hmax. by eapply list_elem_of_lookup_2. }
  right. apply list_elem_of_lookup in Hm as [j Hj].
  destruct (decide (j = i)) as [->|Hne].
  - exists y. rewrite Hi in Hj. injection Hj as <-.
    split; [|split].
    + eapply list_elem_of_lookup_2. by apply list_lookup_insert_eq.
    + by rewrite Hy.
    + intros z Hz. rewrite Hy. by apply Hbound.
  - exists m. split; [|done].
    eapply list_elem_of_lookup_2. by rewrite list_lookup_insert_ne.
Qed.

Lemma handle_keeps_numbered st r :
  keeps_numbers r → numbered st → numbered (fst (handle st r)).
Proof.
  unfold numbered. intros Hr Hinv.
  destruct r as [body tripId now|body now|tripId]; simpl in *; [| |done].
  - unfold POST. repeat case_match; simpl; try done. by apply is_next_snoc.
  - unfold PUT.
    destruct (PutBody.tripId body) as [tripId|]; [|done].
    destruct (decide (JS.truthy tripId)); [|done].
    destruct (list_find _ _) as [[i x]|] eqn:Hfind; [|done].
    apply list_find_Some in Hfind as (Hi & _ & _).
    destruct (PutBody.updates body) as [u|]; simpl;
      apply (is_next_insert _ _ x); try done.
    unfold updated. destruct (decide (completing u)); simpl; by rewrite Hr.
Qed.

Lemma run_keeps_numbered rs :
  ∀ st, Forall keeps_numbers rs → numbered st → numbered (fst (run st rs)).
Proof.
  induction rs as [|r rs IH]; intros st Hrs Hinv; [done|].
  rewrite run_cons. simpl. apply list.Forall_cons in Hrs as [Hr Hrs].
  apply IH; [done|]. by apply handle_keeps_numbered.
Qed.

Lemma POST_number st body tripId now st' code x :
  POST st body tripId now = (st', Success code x) →
  Trip.tripNumber x = tripIdCounter st
  ∧ Spec.travelers_counted x
  ∧ Trip.status x = active
  ∧ trips st' = trips st ++ [x].
Proof.
  unfold POST. repeat case_match; intros [= <- <- <-]; simpl; done.
Qed.

(** *** The average duration *)

Lemma avgDuration_is_a_number st userId :
  1 ≤ avg_divisor (filter (owned_by userId) (trips st))
  ∧ ∃ v, avgDuration (stats st userId) = JS.Num v.
Proof.
  split; [unfold avg_divisor; lia|].
  simpl. unfold JS.Math_round_quot.
  set (d := avg_divisor _). assert (1 ≤ d) by (unfold d, avg_divisor; lia).
  destruct (decide (d = 0)); [lia|].
  destruct (decide (0 < d)); [|lia]. by eexists.
Qed.

Lemma avgDuration_without_durations st userId :
  (∀ x, x ∈ trips st → owned_by userId x → ¬ has_duration x) →
  avgDuration (stats st userId) = JS.Num 0.
Proof.
  intros Hno. simpl. unfold avg_divisor.
  rewrite (filter_none has_duration); [done|].
  intros x [Hown Hx]%list_elem_of_filter. by apply Hno.
Qed.

End TripsRouteFacts.

(** ** Properties of the travelers route handlers *)

Section TravelersRouteFacts.

Import TravelersRoute.








End TravelersRouteFacts.

(** ** Properties of the [useTrips] hook *)

Section UseTripsFacts.

Import UseTrips.

Lemma foldl_max_spec ns :
  ∀ n, let m := foldl Z.max n ns in
       (m = n ∨ m ∈ ns) ∧ n ≤ m ∧ ∀ k, k ∈ ns → k ≤ m.
Proof.
  induction ns as [|a ns IH]; intros n; simpl.
  { split; [by left|]. split; [lia|]. intros k Hk. by apply elem_of_nil in Hk. }
  destruct (IH (Z.max n a)) as (Hatt & Hle & Hall).
  split; [|split].
  - destruct Hatt as [Hm|Hm].
    + rewrite Hm. destruct (Z.max_spec n a) as [[_ Hmax]|[_ Hmax]]; rewrite Hmax.
      * right. apply list_elem_of_here.
      * by left.
    + right. by apply list_elem_of_further.
  - lia.
  - intros k [->|Hk]%elem_of_cons; [lia|by apply Hall].
Qed.

(** [generateTripNumber] is the specification's "maximum plus one, or 1". *)
Lemma generateTripNumber_is_next l : Spec.is_next l (generateTripNumber l).
Proof.
  unfold generateTripNumber. destruct l as [|x l]; [by left|]. right.
  rewrite fmap_cons. cbn [JS.Math_max].
  destruct (foldl_max_spec (Trip.tripNumber <$> l) (Trip.tripNumber x))
    as (Hatt & Hle & Hall).
  set (m := foldl Z.max _ _) in *.
  destruct Hatt as [Hm|Hm].
  - exists x. split; [apply list_elem_of_here|]. split; [lia|].
    intros y [->|Hy]%elem_of_cons; [done|].
    rewrite <- Hm. apply Hall. by apply list_elem_of_fmap_2.
  - apply list_elem_of_fmap in Hm as (y & Hy & Hin).
    exists y. split; [by apply list_elem_of_further|]. split; [lia|].
    intros z [->|Hz]%elem_of_cons; rewrite <- Hy; [done|].
    apply Hall. by apply list_elem_of_fmap_2.
Qed.

Lemma createTrip_blocked w tripData tripId now a :
  activeTrip w = Some a →
  createTrip w tripData tripId now
  = (set_error w
       "Please complete or cancel the current active trip before starting a new one",
     None).
Proof. intros Ha. unfold createTrip. by rewrite Ha. Qed.

Lemma createTrip_success w tripData tripId now w' r :
  createTrip w tripData tripId now = (w', Some r) →
  r = tripId
  ∧ activeTrip w = None
  ∧ trips w' = trips w ++ [newTrip (trips w) tripData tripId now]
  ∧ activeTrip w' = Some (newTrip (trips w) tripData tripId now).
Proof.
  unfold createTrip. destruct (activeTrip w); [done|].
  destruct (StorageService.addTrip _ _) as [ls []]; [|done].
  by intros [= <- <-].
Qed.

(** *** The average duration *)

Lemma hook_avgDuration_is_a_number l : ∃ v, avgDuration l = JS.Num v.
Proof.
  unfold avgDuration. destruct (decide _) as [Hpos|_]; [|by eexists].
  unfold JS.Math_round_quot.
  destruct (decide (_ = 0)); [lia|]. destruct (decide (0 < _)); [|lia].
  by eexists.
Qed.

Lemma hook_avgDuration_without_durations l :
  (∀ x, x ∈ l → Trip.status x = completed → ¬ TripsRoute.has_duration x) →
  avgDuration l = JS.Num 0.
Proof.
  intros Hno. unfold avgDuration.
  rewrite (filter_none completed_with_duration); [done|].
  intros x Hx [Hc Hd]. by apply (Hno x).
Qed.

(** *** [completeTrip] against its specification *)

(** On a trip whose [startTime] is a [Date] object the hook does what the
    specification's composition does, and then forgets the active trip. *)
Lemma completeTrip_on_Date w tripId destination rating now i trip ms :
  list_find (Trip.has_id tripId) (trips w) = Some (i, trip) →
  Trip.startTime trip = JS.DateObj ms →
  let spec := SpecOps.completeTrip w tripId destination rating now in
  completeTrip w tripId destination rating now
  = ((if snd spec then clear_active w (fst spec) tripId else fst spec),
     Returned (snd spec)).
Proof.
  intros Hfind Hstart. unfold completeTrip, SpecOps.completeTrip.
  rewrite Hfind, Hstart. simpl. unfold completion.
  by destruct (updateTrip _ _ _ _) as [w' success].
Qed.

Lemma completeTrip_missing w tripId destination rating now :
  (∀ x, x ∈ trips w → Trip.id x ≠ tripId) →
  ∃ w', completeTrip w tripId destination rating now = (w', Returned false)
        ∧ error w' = Some "Trip not found"
        ∧ trips w' = trips w ∧ storage w' = storage w.
Proof.
  intros Hno. unfold completeTrip. rewrite (find_unknown _ _ Hno).
  by eexists.
Qed.

(** *** The JSON round trip *)

Lemma Location_toJSON_idem l :
  Location.toJSON (Location.toJSON l) = Location.toJSON l.
Proof. by destruct l. Qed.

Lemma toJSON_idem x : Trip.toJSON (Trip.toJSON x) = Trip.toJSON x.
Proof.
  destruct x as [? ? ? o d ? e ? ? ? ? ? ? ? ? ? ? ?].
  unfold Trip.toJSON. simpl. rewrite Location_toJSON_idem.
  destruct d as [d|], e as [e|]; simpl;
    by rewrite ?Location_toJSON_idem.
Qed.

Lemma toJSON_merge x u now :
  Trip.toJSON (merge (Trip.toJSON x) u now) = Trip.toJSON (merge x u now).
Proof.
  destruct x as [? ? ? o d ? e ? ? ? ? ? ? ? ? ? ? ?],
           u as [? ? ? uo ud us ue ? ? ? ? ? ? ? ? ? uc].
  unfold Trip.toJSON, merge. simpl.
  destruct uo as [uo|], ud as [[ud|]|], us as [us|], ue as [[ue|]|],
    uc as [uc|], d as [d|], e as [e|]; simpl;
    by rewrite ?Location_toJSON_idem.
Qed.

Lemma fmap_toJSON_idem (l : list Trip.t) :
  Trip.toJSON <$> (Trip.toJSON <$> l) = Trip.toJSON <$> l.
Proof.
  rewrite <- list_fmap_compose. apply list_fmap_ext. intros i x _.
  apply toJSON_idem.
Qed.

Lemma find_toJSON tripId (l : list Trip.t) :
  list_find (Trip.has_id tripId) (Trip.toJSON <$> l)
  = prod_map id Trip.toJSON <$> list_find (Trip.has_id tripId) l.
Proof.
  induction l as [|a l IH]; [done|].
  rewrite fmap_cons. cbn [list_find].
  change (decide (Trip.has_id tripId (Trip.toJSON a)))
    with (decide (Trip.has_id tripId a)).
  destruct (decide (Trip.has_id tripId a)); [done|].
  rewrite IH. by destruct (list_find _ l) as [[? ?]|].
Qed.

Lemma filter_toJSON tripId (l : list Trip.t) :
  filter (λ x, Trip.id x ≠ tripId) (Trip.toJSON <$> l)
  = Trip.toJSON <$> filter (λ x, Trip.id x ≠ tripId) l.
Proof.
  induction l as [|a l IH]; [done|].
  rewrite fmap_cons, !filter_cons. simpl.
  destruct (decide (Trip.id a ≠ tripId)); by rewrite IH.
Qed.

(** *** Lists with at most one element of a kind *)

Lemma length_filter_fmap_le {A} (P : A → Prop) `{∀ x, Decision (P x)}
    (f : A → A) (l : list A) :
  (∀ x, P (f x) → P x) →
  (length (filter P (f <$> l)) ≤ length (filter P l))%nat.
Proof.
  intros Himp. induction l as [|a l IH]; [done|].
  rewrite fmap_cons, !filter_cons.
  destruct (decide (P (f a))) as [Hfa|_].
  - rewrite decide_True by (by apply Himp). simpl. lia.
  - destruct (decide (P a)); simpl; lia.
Qed.

Lemma length_filter_filter_le {A} (P Q : A → Prop) `{∀ x, Decision (P x)}
    `{∀ x, Decision (Q x)} (l : list A) :
  (length (filter P (filter Q l)) ≤ length (filter P l))%nat.
Proof.
  induction l as [|a l IH]; [done|].
  rewrite !filter_cons.
  destruct (decide (Q a)); rewrite ?filter_cons;
    destruct (decide (P a)); simpl; lia.
Qed.

Lemma the_only_one {A} (P : A → Prop) `{∀ x, Decision (P x)} (l : list A) :
  (length (filter P l) ≤ 1)%nat →
  ∀ j k a z, l !! j = Some a → P a → l !! k = Some z → P z → j = k.
Proof.
  induction l as [|b l IH]; intros Hlen j k a z Hj Ha Hk Hz; [done|].
  rewrite filter_cons in Hlen.
  destruct (decide (P b)) as [Hb|Hb]; simpl in Hlen.
  - assert (Hnil : filter P l = []).
    { destruct (filter P l); [done|simpl in Hlen; lia]. }
    destruct j as [|j], k as [|k]; try done; simpl in *.
    + exfalso. eapply (filter_nil_not_elem_of P l z); try done.
      by eapply list_elem_of_lookup_2.
    + exfalso. eapply (filter_nil_not_elem_of P l a); try done.
      by eapply list_elem_of_lookup_2.
    + exfalso. eapply (filter_nil_not_elem_of P l a); try done.
      by eapply list_elem_of_lookup_2.
  - destruct j as [|j], k as [|k]; simpl in *.
    + done.
    + by injection Hj as ->.
    + by injection Hk as ->.
    + f_equal. by eapply IH.
Qed.

Lemma NoDup_fmap_filter {A B} (f : A → B) (P : A → Prop)
    `{∀ x, Decision (P x)} (l : list A) :
  NoDup (f <$> l) → NoDup (f <$> filter P l).
Proof.
  induction l as [|a l IH]; [done|].
  rewrite fmap_cons, filter_cons. intros [Hnotin Hnd]%list.NoDup_cons.
  destruct (decide (P a)); [|by apply IH].
  rewrite fmap_cons. apply list.NoDup_cons. split; [|by apply IH].
  intros (y & Hy & [_ Hin]%list_elem_of_filter)%list_elem_of_fmap.
  apply Hnotin. rewrite Hy. by apply list_elem_of_fmap_2.
Qed.

(** With distinct ids, patching every trip that bears [tripId] is the
    assignment to one index that the storage service makes. *)
Lemma patch_as_insert tripId u now (l : list Trip.t) i x :
  NoDup (Trip.id <$> l) →
  l !! i = Some x → Trip.has_id tripId x →
  patch tripId u now <$> l = <[i := merge x u now]> l.
Proof.
  intros Hnd Hi Hx. apply list_eq. intros k.
  rewrite list_lookup_fmap.
  destruct (decide (k = i)) as [->|Hne].
  - rewrite list_lookup_insert_eq by (by eapply lookup_lt_Some).
    rewrite Hi. simpl. unfold patch. by rewrite decide_True.
  - rewrite list_lookup_insert_ne by done.
    destruct (l !! k) as [z|] eqn:Hk; [|done]. simpl. f_equal.
    unfold patch. destruct (decide (Trip.has_id tripId z)) as [Hz|]; [|done].
    destruct Hne. eapply (NoDup_lookup _ _ _ _ Hnd);
      rewrite list_lookup_fmap; [by rewrite Hk|].
    rewrite Hi. simpl. unfold Trip.has_id in *. congruence.
Qed.

(** *** Every reachable state is consistent *)

Lemma mount_consistent available accepts :
  consistent (mount {| StorageService.available := available;
                       StorageService.accepts := accepts;
                       StorageService.trips_item := None |}).
Proof.
  assert (Hnil : StorageService.getTrips
                   {| StorageService.available := available;
                      StorageService.accepts := accepts;
                      StorageService.trips_item := None |} = []).
  { unfold StorageService.getTrips. simpl. by destruct available. }
  unfold mount, loadTrips. simpl. rewrite Hnil.
  split; simpl; [unfold active_count; simpl; lia| |done|apply NoDup_nil_2].
  intros x Hx. by apply elem_of_nil in Hx.
Qed.

(** A change of [loading] and [error] alone does not matter. *)
Lemma consistent_same w w' :
  trips w' = trips w → activeTrip w' = activeTrip w → storage w' = storage w →
  consistent w → consistent w'.
Proof.
  intros Ht Ha Hs [H1 H2 H3 H4].
  split; rewrite ?Ht, ?Ha, ?Hs; done.
Qed.

Lemma no_active_without_activeTrip w :
  consistent w → activeTrip w = None →
  filter (TripsRoute.has_status active) (trips w) = [].
Proof.
  intros Hc Hnone. apply filter_none. intros x Hx Hact.
  destruct (active_known w Hc x Hx Hact) as (a & Ha & _). congruence.
Qed.

Lemma createTrip_consistent w tripData tripId now :
  fresh w (CreateTrip tripData tripId now) →
  consistent w → consistent (fst (createTrip w tripData tripId now)).
Proof.
  intros Hfresh Hc. unfold createTrip.
  destruct (activeTrip w) as [a|] eqn:Ha.
  { simpl. by apply (consistent_same w). }
  unfold StorageService.addTrip, StorageService.saveTrips.
  destruct (StorageService.available (storage w)) eqn:Hav; simpl.
  2: { by apply (consistent_same w). }
  destruct (StorageService.accepts (storage w) _) eqn:Hacc; simpl.
  2: { by apply (consistent_same w). }
  pose proof (no_active_without_activeTrip w Hc Ha) as Hnone.
  split; simpl.
  - unfold active_count. rewrite list.filter_app, Hnone. simpl. lia.
  - intros x [Hx|Hx]%elem_of_app Hact.
    + exfalso. by eapply (filter_nil_not_elem_of _ _ x Hnone).
    + apply list_elem_of_singleton in Hx as ->. by eexists.
  - unfold StorageService.getTrips at 1. cbn [StorageService.available
      StorageService.trips_item storage default].
    rewrite (stored w Hc), fmap_app, fmap_toJSON_idem. simpl.
    by rewrite fmap_app.
  - rewrite fmap_app. apply list.NoDup_app. split; [apply (distinct_ids w Hc)|].
    split; [|apply NoDup_singleton].
    intros i (x & -> & Hx)%list_elem_of_fmap Hi.
    apply list_elem_of_singleton in Hi. simpl in Hi. by apply (Hfresh x).
Qed.

Lemma storage_updateTrip_spec ls tripId u now (l : list Trip.t) :
  StorageService.getTrips ls = Trip.toJSON <$> l →
  NoDup (Trip.id <$> l) →
  match list_find (Trip.has_id tripId) l with
  | None => StorageService.updateTrip ls tripId u now = (ls, false)
  | Some _ =>
      let written := Trip.toJSON <$> (patch tripId u now <$> l) in
      if StorageService.accepts ls written
      then ∃ ls', StorageService.updateTrip ls tripId u now = (ls', true)
                  ∧ StorageService.getTrips ls' = written
      else StorageService.updateTrip ls tripId u now = (ls, false)
  end.
Proof.
  intros Hstored Hnd. unfold StorageService.updateTrip.
  rewrite Hstored, find_toJSON.
  destruct (list_find _ l) as [[i x]|] eqn:Hfind; simpl; [|done].
  apply list_find_Some in Hfind as (Hi & Hx & _).
  assert (Hw : Trip.toJSON <$> <[i := merge (Trip.toJSON x) u now]>
                                 (Trip.toJSON <$> l)
               = Trip.toJSON <$> (patch tripId u now <$> l)).
  { rewrite list_fmap_insert, toJSON_merge, fmap_toJSON_idem.
    by rewrite (patch_as_insert _ _ _ _ i x), list_fmap_insert. }
  unfold StorageService.saveTrips. rewrite Hw.
  destruct (StorageService.available ls) eqn:Hav.
  - destruct (StorageService.accepts ls _); [|done].
    eexists. split; [done|]. unfold StorageService.getTrips. done.
  - exfalso. unfold StorageService.getTrips in Hstored. rewrite Hav in Hstored.
    destruct l; [done|discriminate].
Qed.

Lemma updateTrip_result w tripId u now :
  consistent w →
  let r := updateTrip w tripId u now in
  if snd r
  then trips (fst r) = patch tripId u now <$> trips w
       ∧ activeTrip (fst r) = patch tripId u now <$> activeTrip w
       ∧ StorageService.getTrips (storage (fst r))
         = Trip.toJSON <$> trips (fst r)
  else trips (fst r) = trips w ∧ activeTrip (fst r) = activeTrip w
       ∧ storage (fst r) = storage w.
Proof.
  intros Hc. unfold updateTrip.
  pose proof (storage_updateTrip_spec (storage w) tripId u now (trips w)
                (stored w Hc) (distinct_ids w Hc)) as Hspec.
  destruct (list_find _ (trips w)) as [?|].
  - simpl in Hspec. destruct (StorageService.accepts (storage w) _).
    + destruct Hspec as (ls' & -> & Hget). simpl. by rewrite Hget.
    + rewrite Hspec. simpl. done.
  - rewrite Hspec. simpl. done.
Qed.

Lemma patch_id tripId u now x :
  PartialTrip.id u = None → Trip.id (patch tripId u now x) = Trip.id x.
Proof.
  intros Hu. unfold patch. destruct (decide _); [|done]. simpl. by rewrite Hu.
Qed.

Lemma patch_active tripId u now x :
  PartialTrip.status u ≠ Some active →
  Trip.status (patch tripId u now x) = active → Trip.status x = active.
Proof.
  intros Hu. unfold patch. destruct (decide _); [|done]. simpl.
  destruct (PartialTrip.status u) as [s|]; simpl; [|done].
  intros ->. by destruct Hu.
Qed.

Lemma updateTrip_consistent w tripId u now :
  PartialTrip.id u = None → PartialTrip.status u ≠ Some active →
  consistent w → consistent (fst (updateTrip w tripId u now)).
Proof.
  intros Hid Hst Hc.
  pose proof (updateTrip_result w tripId u now Hc) as Hr. simpl in Hr.
  destruct (snd (updateTrip w tripId u now)).
  2: { destruct Hr as (Ht & Ha & Hs). by apply (consistent_same w). }
  destruct Hr as (Ht & Ha & Hs). split.
  - rewrite Ht. unfold active_count.
    etrans; [|exact (one_active w Hc)].
    apply length_filter_fmap_le. intros x. by apply patch_active.
  - rewrite Ht, Ha. intros z (x & -> & Hx)%list_elem_of_fmap Hact.
    destruct (active_known w Hc x Hx (patch_active _ _ _ _ Hst Hact))
      as (a & -> & Haid).
    eexists. split; [done|]. by rewrite !patch_id.
  - done.
  - rewrite Ht, <- list_fmap_compose.
    rewrite (list_fmap_ext _ Trip.id); [apply (distinct_ids w Hc)|].
    intros i x _. by apply patch_id.
Qed.

(** [completeTrip] and [cancelTrip] after their [updateTrip]: the trip is
    closed and, when it was the active one, the hook forgets it. *)
Lemma closing_consistent w tripId u now s :
  PartialTrip.id u = None → PartialTrip.status u = Some s → s ≠ active →
  consistent w →
  consistent (if snd (updateTrip w tripId u now)
              then clear_active w (fst (updateTrip w tripId u now)) tripId
              else fst (updateTrip w tripId u now)).
Proof.
  intros Hid Hs Hne Hc.
  assert (Hst : PartialTrip.status u ≠ Some active) by congruence.
  pose proof (updateTrip_consistent w tripId u now Hid Hst Hc) as Hc'.
  pose proof (updateTrip_result w tripId u now Hc) as Hr. simpl in Hr.
  destruct (snd (updateTrip w tripId u now)); [|done].
  destruct Hr as (Ht & Ha & Hsto).
  unfold clear_active. destruct (activeTrip w) as [a|] eqn:Hact; [|done].
  destruct (decide (Trip.has_id tripId a)) as [Haid|]; [|done].
  destruct Hc' as [H1 H2 H3 H4]. split; simpl; try done.
  intros z Hz Hzact. exfalso.
  destruct (H2 z Hz Hzact) as (a' & Ha' & Hid').
  rewrite Ha in Ha'. simpl in Ha'. injection Ha' as <-.
  rewrite patch_id in Hid' by done.
  rewrite Ht in Hz. apply list_elem_of_fmap in Hz as (x & -> & Hx).
  rewrite patch_id in Hid' by done.
  unfold patch in Hzact. rewrite decide_True in Hzact.
  - simpl in Hzact. rewrite Hs in Hzact. simpl in Hzact. congruence.
  - unfold Trip.has_id in *. congruence.
Qed.

Lemma deleteTrip_consistent w tripId :
  consistent w → consistent (fst (deleteTrip w tripId)).
Proof.
  intros Hc. unfold deleteTrip, StorageService.deleteTrip,
    StorageService.saveTrips.
  destruct (StorageService.available (storage w)) eqn:Hav; simpl.
  2: { by apply (consistent_same w). }
  destruct (StorageService.accepts (storage w) _) eqn:Hacc; simpl.
  2: { by apply (consistent_same w). }
  set (kept := filter (λ x, Trip.id x ≠ tripId) (trips w)).
  assert (Hbase : ∀ a', (∀ z, z ∈ kept → Trip.status z = active →
                              ∃ a, a' = Some a ∧ Trip.id a = Trip.id z) →
    consistent {| trips := kept; activeTrip := a'; loading := false;
                  error := None;
                  storage :=
                    {| StorageService.available := true;
                       StorageService.accepts :=
                         StorageService.accepts (storage w);
                       StorageService.trips_item :=
                         Some (Trip.toJSON <$>
                                 filter (λ x, Trip.id x ≠ tripId)
                                   (StorageService.getTrips (storage w))) |} |}).
  { intros a' Hknown. split; simpl.
    - etrans; [|exact (one_active w Hc)]. apply length_filter_filter_le.
    - done.
    - unfold StorageService.getTrips at 1. cbn [StorageService.available
        StorageService.trips_item storage default].
      by rewrite (stored w Hc), filter_toJSON, fmap_toJSON_idem.
    - apply NoDup_fmap_filter, (distinct_ids w Hc). }
  unfold clear_active. simpl.
  destruct (activeTrip w) as [a|] eqn:Hact.
  - destruct (decide (Trip.has_id tripId a)) as [Haid|].
    + apply (Hbase None). intros z [Hne Hz]%list_elem_of_filter Hzact.
      destruct (active_known w Hc z Hz Hzact) as (a0 & Ha0 & Hid0).
      rewrite Hact in Ha0. injection Ha0 as <-.
      unfold Trip.has_id in Haid. congruence.
    + apply (Hbase (Some a)). intros z [Hne Hz]%list_elem_of_filter Hzact.
      rewrite <- Hact. by apply (active_known w Hc).
  - apply (Hbase None). intros z [Hne Hz]%list_elem_of_filter Hzact.
    rewrite <- Hact. by apply (active_known w Hc).
Qed.

Lemma loadTrips_consistent w : consistent w → consistent (loadTrips w).
Proof.
  intros Hc. unfold loadTrips. rewrite (stored w Hc).
  assert (Hone : (active_count (Trip.toJSON <$> trips w) ≤ 1)%nat).
  { etrans; [|exact (one_active w Hc)]. by apply length_filter_fmap_le. }
  split; simpl.
  - done.
  - intros z [k Hk]%list_elem_of_lookup Hzact.
    destruct (list_find (TripsRoute.has_status active) (Trip.toJSON <$> trips w))
      as [[j a]|] eqn:Hfind.
    + apply list_find_Some in Hfind as (Hj & Ha & _).
      assert (j = k) as -> by (by eapply (the_only_one _ _ Hone)).
      rewrite Hj in Hk. injection Hk as ->. by eexists.
    + apply list_find_None in Hfind.
      exfalso. eapply (proj1 (list.Forall_forall _ _) Hfind z); [|done].
      by eapply list_elem_of_lookup_2.
  - by rewrite (stored w Hc), fmap_toJSON_idem.
  - rewrite <- list_fmap_compose. apply (distinct_ids w Hc).
Qed.

Lemma completeTrip_consistent w tripId destination rating now :
  consistent w →
  consistent (fst (completeTrip w tripId destination rating now)).
Proof.
  intros Hc. unfold completeTrip.
  destruct (list_find _ _) as [[i trip]|].
  2: { simpl. by apply (consistent_same w). }
  destruct (JS.getTime _) as [start|]; [|done].
  set (u := completion _ _ _ _).
  pose proof (closing_consistent w tripId u now completed
                eq_refl eq_refl ltac:(done) Hc) as Hcl.
  by destruct (updateTrip w tripId u now) as [w' []].
Qed.

Lemma cancelTrip_consistent w tripId now :
  consistent w → consistent (fst (cancelTrip w tripId now)).
Proof.
  intros Hc. unfold cancelTrip.
  pose proof (closing_consistent w tripId (cancellation now) now cancelled
                eq_refl eq_refl ltac:(done) Hc) as Hcl.
  by destruct (updateTrip w tripId (cancellation now) now) as [w' []].
Qed.

Lemma step_consistent w c : fresh w c → consistent w → consistent (step w c).
Proof.
  intros Hfresh Hc. destruct c; simpl.
  - by apply createTrip_consistent.
  - by apply updateTrip_consistent.
  - by apply completeTrip_consistent.
  - by apply cancelTrip_consistent.
  - by apply deleteTrip_consistent.
  - by apply loadTrips_consistent.
Qed.

Lemma reachable_consistent w : reachable w → consistent w.
Proof.
  induction 1 as [available|w c _ IH Hfresh].
  - apply mount_consistent.
  - by apply step_consistent.
Qed.

(** *** Dates after a reload *)

(** Whatever the hook has just read from storage bears strings for dates:
    [completeTrip] cannot complete any of it. *)
Lemma loaded_trips_have_string_dates w x :
  consistent w → x ∈ trips (loadTrips w) →
  JS.getTime (Trip.startTime x) = None.
Proof.
  intros Hc. unfold loadTrips. simpl. rewrite (stored w Hc).
  by intros (y & -> & _)%list_elem_of_fmap.
Qed.

Lemma completeTrip_on_string w tripId destination rating now i trip :
  list_find (Trip.has_id tripId) (trips w) = Some (i, trip) →
  JS.getTime (Trip.startTime trip) = None →
  completeTrip w tripId destination rating now
  = (w, Thrown "TypeError: trip.startTime.getTime is not a function").
Proof. intros Hfind Hstart. unfold completeTrip. by rewrite Hfind, Hstart. Qed.

End UseTripsFacts.

(** ** The trip lifecycle: route handlers and hook together *)

Section Lifecycle.

(** C1, as amended.  While the caller has an active trip, a [POST] is
    refused with status 400 ("Cannot create new trip: active trip already
    exists" once the required fields are present) and the hook's
    [createTrip] is refused as well; neither changes a trip.  No owner ever
    has more than one active trip after any run of [POST], [DELETE] and
    those [PUT]s whose payload neither sets [status] to active nor names a
    [primaryTraveler], nor after any sequence of calls on the hook (started
    on an empty store, every new trip getting an id of its own). *)
Theorem at_most_one_active_trip :
  (∀ st body tripId now,
     (∃ x, x ∈ TripsRoute.trips st ∧ TripsRoute.active_of "current_user" x) →
     ∃ error,
       TripsRoute.POST st body tripId now = (st, Failure 400 error)
       ∧ (is_Some (PostBody.origin body) → is_Some (PostBody.mode body) →
          is_Some (PostBody.purpose body) →
          error = "Cannot create new trip: active trip already exists"))
  ∧ (∀ rs owner,
       Forall TripsRoute.tame rs →
       (TripsRoute.active_trips owner
          (TripsRoute.trips (fst (TripsRoute.run TripsRoute.initial rs))) ≤ 1)%nat)
  ∧ (∀ w tripData tripId now,
       UseTrips.reachable w →
       (∃ x, x ∈ UseTrips.trips w ∧ Trip.status x = active) →
       ∃ w', UseTrips.createTrip w tripData tripId now = (w', None)
             ∧ UseTrips.trips w' = UseTrips.trips w
             ∧ UseTrips.storage w' = UseTrips.storage w
             ∧ is_Some (UseTrips.error w'))
  ∧ (∀ w, UseTrips.reachable w →
          (UseTrips.active_count (UseTrips.trips w) ≤ 1)%nat).
Proof.
  split; [|split; [|split]].
  - intros. by apply POST_blocked.
  - intros rs owner Htame.
    apply (run_keeps_at_most_one rs TripsRoute.initial Htame).
    intros o. unfold TripsRoute.active_trips. simpl. lia.
  - intros w tripData tripId now Hr (x & Hx & Hact).
    destruct (UseTrips.active_known w (reachable_consistent w Hr) x Hx Hact)
      as (a & Ha & _).
    eexists. rewrite (createTrip_blocked _ _ _ _ a Ha).
    split; [done|]. by repeat split.
  - intros w Hr. apply (UseTrips.one_active w (reachable_consistent w Hr)).
Qed.

Lemma at_most_one_active_trip_witness :
  (∃ error,
     TripsRoute.POST Sample.one_trip Sample.body "trip_2" 5
     = (Sample.one_trip, Failure 400 error)
     ∧ error = "Cannot create new trip: active trip already exists")
  ∧ (TripsRoute.active_trips "current_user"
       (TripsRoute.trips
          (fst (TripsRoute.run TripsRoute.initial Sample.two_trips))) ≤ 1)%nat
  ∧ (∃ w', UseTrips.createTrip Sample.started Sample.form "trip_2" 5 = (w', None)
           ∧ UseTrips.trips w' = UseTrips.trips Sample.started)
  ∧ (UseTrips.active_count (UseTrips.trips Sample.reloaded) ≤ 1)%nat.
Proof.
  destruct at_most_one_active_trip as (Hpost & Hrun & Hcreate & Hhook).
  assert (Hstarted : UseTrips.reachable Sample.started).
  { apply UseTrips.reach_step; [apply UseTrips.reach_mount|].
    intros x Hx. vm_compute in Hx. by apply elem_of_nil in Hx. }
  split; [|split; [|split]].
  - destruct (Hpost Sample.one_trip Sample.body "trip_2" 5)
      as (error & Heq & Herr).
    + eexists. split; [apply list_elem_of_here|]. vm_compute. done.
    + exists error. split; [done|]. apply Herr; by eexists.
  - apply Hrun. unfold Sample.two_trips.
    repeat (apply list.Forall_cons; split); try exact I; try apply Forall_nil_2.
    simpl. split; [discriminate|reflexivity].
  - destruct (Hcreate Sample.started Sample.form "trip_2" 5 Hstarted)
      as (w' & Heq & Ht & _).
    + eexists. split; [apply list_elem_of_here|]. reflexivity.
    + by exists w'.
  - apply Hhook. by apply UseTrips.reach_step.
Defined.

(** Against C1 as stated: after the run [Sample.reactivation] of the route
    handlers, two trips of the same owner are active. *)
Lemma two_active_trips_after_reactivation :
  TripsRoute.active_trips "current_user"
    (TripsRoute.trips
       (fst (TripsRoute.run TripsRoute.initial Sample.reactivation)))
  = 2%nat.
Proof. vm_compute. reflexivity. Qed.

(** *** Trip numbers *)

Lemma createTrip_number w tripData tripId now w' r :
  UseTrips.createTrip w tripData tripId now = (w', Some r) →
  ∃ y, UseTrips.activeTrip w' = Some y
       ∧ UseTrips.trips w' = UseTrips.trips w ++ [y]
       ∧ Spec.is_next (UseTrips.trips w) (Trip.tripNumber y).
Proof.
  intros (_ & _ & Ht & Ha)%createTrip_success.
  eexists. split; [done|]. split; [done|]. apply generateTripNumber_is_next.
Qed.

(** C2, as amended.  The [POST] handler hands out 1, 2, 3, ... in this
    order, whatever is deleted or updated in between: the numbers of a run
    are strictly increasing and never repeat.  The hook's [createTrip]
    gives a number above that of every trip now in the collection, and 1
    on an empty collection. *)
Theorem trip_numbers_assigned :
  (∀ rs,
     let ns := TripsRoute.assigned (snd (TripsRoute.run TripsRoute.initial rs)) in
     ns = seqZ 1 (Z.of_nat (length ns)))
  ∧ (∀ rs i j m n,
       let ns := TripsRoute.assigned (snd (TripsRoute.run TripsRoute.initial rs)) in
       ns !! i = Some m → ns !! j = Some n →
       m = Z.of_nat i + 1 ∧ ((i < j)%nat → m < n))
  ∧ (∀ w tripData tripId now w' r,
       UseTrips.createTrip w tripData tripId now = (w', Some r) →
       ∃ y, UseTrips.activeTrip w' = Some y
            ∧ UseTrips.trips w' = UseTrips.trips w ++ [y]
            ∧ (UseTrips.trips w = [] → Trip.tripNumber y = 1)
            ∧ ∀ x, x ∈ UseTrips.trips w → Trip.tripNumber x < Trip.tripNumber y).
Proof.
  split; [|split].
  - intros rs. exact (proj1 (run_assigned rs TripsRoute.initial)).
  - intros rs i j m n ns Hi Hj.
    pose proof (proj1 (run_assigned rs TripsRoute.initial)) as Hseq.
    fold ns in Hseq. rewrite Hseq in Hi, Hj. simpl in Hi, Hj.
    apply lookup_seqZ in Hi as [-> _], Hj as [-> _]. lia.
  - intros w tripData tripId now w' r Hc.
    destruct (createTrip_number _ _ _ _ _ _ Hc) as (y & Ha & Ht & Hnext).
    exists y. split; [done|]. split; [done|].
    destruct Hnext as [[Hnil ->]|(m & Hm & -> & Hmax)].
    + split; [done|]. rewrite Hnil. intros x Hx. by apply elem_of_nil in Hx.
    + split; [intros Hnil; rewrite Hnil in Hm; by apply elem_of_nil in Hm|].
      intros x Hx. specialize (Hmax x Hx). lia.
Qed.

Lemma trip_numbers_assigned_witness :
  (∃ m n, TripsRoute.assigned
            (snd (TripsRoute.run TripsRoute.initial Sample.two_trips)) !! 0%nat
          = Some m
          ∧ TripsRoute.assigned
              (snd (TripsRoute.run TripsRoute.initial Sample.two_trips)) !! 1%nat
            = Some n
          ∧ m = 1 ∧ m < n)
  ∧ ∃ y, UseTrips.activeTrip Sample.started = Some y ∧ Trip.tripNumber y = 1.
Proof.
  destruct trip_numbers_assigned as (_ & Hroute & Hhook). split.
  - exists 1, 2.
    destruct (Hroute Sample.two_trips 0%nat 1%nat 1 2) as [Hm Hlt];
      [vm_compute; reflexivity..|].
    split; [vm_compute; reflexivity|]. split; [vm_compute; reflexivity|].
    split; [exact Hm|apply Hlt; lia].
  - destruct (Hhook (UseTrips.mount Sample.fresh_storage) Sample.form "trip_1" 0
                Sample.started "trip_1")
      as (y & Ha & _ & Hone & _); [vm_compute; reflexivity|].
    exists y. split; [exact Ha|]. apply Hone. reflexivity.
Defined.

(** Against C2 as stated: on the hook the only trip, number 1, is deleted,
    and the next trip is number 1 again. *)
Lemma hook_reuses_number_of_deleted_trip :
  Trip.tripNumber <$> UseTrips.trips Sample.started = [1]
  ∧ UseTrips.trips Sample.deleted = []
  ∧ Trip.tripNumber <$> UseTrips.trips Sample.restarted = [1]
  ∧ Trip.id <$> UseTrips.trips Sample.restarted = ["trip_2"].
Proof. vm_compute. done. Qed.

(** C3, as amended.  The hook's [createTrip] assigns the maximum of the
    existing trip numbers plus one, or 1 when there is no trip.  The [POST]
    handler assigns the value of its counter, which is that same number as
    long as no trip has been deleted and no update has overwritten a trip
    number. *)
Theorem trip_number_is_max_plus_one :
  (∀ w tripData tripId now w' r,
     UseTrips.createTrip w tripData tripId now = (w', Some r) →
     ∃ y, UseTrips.activeTrip w' = Some y
          ∧ UseTrips.trips w' = UseTrips.trips w ++ [y]
          ∧ Spec.is_next (UseTrips.trips w) (Trip.tripNumber y))
  ∧ (∀ rs body tripId now st' code y,
       Forall TripsRoute.keeps_numbers rs →
       let st := fst (TripsRoute.run TripsRoute.initial rs) in
       TripsRoute.POST st body tripId now = (st', Success code y) →
       Spec.is_next (TripsRoute.trips st) (Trip.tripNumber y)).
Proof.
  split.
  - apply createTrip_number.
  - intros rs body tripId now st' code y Hrs st Hpost.
    apply POST_number in Hpost as (-> & _).
    apply (run_keeps_numbered rs TripsRoute.initial Hrs). by left.
Qed.

Lemma trip_number_is_max_plus_one_witness :
  (∃ y, UseTrips.activeTrip Sample.started = Some y
        ∧ Spec.is_next [] (Trip.tripNumber y))
  ∧ ∃ st' y,
      let st :=
        fst (TripsRoute.run TripsRoute.initial
               [TripsRoute.Post Sample.body "trip_1" 0;
                TripsRoute.Put
                  (Sample.put "trip_1" Sample.complete_at_office) 100]) in
      TripsRoute.POST st Sample.body "trip_2" 200 = (st', Success 201 y)
      ∧ Spec.is_next (TripsRoute.trips st) (Trip.tripNumber y).
Proof.
  destruct trip_number_is_max_plus_one as [Hhook Hroute]. split.
  - destruct (Hhook (UseTrips.mount Sample.fresh_storage) Sample.form "trip_1" 0
                Sample.started "trip_1")
      as (y & Ha & _ & Hnext); [vm_compute; reflexivity|].
    exists y. split; [exact Ha|exact Hnext].
  - eexists _, _. split; [vm_compute; reflexivity|].
    eapply (Hroute
      [TripsRoute.Post Sample.body "trip_1" 0;
       TripsRoute.Put (Sample.put "trip_1" Sample.complete_at_office) 100]
      Sample.body "trip_2" 200).
    + repeat (apply list.Forall_cons; split); try exact I;
        try apply Forall_nil_2.
      reflexivity.
    + vm_compute. reflexivity.
Defined.

(** Against C3 as stated: the route handlers' only trip is deleted; the
    next [POST] finds no trip and assigns 2, not 1. *)
Lemma POST_after_delete_assigns_2 :
  let st := fst (TripsRoute.run TripsRoute.initial Sample.create_delete) in
  TripsRoute.trips st = []
  ∧ ∃ y, snd (TripsRoute.POST st Sample.body "trip_2" 10) = Success 201 y
         ∧ Trip.tripNumber y = 2
         ∧ ¬ Spec.is_next (TripsRoute.trips st) (Trip.tripNumber y).
Proof.
  split; [vm_compute; reflexivity|].
  eexists. split; [vm_compute; reflexivity|]. split; [reflexivity|].
  intros [[_ H]|(x & Hx & _)]; [discriminate H|].
  vm_compute in Hx. by apply elem_of_nil in Hx.
Qed.

(** *** The traveler count *)

Lemma updateTrip_trips w tripId u now :
  UseTrips.trips (fst (UseTrips.updateTrip w tripId u now)) = UseTrips.trips w
  ∨ UseTrips.trips (fst (UseTrips.updateTrip w tripId u now))
    = UseTrips.patch tripId u now <$> UseTrips.trips w.
Proof.
  unfold UseTrips.updateTrip.
  destruct (StorageService.updateTrip _ _ _ _) as [ls []]; simpl; auto.
Qed.

Lemma patch_form_counted tripId f now x :
  Spec.travelers_counted x →
  Spec.travelers_counted
    (UseTrips.patch tripId (TripUpdateForm.to_partial f) now x).
Proof. unfold UseTrips.patch. by destruct (decide _). Qed.

(** C5, as amended.  The trip that [createTrip] returns has
    [totalTravelers = 1 + |accompanyingTravelers|], in the route handler
    and in the hook.  An update recomputes nothing: the stored record takes
    [accompanyingTravelers] and [totalTravelers] each from the payload when
    the payload has the key and keeps its own value otherwise.  The
    equality therefore survives the updates that name neither key, as do
    all updates the hook's [TripUpdateForm] admits. *)
Theorem totalTravelers_set_on_create_kept_by_update :
  (∀ st body tripId now st' code y,
     TripsRoute.POST st body tripId now = (st', Success code y) →
     Spec.travelers_counted y)
  ∧ (∀ w tripData tripId now w' r,
       UseTrips.createTrip w tripData tripId now = (w', Some r) →
       ∃ y, UseTrips.activeTrip w' = Some y
            ∧ UseTrips.trips w' = UseTrips.trips w ++ [y]
            ∧ Spec.travelers_counted y)
  ∧ (∀ st tripId u now tripIndex x,
       JS.truthy tripId →
       list_find (Trip.has_id tripId) (TripsRoute.trips st)
       = Some (tripIndex, x) →
       ∃ y,
         TripsRoute.PUT st
           {| PutBody.tripId := Some tripId; PutBody.updates := Some u |} now
         = (TripsRoute.with_trips st (<[tripIndex := y]> (TripsRoute.trips st)),
            Success 200 y)
         ∧ Trip.accompanyingTravelers y
           = default (Trip.accompanyingTravelers x)
                     (PartialTrip.accompanyingTravelers u)
         ∧ Trip.totalTravelers y
           = default (Trip.totalTravelers x) (PartialTrip.totalTravelers u)
         ∧ (PartialTrip.accompanyingTravelers u = None →
            PartialTrip.totalTravelers u = None →
            Spec.travelers_counted x → Spec.travelers_counted y))
  ∧ (∀ w tripId f now,
       Forall Spec.travelers_counted (UseTrips.trips w) →
       Forall Spec.travelers_counted
         (UseTrips.trips
            (fst (UseTrips.updateTrip w tripId
                    (TripUpdateForm.to_partial f) now)))).
Proof.
  split; [|split; [|split]].
  - intros st body tripId now st' code y Hpost.
    by apply POST_number in Hpost as (_ & Hcount & _).
  - intros w tripData tripId now w' r (_ & _ & Ht & Ha)%createTrip_success.
    eexists. split; [done|]. split; [done|]. reflexivity.
  - intros st tripId u now i x Hid Hfind.
    exists (TripsRoute.updated x u now).
    rewrite (PUT_found _ _ _ _ _ _ Hid Hfind). split; [done|].
    unfold TripsRoute.updated, Spec.travelers_counted.
    destruct (decide (TripsRoute.completing u)); simpl;
      (split; [done|]; split; [done|]; by intros -> ->).
  - intros w tripId f now Hall.
    destruct (updateTrip_trips w tripId (TripUpdateForm.to_partial f) now)
      as [->| ->]; [done|].
    apply Forall_fmap. eapply list.Forall_impl; [exact Hall|].
    intros x Hx. by apply patch_form_counted.
Qed.

Lemma totalTravelers_witness :
  (∀ y, TripsRoute.trips Sample.one_trip !! 0%nat = Some y →
        Spec.travelers_counted y)
  ∧ (∃ y, UseTrips.activeTrip Sample.started = Some y
          ∧ Spec.travelers_counted y)
  ∧ (∃ y, snd (TripsRoute.PUT Sample.one_trip
                 (Sample.put "trip_1" Sample.only_destination) 100)
          = Success 200 y
          ∧ Spec.travelers_counted y)
  ∧ Forall Spec.travelers_counted
      (UseTrips.trips
         (fst (UseTrips.updateTrip Sample.started "trip_1"
                 (TripUpdateForm.to_partial
                    (TripUpdateForm.mk None None None None (Some (Some 4)) None))
                 50))).
Proof.
  destruct totalTravelers_set_on_create_kept_by_update
    as (Hpost & Hcreate & Hput & Hhook).
  split; [|split; [|split]].
  - intros y Hy.
    apply (Hpost TripsRoute.initial Sample.body "trip_1" 0 Sample.one_trip 201).
    vm_compute in Hy. injection Hy as <-. vm_compute. reflexivity.
  - destruct (Hcreate (UseTrips.mount Sample.fresh_storage) Sample.form "trip_1"
                0 Sample.started "trip_1") as (y & Ha & _ & Hcount);
      [vm_compute; reflexivity|].
    by exists y.
  - destruct (Hput Sample.one_trip "trip_1" Sample.only_destination 100 0%nat
                (TripsRoute.newTrip 1 Sample.home car work Sample.body "trip_1" 0))
      as (y & Heq & _ & _ & Hkeep).
    + truthy_literal.
    + vm_compute. reflexivity.
    + exists y. unfold Sample.put. rewrite Heq. split; [reflexivity|].
      apply Hkeep; reflexivity.
  - apply Hhook. vm_compute.
    apply list.Forall_cons. split; [reflexivity|apply Forall_nil_2].
Defined.

(** Against C5 as stated: a [PUT] replaces the empty traveler list of a
    trip by two travelers, and [totalTravelers] stays 1. *)
Lemma PUT_travelers_leaves_total_stale :
  ∃ x y,
    list_find (Trip.has_id "trip_1") (TripsRoute.trips Sample.one_trip)
    = Some (0%nat, x)
    ∧ snd (TripsRoute.PUT Sample.one_trip
             (Sample.put "trip_1" (Sample.only_travelers ["t1"; "t2"])) 100)
      = Success 200 y
    ∧ Trip.accompanyingTravelers x = []
    ∧ Trip.accompanyingTravelers y = ["t1"; "t2"]
    ∧ Trip.totalTravelers y = 1
    ∧ ¬ Spec.travelers_counted y.
Proof.
  eexists _, _. split; [vm_compute; reflexivity|].
  split; [vm_compute; reflexivity|].
  repeat split. unfold Spec.travelers_counted. simpl. discriminate.
Qed.

(** *** Completion on the hook *)

(** C8 fails on the hook: a trip read back from storage has an ISO string
    for [startTime], and [completeTrip] ends with a [TypeError] before it
    reaches [updateTrip]; the trip stays active and nothing is stored.  The
    composition of the specification completes the same trip with a
    duration of 8 minutes. *)
Theorem completeTrip_throws_on_stored_trip :
  (∃ x, list_find (Trip.has_id "trip_1") (UseTrips.trips Sample.reloaded)
        = Some (0%nat, x)
        ∧ Trip.status x = active ∧ Trip.startTime x = JS.DateIso 0)
  ∧ UseTrips.completeTrip Sample.reloaded "trip_1" Sample.office None 450000
    = (Sample.reloaded,
       Thrown "TypeError: trip.startTime.getTime is not a function")
  ∧ ∃ w' y,
      SpecOps.completeTrip Sample.reloaded "trip_1" Sample.office None 450000
      = (w', true)
      ∧ UseTrips.trips w' = [y]
      ∧ Trip.status y = completed ∧ Trip.duration y = Some 8.
Proof.
  split; [eexists; vm_compute; done|].
  split; [vm_compute; reflexivity|].
  eexists _, _. split; [vm_compute; reflexivity|]. done.
Qed.

(** *** The average duration *)

(** C9. Neither computation of [avgDuration] divides by zero: the route
    handler divides by [Math.max(count, 1)], the hook divides only when
    there is a completed trip with a duration, and both results are
    numbers.  Without a trip that has a duration the route handler's
    average is 0; without a completed trip that has a duration the hook's
    average is 0. *)
Theorem avgDuration_guarded :
  (∀ st userId,
     1 ≤ TripsRoute.avg_divisor
           (filter (TripsRoute.owned_by userId) (TripsRoute.trips st))
     ∧ ∃ v, TripsRoute.avgDuration (TripsRoute.stats st userId) = JS.Num v)
  ∧ (∀ st userId,
       (∀ x, x ∈ TripsRoute.trips st → TripsRoute.owned_by userId x →
             ¬ TripsRoute.has_duration x) →
       TripsRoute.avgDuration (TripsRoute.stats st userId) = JS.Num 0)
  ∧ (∀ l, ∃ v, UseTrips.avgDuration l = JS.Num v)
  ∧ (∀ l,
       (∀ x, x ∈ l → Trip.status x = completed → ¬ TripsRoute.has_duration x) →
       UseTrips.avgDuration l = JS.Num 0).
Proof.
  split; [|split; [|split]].
  - apply avgDuration_is_a_number.
  - apply avgDuration_without_durations.
  - apply hook_avgDuration_is_a_number.
  - apply hook_avgDuration_without_durations.
Qed.

Lemma avgDuration_guarded_witness :
  TripsRoute.avgDuration (TripsRoute.stats Sample.one_trip "current_user")
  = JS.Num 0
  ∧ UseTrips.avgDuration (UseTrips.trips Sample.started) = JS.Num 0.
Proof.
  destruct avgDuration_guarded as (_ & Hroute & _ & Hhook). split.
  - apply Hroute. intros x Hx _. vm_compute in Hx.
    apply list_elem_of_singleton in Hx as ->. intros H. exact H.
  - apply Hhook. intros x Hx. vm_compute in Hx.
    apply list_elem_of_singleton in Hx as ->. discriminate.
Defined.

End Lifecycle.

(** ** Arrays: [slice], [sort] and tallies *)

Section ArrayFacts.

Context {A : Type} (key : A → Z).

Lemma insert_desc_perm x l : JS.insert_desc key x l ≡ₚ x :: l.
Proof.
  induction l as [|y l IH]; simpl; [done|].
  destruct (decide (key x < key y)); [|done].
  rewrite IH. apply Permutation_swap.
Qed.

Lemma sort_desc_perm l : JS.sort_desc key l ≡ₚ l.
Proof.
  induction l as [|x l IH]; simpl; [done|].
  fold (JS.sort_desc key l). by rewrite insert_desc_perm, IH.
Qed.

Lemma sort_desc_elem x l : x ∈ JS.sort_desc key l ↔ x ∈ l.
Proof. by rewrite sort_desc_perm. Qed.

Lemma sort_desc_length l : length (JS.sort_desc key l) = length l.
Proof. by rewrite sort_desc_perm. Qed.

Lemma insert_desc_sorted x l :
  StronglySorted (JS.not_older key) l →
  StronglySorted (JS.not_older key) (JS.insert_desc key x l).
Proof.
  induction 1 as [|y l Hl IH Hy]; simpl.
  { repeat constructor. }
  destruct (decide (key x < key y)) as [Hlt|Hge].
  - constructor; [done|]. rewrite insert_desc_perm.
    constructor; [unfold JS.not_older; lia|done].
  - constructor; [by constructor|].
    constructor; [unfold JS.not_older; lia|].
    eapply list.Forall_impl; [exact Hy|]. unfold JS.not_older. intros z Hz. lia.
Qed.

Lemma sort_desc_sorted l :
  StronglySorted (JS.not_older key) (JS.sort_desc key l).
Proof.
  induction l as [|x l IH]; simpl; [constructor|].
  by apply insert_desc_sorted.
Qed.

Lemma insert_desc_same_key x l k :
  filter (λ y, key y = k) (JS.insert_desc key x l)
  = filter (λ y, key y = k) (x :: l).
Proof.
  induction l as [|y l IH]; simpl; [done|].
  destruct (decide (key x < key y)) as [Hlt|]; [|done].
  rewrite filter_cons, IH, !filter_cons.
  destruct (decide (key y = k)), (decide (key x = k)); try done. lia.
Qed.

(** The sort is stable: the elements of one key keep their order. *)
Lemma sort_desc_stable l k :
  filter (λ y, key y = k) (JS.sort_desc key l) = filter (λ y, key y = k) l.
Proof.
  induction l as [|x l IH]; simpl; [done|].
  fold (JS.sort_desc key l). rewrite insert_desc_same_key, !filter_cons.
  by rewrite IH.
Qed.

End ArrayFacts.

Section SliceFacts.

Context {A : Type}.

Lemma slice_window (l : list A) s e :
  0 ≤ s ≤ e →
  JS.slice l s e = take (Z.to_nat (e - s)) (drop (Z.to_nat s) l).
Proof.
  intros Hse. unfold JS.slice, JS.slice_index.
  rewrite !decide_False by lia.
  set (len := Z.of_nat (length l)).
  destruct (decide (s ≤ len)) as [Hs|Hs].
  - rewrite (Z.min_l s) by lia.
    destruct (decide (e ≤ len)) as [He|He].
    + rewrite Z.min_l by lia. f_equal. lia.
    + rewrite Z.min_r by lia.
      rewrite (take_ge _ (Z.to_nat (e - s)));
        [|rewrite length_drop; unfold len in *; lia].
      apply take_ge. rewrite length_drop. unfold len. lia.
  - rewrite !Z.min_r by lia. rewrite Nat.sub_diag.
    rewrite (drop_ge l (Z.to_nat s)) by (unfold len in *; lia).
    by rewrite take_nil.
Qed.

Lemma slice_from_0 (l : list A) n :
  0 ≤ n → JS.slice l 0 n = take (Z.to_nat n) l.
Proof.
  intros Hn. rewrite slice_window by lia. simpl. f_equal. lia.
Qed.

Lemma tally_from (key : A → string) (l : list A) :
  ∀ (acc : gmap string Z) k,
    foldl (λ acc x, <[key x := default 0 (acc !! key x) + 1]> acc) acc l !! k
    = if decide (length (filter (λ x, key x = k) l) = 0)%nat then acc !! k
      else Some (default 0 (acc !! k)
                 + Z.of_nat (length (filter (λ x, key x = k) l))).
Proof.
  induction l as [|x l IH]; intros acc k; simpl; [done|].
  rewrite IH, filter_cons.
  destruct (decide (key x = k)) as [Hk|Hk].
  - cbn [length]. rewrite Hk, lookup_insert_eq. cbn [default].
    rewrite (decide_False (P := (S _ = 0)%nat)) by lia.
    destruct (decide (_ = 0)%nat) as [->|_]; f_equal; simpl; lia.
  - by rewrite lookup_insert_ne.
Qed.

(** Under a key that occurs the tally holds how often it occurs; a key
    that does not occur is not a key of the tally. *)
Lemma tally_lookup (key : A → string) (l : list A) k :
  JS.tally key l !! k
  = if decide (length (filter (λ x, key x = k) l) = 0)%nat then None
    else Some (Z.of_nat (length (filter (λ x, key x = k) l))).
Proof.
  unfold JS.tally. rewrite tally_from, lookup_empty. simpl.
  destruct (decide _); [done|]. f_equal.
Qed.

End SliceFacts.

(** ** More on the trips route handlers *)

Section TripsRouteMore.

Import TripsRoute.

Lemma selected_elem st userId status x :
  x ∈ selected st userId status
  ↔ x ∈ trips st
    ∧ owned_by (userId_or_default userId) x
    ∧ ∀ s, status = Some s → JS.truthy s → status_is s x.
Proof.
  unfold selected. destruct status as [s|].
  - destruct (decide (JS.truthy s)) as [Hs|Hs].
    + rewrite !list_elem_of_filter. split.
      * intros (Hst & Hown & Hx). repeat split; try done. by intros ? [= <-] _.
      * intros (Hx & Hown & Hst). repeat split; try done. by apply Hst.
    + rewrite list_elem_of_filter. split.
      * intros (Hown & Hx). repeat split; try done. by intros ? [= <-] ?.
      * intros (Hx & Hown & _). by split.
  - rewrite list_elem_of_filter. split.
    + intros (Hown & Hx). by repeat split.
    + intros (Hx & Hown & _). by split.
Qed.

(** X1. [GET] answers with the trips of the user (of "current_user" when
    no user is named) that have the status asked for, the newest first and
    those created at the same instant in their stored order; a positive
    [limit] keeps the first [limit] of them, any other [limit] keeps all. *)
Theorem GET_selects_sorts_and_caps st userId status limit :
  ∃ full,
    full ≡ₚ selected st userId status
    ∧ (∀ x, x ∈ full ↔
            x ∈ trips st
            ∧ owned_by (userId_or_default userId) x
            ∧ ∀ s, status = Some s → JS.truthy s → status_is s x)
    ∧ StronglySorted (JS.not_older created) full
    ∧ (∀ k, filter (λ x, created x = k) full
            = filter (λ x, created x = k) (selected st userId status))
    ∧ GET st userId status limit
      = Success 200
          (match limit with
           | Some n => if decide (0 < n) then take (Z.to_nat n) full else full
           | None => full
           end).
Proof.
  exists (JS.sort_desc created (selected st userId status)).
  split; [apply sort_desc_perm|].
  split; [intros x; by rewrite sort_desc_elem, selected_elem|].
  split; [apply sort_desc_sorted|].
  split; [intros k; apply sort_desc_stable|].
  unfold GET. destruct limit as [n|]; [|done].
  destruct (decide (0 < n)); [|done]. by rewrite slice_from_0 by lia.
Qed.

Lemma delete_found_facts {B} (P : B → Prop) `{∀ x, Decision (P x)}
    (l : list B) i x :
  list_find P l = Some (i, x) →
  P x
  ∧ (length (delete i l) + 1 = length l)%nat
  ∧ delete i l `sublist_of` l
  ∧ l ≡ₚ x :: delete i l.
Proof.
  intros (Hi & Hx & _)%list_find_Some. split; [done|].
  split; [|split].
  - rewrite length_delete by (by eexists).
    apply lookup_lt_Some in Hi. lia.
  - apply sublist_delete.
  - by apply delete_Permutation.
Qed.

(** X2. [DELETE] of an id that no trip bears answers 404 and changes
    nothing.  [DELETE] of an id in use answers with the first trip that
    bears it and removes exactly that one: the collection is one shorter,
    the other trips stay in their order, the counter stays; with distinct
    ids no trip bears the id afterwards. *)
Theorem DELETE_removes_one_trip st tripId :
  JS.truthy tripId →
  ((∀ x, x ∈ trips st → Trip.id x ≠ tripId) →
   DELETE st (Some tripId) = (st, Failure 404 "Trip not found"))
  ∧ ((∃ x, x ∈ trips st ∧ Trip.id x = tripId) →
     ∃ st' x,
       DELETE st (Some tripId) = (st', Success 200 x)
       ∧ Trip.id x = tripId
       ∧ (length (trips st') + 1 = length (trips st))%nat
       ∧ trips st' `sublist_of` trips st
       ∧ trips st ≡ₚ x :: trips st'
       ∧ tripIdCounter st' = tripIdCounter st
       ∧ (NoDup (Trip.id <$> trips st) →
          ∀ y, y ∈ trips st' → Trip.id y ≠ tripId)).
Proof.
  intros Hid. unfold DELETE.
  destruct (decide (JS.truthy tripId)) as [_|]; [|done]. split.
  - intros Hno. by rewrite (find_unknown _ _ Hno).
  - intros (x0 & Hx0 & Hx0id).
    destruct (list_find_elem_of (Trip.has_id tripId) _ x0 Hx0 Hx0id)
      as [[i x] Hfind].
    rewrite Hfind.
    destruct (delete_found_facts _ _ _ _ Hfind) as (Hx & Hlen & Hsub & Hperm).
    eexists _, x. split; [done|]. simpl.
    repeat (split; [done|]).
    intros Hnd y Hy Hyid.
    rewrite Hperm, fmap_cons in Hnd. apply list.NoDup_cons in Hnd as [Hnotin _].
    apply Hnotin. unfold Trip.has_id in Hx. rewrite Hx, <- Hyid.
    by apply list_elem_of_fmap_2.
Qed.

Lemma DELETE_removes_one_trip_witness :
  DELETE Sample.one_trip (Some "trip_9")
  = (Sample.one_trip, Failure 404 "Trip not found")
  ∧ ∃ st' x, DELETE Sample.one_trip (Some "trip_1") = (st', Success 200 x)
             ∧ Trip.id x = "trip_1" ∧ trips st' = [].
Proof.
  destruct (DELETE_removes_one_trip Sample.one_trip "trip_9") as [Hno _];
    [truthy_literal|].
  destruct (DELETE_removes_one_trip Sample.one_trip "trip_1") as [_ Hyes];
    [truthy_literal|].
  split.
  - apply Hno. intros x Hx. vm_compute in Hx.
    apply list_elem_of_singleton in Hx as ->. vm_compute. discriminate.
  - destruct Hyes as (st' & x & Heq & Hx & Hlen & _).
    + eexists. split; [apply list_elem_of_here|reflexivity].
    + exists st', x. split; [done|]. split; [done|].
      change (length (trips Sample.one_trip)) with 1%nat in Hlen.
      destruct (trips st'); [done|]. simpl in Hlen. lia.
Defined.

(** X3. A trip just created under an id that was not in use can be taken
    back: [DELETE] of that id answers with the trip [POST] answered with
    and leaves the collection as it was before the [POST].  The counter
    does not go back. *)
Theorem POST_then_DELETE_restores_trips st body tripId now st1 code x :
  JS.truthy tripId →
  (∀ y, y ∈ trips st → Trip.id y ≠ tripId) →
  POST st body tripId now = (st1, Success code x) →
  DELETE st1 (Some tripId)
  = ({| trips := trips st; tripIdCounter := tripIdCounter st + 1 |},
     Success 200 x).
Proof.
  intros Hid Hfresh Hpost. unfold POST in Hpost.
  repeat case_match; simplify_eq/=.
  unfold DELETE. destruct (decide (JS.truthy tripId)) as [_|]; [|done]. simpl.
  rewrite list_find_app_r by (by apply find_unknown). simpl.
  rewrite decide_True by done. simpl. unfold with_trips. simpl.
  do 2 f_equal. replace (0 + length (trips st))%nat with (length (trips st))
    by lia.
  rewrite delete_middle. by rewrite app_nil_r.
Qed.

Lemma POST_then_DELETE_witness :
  DELETE Sample.one_trip (Some "trip_1")
  = ({| trips := []; tripIdCounter := 2 |},
     Success 200
       (newTrip 1 Sample.home car work Sample.body "trip_1" 0)).
Proof.
  apply (POST_then_DELETE_restores_trips initial Sample.body "trip_1" 0
           Sample.one_trip 201).
  - truthy_literal.
  - intros y Hy. by apply elem_of_nil in Hy.
  - vm_compute. reflexivity.
Defined.

(** X4. A successful [PUT] touches one trip only: the collection keeps its
    length and the counter its value, every other position holds what it
    held, and the trip answered is the one now stored, with [updatedAt]
    set to the time of the request whatever the payload says. *)
Theorem PUT_changes_one_position st tripId u now tripIndex x :
  JS.truthy tripId →
  list_find (Trip.has_id tripId) (trips st) = Some (tripIndex, x) →
  ∃ st' y,
    PUT st {| PutBody.tripId := Some tripId; PutBody.updates := Some u |} now
    = (st', Success 200 y)
    ∧ trips st' !! tripIndex = Some y
    ∧ (∀ j, j ≠ tripIndex → trips st' !! j = trips st !! j)
    ∧ length (trips st') = length (trips st)
    ∧ tripIdCounter st' = tripIdCounter st
    ∧ Trip.updatedAt y = JS.DateObj now.
Proof.
  intros Hid Hfind. rewrite (PUT_found _ _ _ _ _ _ Hid Hfind).
  apply list_find_Some in Hfind as (Hi & _).
  eexists _, _. split; [done|]. simpl.
  split; [apply list_lookup_insert_eq; by eapply lookup_lt_Some|].
  split; [intros j Hj; by apply list_lookup_insert_ne|].
  split; [apply length_insert|]. split; [done|].
  unfold updated. by destruct (decide (completing u)).
Qed.

Lemma PUT_changes_one_position_witness :
  ∃ st' y,
    PUT Sample.one_trip (Sample.put "trip_1" (Sample.only_status cancelled)) 77
    = (st', Success 200 y)
    ∧ trips st' = [y] ∧ Trip.updatedAt y = JS.DateObj 77.
Proof.
  destruct (PUT_changes_one_position Sample.one_trip "trip_1"
              (Sample.only_status cancelled) 77 0%nat
              (newTrip 1 Sample.home car work Sample.body "trip_1" 0))
    as (st' & y & Heq & Hy & _ & Hlen & _ & Hup).
  - truthy_literal.
  - vm_compute. reflexivity.
  - exists st', y. split; [exact Heq|]. split; [|exact Hup].
    destruct (trips st') as [|z [|? ?]]; try discriminate Hlen.
    simpl in Hy. by injection Hy as ->.
Defined.

(** X5. A [PUT] whose body has a known [tripId] but no [updates] is
    answered 500, yet the store has changed: the record's [updatedAt] was
    replaced before the handler failed.  Nothing else differs. *)
Theorem PUT_without_updates_still_touches st tripId now tripIndex x :
  JS.truthy tripId →
  list_find (Trip.has_id tripId) (trips st) = Some (tripIndex, x) →
  PUT st {| PutBody.tripId := Some tripId; PutBody.updates := None |} now
  = (with_trips st (<[tripIndex := Trip.touch now x]> (trips st)),
     Failure 500 "Failed to update trip")
  ∧ (Trip.updatedAt x ≠ JS.DateObj now →
     fst (PUT st {| PutBody.tripId := Some tripId;
                    PutBody.updates := None |} now) ≠ st).
Proof.
  intros Hid Hfind. unfold PUT. simpl.
  destruct (decide (JS.truthy tripId)) as [_|]; [|done].
  rewrite Hfind. split; [done|]. simpl.
  apply list_find_Some in Hfind as (Hi & _).
  intros Hne Heq. apply Hne.
  assert (Hl : trips (with_trips st (<[tripIndex := merge x PartialTrip.empty now]> (trips st)))
               !! tripIndex = Some x) by (by rewrite Heq).
  simpl in Hl. rewrite list_lookup_insert_eq in Hl by (by eapply lookup_lt_Some).
  injection Hl as Hl. by rewrite <- Hl.
Qed.

Lemma PUT_without_updates_witness :
  fst (PUT Sample.one_trip
         {| PutBody.tripId := Some "trip_1"; PutBody.updates := None |} 500)
  ≠ Sample.one_trip
  ∧ snd (PUT Sample.one_trip
           {| PutBody.tripId := Some "trip_1"; PutBody.updates := None |} 500)
    = Failure 500 "Failed to update trip".
Proof.
  destruct (PUT_without_updates_still_touches Sample.one_trip "trip_1" 500
              0%nat (newTrip 1 Sample.home car work Sample.body "trip_1" 0))
    as [Heq Hne].
  - truthy_literal.
  - vm_compute. reflexivity.
  - split; [apply Hne; discriminate|]. by rewrite Heq.
Defined.

Lemma default_default {B} (a : B) (o : option B) :
  default (default a o) o = default a o.
Proof. by destruct o. Qed.

Lemma updated_twice x u n1 n2 : updated (updated x u n1) u n2 = updated x u n2.
Proof.
  unfold updated. destruct (decide (completing u)); unfold merge;
    unfold Trip.set_duration, durationMinutes; simpl;
    by rewrite !default_default.
Qed.

Lemma find_after_insert (l : list Trip.t) tripId i x y :
  list_find (Trip.has_id tripId) l = Some (i, x) →
  Trip.has_id tripId y →
  list_find (Trip.has_id tripId) (<[i := y]> l) = Some (i, y).
Proof.
  intros (Hi & Hx & Hbefore)%list_find_Some Hy.
  apply list_find_Some. split; [|split; [done|]].
  - apply list_lookup_insert_eq. by eapply lookup_lt_Some.
  - intros j z Hj Hlt. rewrite list_lookup_insert_ne in Hj by lia.
    by eapply Hbefore.
Qed.

(** X6. Applying a payload a second time undoes nothing and adds nothing:
    two [PUT]s with the same body leave the store, and give the answer,
    that the second alone would have.  (The payload must not rename the
    trip, or the second request would not find it.) *)
Theorem PUT_again_is_PUT_once st tripId u n1 n2 tripIndex x :
  JS.truthy tripId →
  list_find (Trip.has_id tripId) (trips st) = Some (tripIndex, x) →
  PartialTrip.id u = None →
  let body := {| PutBody.tripId := Some tripId; PutBody.updates := Some u |} in
  PUT (fst (PUT st body n1)) body n2 = PUT st body n2.
Proof.
  intros Hid Hfind Hu body. unfold body.
  rewrite (PUT_found _ _ _ _ _ _ Hid Hfind). simpl.
  assert (Hy : Trip.has_id tripId (updated x u n1)).
  { apply list_find_Some in Hfind as (_ & Hx & _).
    unfold Trip.has_id, updated in *.
    destruct (decide (completing u)); simpl; by rewrite Hu. }
  rewrite (PUT_found _ _ _ _ tripIndex (updated x u n1) Hid);
    [|simpl; by eapply find_after_insert].
  rewrite (PUT_found _ _ _ _ _ _ Hid Hfind).
  unfold with_trips. simpl. by rewrite list_insert_insert_eq, updated_twice.
Qed.

Lemma PUT_again_witness :
  PUT (fst (PUT Sample.one_trip
              (Sample.put "trip_1" (Sample.only_status cancelled)) 10))
      (Sample.put "trip_1" (Sample.only_status cancelled)) 20
  = PUT Sample.one_trip (Sample.put "trip_1" (Sample.only_status cancelled)) 20.
Proof.
  apply (PUT_again_is_PUT_once Sample.one_trip "trip_1"
           (Sample.only_status cancelled) 10 20 0%nat
           (newTrip 1 Sample.home car work Sample.body "trip_1" 0)).
  - truthy_literal.
  - vm_compute. reflexivity.
  - reflexivity.
Defined.

Lemma length_by_status (l : list Trip.t) :
  length l
  = (length (filter (has_status completed) l)
     + length (filter (has_status active) l)
     + length (filter (has_status cancelled) l)
     + length (filter (has_status planned) l))%nat.
Proof.
  induction l as [|x l IH]; [done|].
  rewrite !filter_cons.
  destruct (decide (has_status completed x)) as [Hc|Hc],
    (decide (has_status active x)) as [Ha|Ha],
    (decide (has_status cancelled x)) as [Hn|Hn],
    (decide (has_status planned x)) as [Hp|Hp];
    unfold has_status in *; simpl; try lia; try congruence.
  destruct (Trip.status x); congruence.
Qed.

(** X7. In the statistics of a user every trip is counted once: [total] is
    the sum of the completed, active and cancelled counts and of the
    number of planned trips (which the object does not report).  [byMode]
    and [byPurpose] hold, under each name that occurs among the user's
    trips, how often it occurs, and have no key for a name that does not
    occur. *)
Theorem stats_count_every_trip_once st userId :
  let userTrips := filter (owned_by userId) (trips st) in
  total (stats st userId)
  = (completed_count (stats st userId) + active_count (stats st userId)
     + cancelled_count (stats st userId)
     + length (filter (has_status planned) userTrips))%nat
  ∧ (∀ k, byMode st userId !! k
          = let n := length (filter (λ x, mode_name (Trip.mode x) = k)
                               userTrips) in
            if decide (n = 0)%nat then None else Some (Z.of_nat n))
  ∧ (∀ k, byPurpose st userId !! k
          = let n := length (filter (λ x, purpose_name (Trip.purpose x) = k)
                               userTrips) in
            if decide (n = 0)%nat then None else Some (Z.of_nat n)).
Proof.
  split; [apply length_by_status|].
  split; intros k; apply tally_lookup.
Qed.

Lemma sum_durations_from (l : list Trip.t) lo hi :
  (∀ x, x ∈ l → lo ≤ default 0 (Trip.duration x) ≤ hi) →
  ∀ a, a + lo * Z.of_nat (length l)
       ≤ foldl (λ sum x, sum + default 0 (Trip.duration x)) a l
       ≤ a + hi * Z.of_nat (length l).
Proof.
  induction l as [|x l IH]; intros Hall a; simpl; [lia|].
  assert (Hx := Hall x ltac:(left)).
  specialize (IH (λ y Hy, Hall y ltac:(by right)) (a + default 0 (Trip.duration x))).
  lia.
Qed.

Lemma round_half_up_between sum n lo hi :
  0 < n → lo * n ≤ sum ≤ hi * n → lo ≤ JS.round_half_up sum n ≤ hi.
Proof.
  intros Hn Hs. unfold JS.round_half_up. split.
  - apply Z.div_le_lower_bound; nia.
  - apply Z.lt_succ_r, Z.div_lt_upper_bound; nia.
Qed.

Lemma average_between (l : list Trip.t) lo hi :
  l ≠ [] →
  (∀ x, x ∈ l → lo ≤ default 0 (Trip.duration x) ≤ hi) →
  ∃ v, JS.Math_round_quot (sum_durations l) (Z.of_nat (length l)) = JS.Num v
       ∧ lo ≤ v ≤ hi.
Proof.
  intros Hne Hall. unfold JS.Math_round_quot.
  assert (0 < Z.of_nat (length l)) by (destruct l; [done|simpl; lia]).
  rewrite decide_False by lia. rewrite decide_True by lia.
  eexists. split; [done|]. apply round_half_up_between; [done|].
  pose proof (sum_durations_from l lo hi Hall 0) as Hs.
  unfold sum_durations. lia.
Qed.

End TripsRouteMore.

Section Averages.

(** X8. The average duration lies between the durations it is taken over:
    when every counted duration is between [lo] and [hi], so is
    [avgDuration], in the route handler (which counts every trip of the
    user that has a duration) and in the hook (which counts the completed
    trips that have one). *)
Theorem avgDuration_between_extremes lo hi :
  (∀ st userId,
     (∃ x, x ∈ TripsRoute.trips st ∧ TripsRoute.owned_by userId x
           ∧ TripsRoute.has_duration x) →
     (∀ x d, x ∈ TripsRoute.trips st → TripsRoute.owned_by userId x →
             Trip.duration x = Some d → d ≠ 0 → lo ≤ d ≤ hi) →
     ∃ v, TripsRoute.avgDuration (TripsRoute.stats st userId) = JS.Num v
          ∧ lo ≤ v ≤ hi)
  ∧ (∀ l,
       (∃ x, x ∈ l ∧ UseTrips.completed_with_duration x) →
       (∀ x d, x ∈ l → Trip.status x = completed →
               Trip.duration x = Some d → d ≠ 0 → lo ≤ d ≤ hi) →
       ∃ v, UseTrips.avgDuration l = JS.Num v ∧ lo ≤ v ≤ hi).
Proof.
  split.
  - intros st userId (x0 & Hx0 & Hown0 & Hd0) Hall. simpl.
    set (counted := filter TripsRoute.has_duration
                      (filter (TripsRoute.owned_by userId) (TripsRoute.trips st))).
    assert (Hin : x0 ∈ counted).
    { apply list_elem_of_filter. split; [done|]. by apply list_elem_of_filter. }
    assert (Hne : counted ≠ []) by (intros Hnil; rewrite Hnil in Hin;
                                    by apply elem_of_nil in Hin).
    unfold TripsRoute.avg_divisor. fold counted.
    rewrite Z.max_l by (destruct counted; [done|simpl; lia]).
    apply average_between; [done|].
    intros x [Hd [Hown Hx]%list_elem_of_filter]%list_elem_of_filter.
    unfold TripsRoute.has_duration in Hd.
    destruct (Trip.duration x) as [d|] eqn:Hdx; [|done]. simpl.
    by apply (Hall x d).
  - intros l (x0 & Hx0 & Hc0) Hall. unfold UseTrips.avgDuration.
    set (counted := filter UseTrips.completed_with_duration l).
    assert (Hin : x0 ∈ counted) by (by apply list_elem_of_filter).
    assert (Hne : counted ≠ []) by (intros Hnil; rewrite Hnil in Hin;
                                    by apply elem_of_nil in Hin).
    rewrite decide_True by (destruct counted; [done|simpl; lia]).
    apply average_between; [done|].
    intros x [[Hs Hd] Hx]%list_elem_of_filter.
    unfold TripsRoute.has_duration in Hd.
    destruct (Trip.duration x) as [d|] eqn:Hdx; [|done]. simpl.
    by apply (Hall x d).
Qed.

Lemma avgDuration_between_witness :
  ∃ v, TripsRoute.avgDuration
         (TripsRoute.stats
            (fst (TripsRoute.PUT Sample.one_trip
                    (Sample.put "trip_1" (Sample.complete_after 450000)) 460000))
            "current_user")
       = JS.Num v
       ∧ 8 ≤ v ≤ 8.
Proof.
  destruct (avgDuration_between_extremes 8 8) as [Hroute _].
  apply Hroute.
  - eexists. split; [apply list_elem_of_here|]. split; [reflexivity|].
    vm_compute. discriminate.
  - intros x d Hx _ Hd _. vm_compute in Hx.
    apply list_elem_of_singleton in Hx as ->. vm_compute in Hd.
    injection Hd as <-. lia.
Defined.

End Averages.

(** ** More on the travelers route handlers *)

Section TravelersRouteMore.

Import TravelersRoute.

Lemma POST_accepted travelers body travelerId now travelers' code x :
  POST travelers body travelerId now = (travelers', Success code x) →
  ∃ name,
    TravelerForm.name body = Some name
    ∧ JS.truthy name
    ∧ (∀ y, y ∈ travelers → ¬ same_name name y)
    ∧ travelers' = travelers ++ [x]
    ∧ Traveler.name x = JS.trim name
    ∧ Traveler.id x = travelerId.
Proof.
  unfold POST. destruct (TravelerForm.name body) as [name|]; [|done].
  destruct (TravelerForm.ageGroup body); [|done].
  destruct (TravelerForm.relationship body); [|done].
  destruct (decide (JS.truthy name)) as [Ht|]; [|done].
  destruct (list_find _ _) eqn:Hfind; [done|].
  intros [= <- <- <-]. exists name. repeat split; try done.
  apply list_find_None in Hfind. by apply list.Forall_forall.
Qed.

(** X9. Adding a traveler keeps the names of the registry unique up to
    case, provided the name is sent without blanks around it (then the
    name stored is the name that was compared). *)
Theorem POST_keeps_names_unique travelers body travelerId now travelers' code x :
  Spec.names_unique travelers →
  (∀ name, TravelerForm.name body = Some name → JS.trim name = name) →
  POST travelers body travelerId now = (travelers', Success code x) →
  Spec.names_unique travelers'.
Proof.
  intros Huniq Htrim Hpost.
  apply POST_accepted in Hpost as (name & Hname & _ & Hnone & -> & Hx & _).
  unfold Spec.names_unique. rewrite fmap_app. apply list.NoDup_app.
  split; [done|]. split; [|apply NoDup_singleton].
  intros k (y & -> & Hy)%list_elem_of_fmap Hk.
  apply list_elem_of_singleton in Hk. simpl in Hk.
  apply (Hnone y Hy). unfold same_name.
  by rewrite Hk, Hx, (Htrim name Hname).
Qed.

Lemma POST_keeps_names_unique_witness : Spec.names_unique Sample.two_travelers.
Proof.
  apply (POST_keeps_names_unique Sample.registry (Sample.asha "Raj")
           "traveler_2" 5 Sample.two_travelers 201
           {| Traveler.id := "traveler_2"; Traveler.name := "Raj";
              Traveler.ageGroup := age_adult;
              Traveler.relationship := rel_friend;
              Traveler.hasConsent := true;
              Traveler.createdAt := JS.DateObj 5 |}).
  - unfold Spec.names_unique. vm_compute. apply NoDup_singleton.
  - intros name [= <-]. reflexivity.
  - vm_compute. reflexivity.
Defined.

(** X10. The name is compared as sent and stored trimmed.  A name that,
    as sent, equals no stored name but, once trimmed, equals one up to
    case is therefore accepted, and the registry then holds the same name
    twice. *)
Theorem POST_accepts_padded_duplicate travelers body name travelerId now :
  TravelerForm.name body = Some name →
  is_Some (TravelerForm.ageGroup body) →
  is_Some (TravelerForm.relationship body) →
  JS.truthy name →
  (∀ y, y ∈ travelers → ¬ same_name name y) →
  (∃ y, y ∈ travelers ∧ same_name (JS.trim name) y) →
  ∃ x, POST travelers body travelerId now = (travelers ++ [x], Success 201 x)
       ∧ Traveler.name x = JS.trim name
       ∧ ¬ Spec.names_unique (travelers ++ [x]).
Proof.
  intros Hname [g Hg] [r Hr] Ht Hnone (y & Hy & Hsame).
  unfold POST. rewrite Hname, Hg, Hr.
  destruct (decide (JS.truthy name)) as [_|]; [|done].
  assert (Hfind : list_find (same_name name) travelers = None).
  { apply list_find_None, list.Forall_forall. exact Hnone. }
  rewrite Hfind. eexists. split; [done|]. split; [done|].
  unfold Spec.names_unique. rewrite fmap_app. intros Hnd.
  apply list.NoDup_app in Hnd as (_ & Hdisj & _).
  apply (Hdisj (JS.toLowerCase (Traveler.name y))).
  - by apply (list_elem_of_fmap_2 (λ x, JS.toLowerCase (Traveler.name x))).
  - simpl. apply list_elem_of_singleton. exact Hsame.
Qed.

Lemma POST_accepts_padded_duplicate_witness :
  ∃ x, POST Sample.registry Sample.padded_asha "traveler_2" 5
       = (Sample.registry ++ [x], Success 201 x)
       ∧ Traveler.name x = "Asha"
       ∧ ¬ Spec.names_unique (Sample.registry ++ [x]).
Proof.
  apply (POST_accepts_padded_duplicate Sample.registry Sample.padded_asha
           " Asha" "traveler_2" 5).
  - reflexivity.
  - by eexists.
  - by eexists.
  - truthy_literal.
  - intros y Hy. vm_compute in Hy. apply list_elem_of_singleton in Hy as ->.
    vm_compute. discriminate.
  - eexists. split; [apply list_elem_of_here|]. vm_compute. reflexivity.
Defined.

Lemma NoDup_insert_fresh {B} (l : list B) i v :
  NoDup l → (∀ j, j ≠ i → l !! j ≠ Some v) → NoDup (<[i := v]> l).
Proof.
  intros Hnd Hfresh. apply NoDup_alt. intros j k z Hj Hk.
  destruct (decide (j = i)) as [->|Hji], (decide (k = i)) as [->|Hki];
    try done.
  - destruct (decide (i < length l)%nat) as [Hlt|Hge].
    + rewrite list_lookup_insert_eq in Hj by done. injection Hj as <-.
      rewrite list_lookup_insert_ne in Hk by done. by destruct (Hfresh k).
    + rewrite list_insert_ge in Hj, Hk by lia.
      by eapply (NoDup_lookup l).
  - destruct (decide (i < length l)%nat) as [Hlt|Hge].
    + rewrite list_lookup_insert_eq in Hk by done. injection Hk as <-.
      rewrite list_lookup_insert_ne in Hj by done. by destruct (Hfresh j).
    + rewrite list_insert_ge in Hj, Hk by lia.
      by eapply (NoDup_lookup l).
  - rewrite list_lookup_insert_ne in Hj, Hk by done.
    by eapply (NoDup_lookup l).
Qed.

(** X11. Renaming keeps the names unique up to case: in a registry with
    unique names and distinct ids, an accepted [PUT] whose payload has no
    name, or a name that is not the empty string, leaves a registry with
    unique names. *)
Theorem PUT_keeps_names_unique travelers travelerId u travelers' code y :
  Spec.names_unique travelers →
  NoDup (Traveler.id <$> travelers) →
  (∀ name, PartialTraveler.name u = Some name → JS.truthy name) →
  PUT travelers (Some travelerId) (Some u) = (travelers', Success code y) →
  Spec.names_unique travelers'.
Proof.
  intros Huniq Hids Hname. unfold PUT.
  destruct (decide (JS.truthy travelerId)); [|done].
  destruct (list_find _ _) as [[i x]|] eqn:Hfind; [|done].
  destruct (decide (name_taken travelers travelerId u)) as [|Hfree]; [done|].
  intros [= <- _ _].
  apply list_find_Some in Hfind as (Hi & Hx & _).
  unfold Spec.names_unique.
  rewrite (list_fmap_insert (λ x, JS.toLowerCase (Traveler.name x))).
  apply NoDup_insert_fresh; [done|].
  intros j Hj Hlook. rewrite list_lookup_fmap in Hlook.
  destruct (travelers !! j) as [z|] eqn:Hz; [|done].
  simpl in Hlook. injection Hlook as Hlook.
  destruct (PartialTraveler.name u) as [name|] eqn:Hu; simpl in Hlook.
  - apply Hfree. unfold name_taken. rewrite Hu. split; [by apply Hname|].
    apply (list_find_elem_of _ _ z); [by eapply list_elem_of_lookup_2|].
    split; [|done].
    intros Hzid. apply Hj. eapply (NoDup_lookup _ _ _ _ Hids);
      rewrite list_lookup_fmap; [by rewrite Hz|].
    rewrite Hi. simpl. unfold has_id in Hx. congruence.
  - apply Hj. eapply (NoDup_lookup _ _ _ _ Huniq);
      rewrite list_lookup_fmap; [by rewrite Hz|].
    rewrite Hi. simpl. by rewrite Hlook.
Qed.

Lemma PUT_keeps_names_unique_witness :
  Spec.names_unique
    (fst (PUT Sample.two_travelers (Some "traveler_2")
            (Some (Sample.rename "Rajan")))).
Proof.
  eapply (PUT_keeps_names_unique Sample.two_travelers "traveler_2"
            (Sample.rename "Rajan")).
  - unfold Spec.names_unique. apply (bool_decide_unpack _). vm_compute. exact I.
  - apply (bool_decide_unpack _). vm_compute. exact I.
  - intros name [= <-]. truthy_literal.
  - vm_compute. reflexivity.
Defined.

(** X12. The travelers [DELETE] of an id that no traveler bears answers
    404 and changes nothing; of an id in use it answers with the first
    traveler that bears it and removes exactly that one, the others keeping
    their order. *)
Theorem travelers_DELETE_removes_one travelers travelerId :
  JS.truthy travelerId →
  ((∀ x, x ∈ travelers → Traveler.id x ≠ travelerId) →
   DELETE travelers (Some travelerId)
   = (travelers, Failure 404 "Traveler not found"))
  ∧ ((∃ x, x ∈ travelers ∧ Traveler.id x = travelerId) →
     ∃ travelers' x,
       DELETE travelers (Some travelerId) = (travelers', Success 200 x)
       ∧ Traveler.id x = travelerId
       ∧ (length travelers' + 1 = length travelers)%nat
       ∧ travelers' `sublist_of` travelers
       ∧ travelers ≡ₚ x :: travelers').
Proof.
  intros Hid. unfold DELETE.
  destruct (decide (JS.truthy travelerId)) as [_|]; [|done]. split.
  - intros Hno.
    assert (Hfind : list_find (has_id travelerId) travelers = None).
    { apply list_find_None, list.Forall_forall. exact Hno. }
    by rewrite Hfind.
  - intros (x0 & Hx0 & Hx0id).
    destruct (list_find_elem_of (has_id travelerId) _ x0 Hx0 Hx0id)
      as [[i x] Hfind].
    rewrite Hfind.
    destruct (delete_found_facts _ _ _ _ Hfind) as (Hx & Hlen & Hsub & Hperm).
    by eexists _, x.
Qed.

Lemma travelers_DELETE_witness :
  DELETE Sample.registry (Some "traveler_7")
  = (Sample.registry, Failure 404 "Traveler not found")
  ∧ ∃ travelers' x,
      DELETE Sample.two_travelers (Some "traveler_1") = (travelers', Success 200 x)
      ∧ Traveler.id x = "traveler_1"
      ∧ (length travelers' + 1 = length Sample.two_travelers)%nat.
Proof.
  destruct (travelers_DELETE_removes_one Sample.registry "traveler_7")
    as [Hno _]; [truthy_literal|].
  destruct (travelers_DELETE_removes_one Sample.two_travelers "traveler_1")
    as [_ Hyes]; [truthy_literal|].
  split.
  - apply Hno. intros x Hx. vm_compute in Hx.
    apply list_elem_of_singleton in Hx as ->. vm_compute. discriminate.
  - destruct Hyes as (travelers' & x & Heq & Hx & Hlen & _).
    + eexists. split; [apply list_elem_of_here|reflexivity].
    + by exists travelers', x.
Defined.

Lemma sort_desc_of_sorted {B} (key : B → Z) (l : list B) :
  StronglySorted (JS.not_older key) l → JS.sort_desc key l = l.
Proof.
  induction 1 as [|x l Hl IH Hx]; [done|].
  simpl. fold (JS.sort_desc key l). rewrite IH.
  destruct l as [|y l]; [done|]. simpl.
  apply list.Forall_cons in Hx as [Hy _]. unfold JS.not_older in Hy.
  by rewrite decide_False by lia.
Qed.

(** X13. Without the [hasConsent] parameter the travelers [GET] sorts the
    stored array itself: after the request the store holds the same
    travelers, the newest first, and this is also the answer; asking again
    changes nothing more.  With the parameter the store is left as it is
    and the answer holds, the newest first, the travelers whose consent
    flag is [true] when the parameter is the string "true", and those whose
    flag is [false] for every other value of the parameter. *)
Theorem travelers_GET_sorts_the_store travelers :
  (∃ sorted,
     GET travelers None = (sorted, Success 200 sorted)
     ∧ sorted ≡ₚ travelers
     ∧ StronglySorted (JS.not_older created) sorted
     ∧ (∀ k, filter (λ x, created x = k) sorted
             = filter (λ x, created x = k) travelers)
     ∧ GET sorted None = (sorted, Success 200 sorted))
  ∧ (∀ h, ∃ l,
       GET travelers (Some h) = (travelers, Success 200 l)
       ∧ StronglySorted (JS.not_older created) l
       ∧ ∀ x, x ∈ l ↔
              x ∈ travelers ∧ Traveler.hasConsent x = bool_decide (h = "true")).
Proof.
  split.
  - exists (JS.sort_desc created travelers). unfold GET.
    split; [done|]. split; [apply sort_desc_perm|].
    split; [apply sort_desc_sorted|]. split; [intros k; apply sort_desc_stable|].
    by rewrite sort_desc_of_sorted by apply sort_desc_sorted.
  - intros h. eexists. unfold GET. split; [done|].
    split; [apply sort_desc_sorted|].
    intros x. rewrite sort_desc_elem, list_elem_of_filter.
    unfold consent_is. tauto.
Qed.

(** The store [Asha (created at 0), Raj (created at 5)] is [Raj, Asha]
    after a plain [GET]. *)
Example travelers_GET_reorders :
  Traveler.name <$> Sample.two_travelers = ["Asha"; "Raj"]
  ∧ Traveler.name <$> fst (GET Sample.two_travelers None) = ["Raj"; "Asha"]
  ∧ Traveler.name <$> fst (GET Sample.two_travelers (Some "false"))
    = ["Asha"; "Raj"].
Proof. vm_compute. done. Qed.

Lemma length_by_consent (l : list Traveler.t) :
  (length (filter (consent_is true) l) + length (filter (consent_is false) l)
   = length l)%nat.
Proof.
  induction l as [|x l IH]; [done|].
  rewrite !filter_cons.
  destruct (decide (consent_is true x)) as [Ht|Ht],
    (decide (consent_is false x)) as [Hf|Hf];
    unfold consent_is in *; simpl; try lia; try congruence.
  destruct (Traveler.hasConsent x); congruence.
Qed.

(** X14. In the travelers statistics [withConsent] and [withoutConsent]
    add up to [total], and [byAgeGroup] and [byRelationship] hold, under
    each name that occurs, how often it occurs, and have no key for a name
    that does not occur. *)
Theorem travelers_stats_count_everyone_once travelers :
  (withConsent (stats travelers) + withoutConsent (stats travelers)
   = total (stats travelers))%nat
  ∧ (∀ k, byAgeGroup (stats travelers) !! k
          = let n := length (filter (λ x, ageGroup_name (Traveler.ageGroup x) = k)
                               travelers) in
            if decide (n = 0)%nat then None else Some (Z.of_nat n))
  ∧ (∀ k, byRelationship (stats travelers) !! k
          = let n := length (filter
                               (λ x, relationship_name (Traveler.relationship x) = k)
                               travelers) in
            if decide (n = 0)%nat then None else Some (Z.of_nat n)).
Proof.
  split; [apply length_by_consent|].
  split; intros k; apply tally_lookup.
Qed.

End TravelersRouteMore.

(** ** More on [StorageService] *)

Section StorageFacts.

Import StorageService.

Lemma toJSON_dates x :
  JS.getTime (Trip.startTime (Trip.toJSON x)) = None
  ∧ JS.new_Date (Trip.startTime (Trip.toJSON x)) = JS.new_Date (Trip.startTime x)
  ∧ Trip.id (Trip.toJSON x) = Trip.id x
  ∧ Trip.tripNumber (Trip.toJSON x) = Trip.tripNumber x
  ∧ Trip.status (Trip.toJSON x) = Trip.status x
  ∧ Trip.duration (Trip.toJSON x) = Trip.duration x.
Proof. repeat split. Qed.

(** X15. When the probe goes through and [localStorage] takes the value,
    [saveTrips] returns [true], and what [getTrips] reads afterwards is the
    JSON image of what was saved: the same trips in the same order, every
    date turned into its string (same instant, no [getTime]).  Saving what
    was read changes nothing more. *)
Theorem saveTrips_getTrips_round_trip ls trips :
  available ls = true →
  accepts ls (Trip.toJSON <$> trips) = true →
  ∃ ls',
    saveTrips ls trips = (ls', true)
    ∧ getTrips ls' = Trip.toJSON <$> trips
    ∧ saveTrips ls' (getTrips ls') = (ls', true)
    ∧ ∀ i x, trips !! i = Some x →
        ∃ y, getTrips ls' !! i = Some y
             ∧ Trip.id y = Trip.id x
             ∧ Trip.status y = Trip.status x
             ∧ JS.new_Date (Trip.startTime y) = JS.new_Date (Trip.startTime x)
             ∧ JS.getTime (Trip.startTime y) = None.
Proof.
  intros Hav Hacc. unfold saveTrips. rewrite Hav, Hacc. eexists.
  split; [done|]. unfold getTrips. simpl. split; [done|].
  split; [by rewrite fmap_toJSON_idem, Hacc|].
  intros i x Hx. exists (Trip.toJSON x).
  split; [by rewrite list_lookup_fmap, Hx|]. repeat split.
Qed.

Lemma saveTrips_getTrips_witness :
  ∃ ls',
    saveTrips Sample.fresh_storage (TripsRoute.trips Sample.one_trip) = (ls', true)
    ∧ getTrips ls' = Trip.toJSON <$> TripsRoute.trips Sample.one_trip.
Proof.
  destruct (saveTrips_getTrips_round_trip Sample.fresh_storage
              (TripsRoute.trips Sample.one_trip) eq_refl eq_refl)
    as (ls' & Hsave & Hget & _).
  by exists ls'.
Defined.

(** X16. When the probe of [localStorage] fails, every read gives the
    empty collection and every write returns [false] and leaves the store
    as it is. *)
Theorem unavailable_storage_is_empty_and_inert ls :
  available ls = false →
  getTrips ls = []
  ∧ getTripById ls = (λ _, None)
  ∧ getActiveTrip ls = None
  ∧ (∀ trips, saveTrips ls trips = (ls, false))
  ∧ (∀ trip, addTrip ls trip = (ls, false))
  ∧ (∀ tripId updates now, updateTrip ls tripId updates now = (ls, false))
  ∧ (∀ tripId, deleteTrip ls tripId = (ls, false)).
Proof.
  intros Hav.
  assert (Hget : getTrips ls = []) by (unfold getTrips; by rewrite Hav).
  assert (Hsave : ∀ trips, saveTrips ls trips = (ls, false))
    by (intros; unfold saveTrips; by rewrite Hav).
  unfold getTripById, getActiveTrip, addTrip, updateTrip, deleteTrip.
  rewrite Hget. by repeat split.
Qed.

Lemma unavailable_storage_witness :
  addTrip {| available := false; accepts := λ _, true; trips_item := None |}
          (TripsRoute.newTrip 1 Sample.home car work Sample.body "trip_1" 0)
  = ({| available := false; accepts := λ _, true; trips_item := None |}, false).
Proof.
  destruct (unavailable_storage_is_empty_and_inert
              {| available := false; accepts := λ _, true; trips_item := None |}
              eq_refl)
    as (_ & _ & _ & _ & Hadd & _).
  apply Hadd.
Defined.

Lemma getTripById_toJSON l tripId :
  snd <$> list_find (Trip.has_id tripId) (Trip.toJSON <$> l)
  = Trip.toJSON <$> (snd <$> list_find (Trip.has_id tripId) l).
Proof. rewrite find_toJSON. by destruct (list_find _ l) as [[? ?]|]. Qed.

(** X17. Over a store that takes every write: a trip added under an id
    that is not in the store is found again under that id, as its JSON
    image; after [deleteTrip] of the id it is found no more.  The trips
    stored before stay findable as they were. *)
Theorem addTrip_then_getTripById ls trip :
  available ls = true →
  (∀ l, accepts ls l = true) →
  (∀ y, y ∈ getTrips ls → Trip.id y ≠ Trip.id trip) →
  ∃ ls',
    addTrip ls trip = (ls', true)
    ∧ getTripById ls' (Trip.id trip) = Some (Trip.toJSON trip)
    ∧ (∀ tripId, tripId ≠ Trip.id trip →
                 getTripById ls' tripId = Trip.toJSON <$> getTripById ls tripId)
    ∧ getTripById (fst (deleteTrip ls' (Trip.id trip))) (Trip.id trip) = None.
Proof.
  intros Hav Hacc Hfresh. unfold addTrip, saveTrips. rewrite Hav, Hacc.
  eexists. split; [done|].
  assert (Hget : ∀ l, getTrips {| available := true; accepts := accepts ls;
                                  trips_item := Some (Trip.toJSON <$> l) |}
                      = Trip.toJSON <$> l) by done.
  unfold getTripById, deleteTrip, saveTrips. cbn [available accepts].
  rewrite Hacc, !Hget. rewrite !getTripById_toJSON.
  split; [|split].
  - rewrite list_find_app_r by (by apply find_unknown). simpl.
    by rewrite decide_True.
  - intros tripId Hne. rewrite getTripById_toJSON.
    destruct (list_find (Trip.has_id tripId) (getTrips ls)) as [[i y]|] eqn:Hf.
    + by rewrite (list_find_app_l _ _ _ _ _ Hf).
    + rewrite list_find_app_r by done. simpl.
      by rewrite decide_False by (unfold Trip.has_id; congruence).
  - simpl. rewrite Hget, getTripById_toJSON.
    rewrite (find_unknown _ (Trip.id trip)); [done|].
    intros y [Hy _]%list_elem_of_filter. simpl in Hy. done.
Qed.

Lemma addTrip_then_getTripById_witness :
  ∃ ls',
    addTrip Sample.fresh_storage
      (TripsRoute.newTrip 1 Sample.home car work Sample.body "trip_1" 0)
    = (ls', true)
    ∧ Trip.status <$> getTripById ls' "trip_1" = Some active.
Proof.
  destruct (addTrip_then_getTripById Sample.fresh_storage
              (TripsRoute.newTrip 1 Sample.home car work Sample.body "trip_1" 0)
              eq_refl) as (ls' & Hadd & Hget & _).
  - reflexivity.
  - intros y Hy. by apply elem_of_nil in Hy.
  - exists ls'. split; [exact Hadd|]. simpl in Hget. by rewrite Hget.
Defined.

Lemma filter_all {A} (P : A → Prop) `{∀ x, Decision (P x)} (l : list A) :
  (∀ x, x ∈ l → P x) → filter P l = l.
Proof.
  induction l as [|a l IH]; intros Hall; [done|].
  rewrite filter_cons_True by (apply Hall; left).
  f_equal. apply IH. intros x Hx. apply Hall. by right.
Qed.

(** X18. Of an id that is not in the store, [updateTrip] returns [false]
    and writes nothing, whereas [deleteTrip] returns [true] when the store
    takes the write: it writes back the trips it read and does not tell
    whether one was removed. *)
Theorem unknown_id_update_fails_delete_succeeds ls tripId :
  available ls = true →
  accepts ls (Trip.toJSON <$> getTrips ls) = true →
  (∀ y, y ∈ getTrips ls → Trip.id y ≠ tripId) →
  (∀ updates now, updateTrip ls tripId updates now = (ls, false))
  ∧ ∃ ls', deleteTrip ls tripId = (ls', true)
           ∧ getTrips ls' = Trip.toJSON <$> getTrips ls.
Proof.
  intros Hav Hacc Hno. split.
  - intros updates now. unfold updateTrip. by rewrite (find_unknown _ _ Hno).
  - unfold deleteTrip, saveTrips.
    rewrite (filter_all _ (getTrips ls)) by exact Hno.
    rewrite Hav, Hacc. eexists. split; [done|]. done.
Qed.

Lemma unknown_id_witness :
  (∀ updates now,
     updateTrip Sample.fresh_storage "trip_1" updates now
     = (Sample.fresh_storage, false))
  ∧ ∃ ls', deleteTrip Sample.fresh_storage "trip_1" = (ls', true)
           ∧ getTrips ls' = [].
Proof.
  destruct (unknown_id_update_fails_delete_succeeds Sample.fresh_storage "trip_1"
              eq_refl eq_refl) as [Hup (ls' & Hdel & Hget)].
  - intros y Hy. by apply elem_of_nil in Hy.
  - split; [exact Hup|]. by exists ls'.
Defined.

End StorageFacts.

(** ** More on the [useTrips] hook *)

Section UseTripsMore.

Import UseTrips.

Lemma clear_active_trips w w' tripId :
  trips (clear_active w w' tripId) = trips w'
  ∧ storage (clear_active w w' tripId) = storage w'
  ∧ error (clear_active w w' tripId) = error w'.
Proof. unfold clear_active. by repeat case_match. Qed.

Lemma clear_active_activeTrip w w' tripId a :
  activeTrip (clear_active w w' tripId) = Some a →
  activeTrip w' = Some a
  ∧ ∀ b, activeTrip w = Some b → Trip.id b ≠ tripId.
Proof.
  unfold clear_active. destruct (activeTrip w) as [b|] eqn:Hb.
  - destruct (decide (Trip.has_id tripId b)) as [|Hne]; [done|].
    intros ->. split; [done|]. intros ? [= <-]. exact Hne.
  - intros ->. split; [done|]. intros ? [=].
Qed.

Lemma patch_other tripId u now x :
  Trip.id x ≠ tripId → patch tripId u now x = x.
Proof. intros Hne. unfold patch. by rewrite decide_False. Qed.

Lemma patch_status tripId u now x :
  Trip.status (patch tripId u now x)
  = if decide (Trip.has_id tripId x)
    then default (Trip.status x) (PartialTrip.status u)
    else Trip.status x.
Proof. unfold patch. by destruct (decide _). Qed.

Lemma updateTrip_cases w tripId u now :
  let r := updateTrip w tripId u now in
  (snd r = true
   ∧ trips (fst r) = patch tripId u now <$> trips w
   ∧ activeTrip (fst r) = patch tripId u now <$> activeTrip w
   ∧ error (fst r) = None)
  ∨ (snd r = false
     ∧ trips (fst r) = trips w ∧ activeTrip (fst r) = activeTrip w
     ∧ error (fst r) = Some "Failed to update trip").
Proof.
  unfold updateTrip.
  destruct (StorageService.updateTrip _ _ _ _) as [ls [|]]; simpl;
    [left|right]; by repeat split.
Qed.

Lemma updateTrip_in_sync w tripId u now :
  PartialTrip.id u = None → PartialTrip.status u = None →
  active_in_sync w → active_in_sync (fst (updateTrip w tripId u now)).
Proof.
  intros Hid Hst Hsync.
  destruct (updateTrip_cases w tripId u now) as
    [(_ & Ht & Ha & _)|(_ & Ht & Ha & _)]; intros a; rewrite Ha, Ht.
  - destruct (activeTrip w) as [b|] eqn:Hw; [|done]. intros [= <-].
    destruct (Hsync b Hw) as (Hb & x & Hx & Hxb & Hxa).
    rewrite patch_status, Hst, Hb. split; [by case_match|].
    exists (patch tripId u now x).
    split; [by apply list_elem_of_fmap_2|].
    rewrite !patch_id by done. split; [done|].
    rewrite patch_status, Hst, Hxa. by case_match.
  - apply Hsync.
Qed.

Lemma closing_in_sync w tripId u now :
  PartialTrip.id u = None →
  active_in_sync w →
  active_in_sync (if snd (updateTrip w tripId u now)
                  then clear_active w (fst (updateTrip w tripId u now)) tripId
                  else fst (updateTrip w tripId u now)).
Proof.
  intros Hid Hsync.
  destruct (updateTrip_cases w tripId u now) as
    [(Hs & Ht & Ha & _)|(Hs & Ht & Ha & _)]; rewrite Hs; intros a.
  - intros [Ha' Hother]%clear_active_activeTrip.
    destruct (clear_active_trips w (fst (updateTrip w tripId u now)) tripId)
      as (-> & _). rewrite Ht. rewrite Ha in Ha'.
    destruct (activeTrip w) as [b|] eqn:Hw; [|done].
    specialize (Hother b eq_refl). injection Ha' as <-.
    rewrite patch_other by done.
    destruct (Hsync b Hw) as (Hb & x & Hx & Hxb & Hxa).
    split; [done|]. exists x. split; [|done].
    apply list_elem_of_fmap. exists x. split; [|done].
    symmetry. apply patch_other. congruence.
  - rewrite Ha, Ht. apply Hsync.
Qed.

Lemma step_in_sync w c : active_in_sync w → active_in_sync (step w c).
Proof.
  intros Hsync. destruct c as [tripData tripId now|tripId updates now
    |tripId destination rating now|tripId now|tripId|]; simpl.
  - unfold createTrip. destruct (activeTrip w) as [b|] eqn:Hb; [exact Hsync|].
    destruct (StorageService.addTrip _ _) as [ls [|]]; simpl.
    + intros a [= <-]. split; [done|]. eexists. split; [|done].
      apply elem_of_app. right. apply list_elem_of_singleton. reflexivity.
    + intros a Ha. simpl in Ha. congruence.
  - by apply updateTrip_in_sync.
  - unfold completeTrip.
    destruct (list_find _ _) as [[i trip]|]; [|exact Hsync].
    destruct (JS.getTime _) as [start|]; [|exact Hsync].
    pose proof (closing_in_sync w tripId
      (completion destination rating
         (JS.round_half_up (now - start) (1000 * 60)) now) now eq_refl Hsync)
      as Hclose.
    destruct (updateTrip w tripId _ now) as [w' [|]]; exact Hclose.
  - unfold cancelTrip.
    pose proof (closing_in_sync w tripId (cancellation now) now eq_refl Hsync)
      as Hclose.
    destruct (updateTrip w tripId _ now) as [w' [|]]; exact Hclose.
  - unfold deleteTrip.
    destruct (StorageService.deleteTrip _ _) as [ls [|]]; simpl; [|exact Hsync].
    intros a [Ha Hother]%clear_active_activeTrip. simpl in Ha.
    destruct (clear_active_trips w
      {| trips := filter (λ x, Trip.id x ≠ tripId) (trips w);
         activeTrip := activeTrip w; loading := false; error := None;
         storage := ls |} tripId) as (-> & _). simpl.
    destruct (Hsync a Ha) as (Hact & x & Hx & Hxa & Hxs).
    split; [done|]. exists x. split; [|done].
    apply list_elem_of_filter. split; [|done].
    rewrite Hxa. by apply Hother.
  - intros a Ha. unfold loadTrips in *. simpl in *.
    destruct (list_find _ _) as [[i y]|] eqn:Hf; [|done].
    injection Ha as <-. apply list_find_Some in Hf as (Hi & Hy & _).
    split; [exact Hy|]. exists y. split; [|done]. by eapply list_elem_of_lookup_2.
Qed.

Lemma reachable_in_sync w : reachable w → active_in_sync w.
Proof.
  induction 1 as [available|w c _ IH _].
  - intros a Ha. by destruct available.
  - by apply step_in_sync.
Qed.

Lemma reachable_started : reachable Sample.started.
Proof.
  apply reach_step; [apply reach_mount|].
  intros x Hx. vm_compute in Hx. by apply elem_of_nil in Hx.
Qed.

Lemma reachable_reloaded : reachable Sample.reloaded.
Proof. apply reach_step; [apply reachable_started|exact I]. Qed.

(** X19. In every state the hook can reach, the store holds the hook's
    trips: the same ids, numbers, statuses and durations in the same order,
    every id once.  Reading the store again therefore shows the same
    trips. *)
Theorem hook_and_store_agree w :
  reachable w →
  let storedTrips := StorageService.getTrips (storage w) in
  Trip.id <$> storedTrips = Trip.id <$> trips w
  ∧ Trip.tripNumber <$> storedTrips = Trip.tripNumber <$> trips w
  ∧ Trip.status <$> storedTrips = Trip.status <$> trips w
  ∧ Trip.duration <$> storedTrips = Trip.duration <$> trips w
  ∧ NoDup (Trip.id <$> trips w)
  ∧ Trip.id <$> trips (loadTrips w) = Trip.id <$> trips w
  ∧ Trip.status <$> trips (loadTrips w) = Trip.status <$> trips w.
Proof.
  intros [_ _ Hstored Hnodup]%reachable_consistent. simpl.
  rewrite Hstored, <- !list_fmap_compose. by repeat split.
Qed.

Lemma hook_and_store_agree_witness :
  Trip.id <$> StorageService.getTrips (storage Sample.started) = ["trip_1"]
  ∧ Trip.status <$> trips (loadTrips Sample.started) = [active].
Proof.
  destruct (hook_and_store_agree Sample.started reachable_started)
    as (Hid & _ & _ & _ & _ & _ & Hst).
  split; [exact Hid | exact Hst].
Defined.

(** X20. In every state the hook can reach, [activeTrip] is set exactly
    when the collection has an active trip, and then it is that trip: an
    active one with the same id.  Reading the store again leaves the same
    trip active. *)
Theorem activeTrip_is_the_active_trip w :
  reachable w →
  (∀ a, activeTrip w = Some a →
        Trip.status a = active
        ∧ ∃ x, x ∈ trips w ∧ Trip.id x = Trip.id a ∧ Trip.status x = active)
  ∧ (∀ x, x ∈ trips w → Trip.status x = active →
          ∃ a, activeTrip w = Some a ∧ Trip.id a = Trip.id x)
  ∧ (is_Some (activeTrip w) ↔ ∃ x, x ∈ trips w ∧ Trip.status x = active)
  ∧ Trip.id <$> activeTrip (loadTrips w) = Trip.id <$> activeTrip w.
Proof.
  intros Hr. pose proof (reachable_in_sync w Hr) as Hsync.
  pose proof (reachable_consistent w Hr) as Hc.
  destruct Hc as [Hone Hknown Hstored Hnodup].
  split; [exact Hsync|]. split; [exact Hknown|]. split.
  - split.
    + intros [a Ha]. destruct (Hsync a Ha) as (_ & x & Hx & _ & Hxs). eauto.
    + intros (x & Hx & Hxs). destruct (Hknown x Hx Hxs) as (a & Ha & _). eauto.
  - unfold loadTrips. simpl. rewrite Hstored.
    destruct (list_find _ _) as [[i y]|] eqn:Hf.
    + apply list_find_Some in Hf as (Hi & Hy & _).
      apply list_elem_of_lookup_2, list_elem_of_fmap in Hi as (y0 & -> & Hy0).
      destruct (Hknown y0 Hy0 Hy) as (a & -> & Ha). simpl. by rewrite Ha.
    + apply list_find_None in Hf.
      destruct (activeTrip w) as [a|] eqn:Ha; [|done].
      destruct (Hsync a Ha) as (_ & x & Hx & _ & Hxs).
      rewrite list.Forall_forall in Hf.
      destruct (Hf (Trip.toJSON x)); [by apply list_elem_of_fmap_2|exact Hxs].
Qed.

Lemma activeTrip_is_the_active_trip_witness :
  is_Some (activeTrip Sample.started)
  ∧ Trip.id <$> activeTrip (loadTrips Sample.started) = Some "trip_1".
Proof.
  destruct (activeTrip_is_the_active_trip Sample.started reachable_started)
    as (_ & _ & Hiff & Hload).
  split; [|exact Hload].
  apply Hiff. eexists. split; [apply list_elem_of_here|reflexivity].
Defined.


Lemma find_known (l : list Trip.t) tripId i x :
  NoDup (Trip.id <$> l) → l !! i = Some x → Trip.id x = tripId →
  list_find (Trip.has_id tripId) l = Some (i, x).
Proof.
  intros Hnodup Hi Hx. apply list_find_Some. split; [done|]. split; [done|].
  intros j y Hj Hlt Hy. unfold Trip.has_id in Hy.
  assert (j = i); [|lia].
  apply (NoDup_lookup (Trip.id <$> l) j i tripId Hnodup);
    rewrite list_lookup_fmap; [by rewrite Hj; simpl; rewrite Hy
                              |by rewrite Hi; simpl; rewrite Hx].
Qed.

(** What the store is asked to take when the trip at index [i] of the hook
    is updated. *)
Lemma written_by_update w tripId u now i x :
  consistent w → trips w !! i = Some x → Trip.id x = tripId →
  Trip.toJSON <$> (patch tripId u now <$> trips w)
  = Trip.toJSON <$> <[i := merge x u now]> (trips w).
Proof.
  intros Hc Hi Hx. f_equal.
  by apply patch_as_insert; [apply (distinct_ids w Hc)| |].
Qed.

Lemma updateTrip_known w tripId u now i x :
  consistent w → trips w !! i = Some x → Trip.id x = tripId →
  StorageService.accepts (storage w)
    (Trip.toJSON <$> <[i := merge x u now]> (trips w)) = true →
  ∃ w', updateTrip w tripId u now = (w', true)
        ∧ trips w' = <[i := merge x u now]> (trips w)
        ∧ activeTrip w' = patch tripId u now <$> activeTrip w
        ∧ error w' = None.
Proof.
  intros Hc Hi Hx Hacc.
  pose proof (storage_updateTrip_spec (storage w) tripId u now (trips w)
                (stored w Hc) (distinct_ids w Hc)) as Hspec.
  rewrite (find_known _ _ i x (distinct_ids w Hc) Hi Hx) in Hspec.
  simpl in Hspec.
  rewrite (written_by_update w tripId u now i x Hc Hi Hx), Hacc in Hspec.
  destruct Hspec as (ls' & Heq & _). unfold updateTrip. rewrite Heq.
  eexists. split; [done|]. simpl. split; [|done].
  by apply patch_as_insert; [apply (distinct_ids w Hc)| |].
Qed.

Lemma updateTrip_refused w tripId u now i x :
  consistent w → trips w !! i = Some x → Trip.id x = tripId →
  StorageService.accepts (storage w)
    (Trip.toJSON <$> <[i := merge x u now]> (trips w)) = false →
  updateTrip w tripId u now
  = ({| trips := trips w; activeTrip := activeTrip w; loading := false;
        error := Some "Failed to update trip"; storage := storage w |}, false).
Proof.
  intros Hc Hi Hx Hacc.
  pose proof (storage_updateTrip_spec (storage w) tripId u now (trips w)
                (stored w Hc) (distinct_ids w Hc)) as Hspec.
  rewrite (find_known _ _ i x (distinct_ids w Hc) Hi Hx) in Hspec.
  simpl in Hspec.
  rewrite (written_by_update w tripId u now i x Hc Hi Hx), Hacc in Hspec.
  unfold updateTrip. by rewrite Hspec.
Qed.

Lemma updateTrip_unknown w tripId u now :
  consistent w → (∀ x, x ∈ trips w → Trip.id x ≠ tripId) →
  updateTrip w tripId u now
  = ({| trips := trips w; activeTrip := activeTrip w; loading := false;
        error := Some "Failed to update trip"; storage := storage w |}, false).
Proof.
  intros Hc Hno.
  pose proof (storage_updateTrip_spec (storage w) tripId u now (trips w)
                (stored w Hc) (distinct_ids w Hc)) as Hspec.
  rewrite (find_unknown _ _ Hno) in Hspec.
  unfold updateTrip. by rewrite Hspec.
Qed.

(** X21. [cancelTrip] of an id that a trip of the hook bears asks the
    store to take the trips with that trip cancelled.  When the store takes
    them, the call returns [true] whatever the trip was (active, completed
    or read back from the store): the trip becomes cancelled with the
    present instant as [endTime] and keeps its start and its duration, the
    other trips are left as they are, and [activeTrip] no longer shows that
    trip.  When [localStorage] refuses the write, the call returns [false]
    with the error "Failed to update trip", and trips, [activeTrip] and
    store are as before. *)
Theorem cancelTrip_closes_the_trip w tripId now i x :
  reachable w → trips w !! i = Some x → Trip.id x = tripId →
  let written :=
    Trip.toJSON <$> <[i := merge x (cancellation now) now]> (trips w) in
  (StorageService.accepts (storage w) written = true →
   ∃ w' y,
     cancelTrip w tripId now = (w', true)
     ∧ trips w' !! i = Some y
     ∧ Trip.id y = tripId
     ∧ Trip.status y = cancelled
     ∧ Trip.endTime y = Some (JS.DateObj now)
     ∧ Trip.startTime y = Trip.startTime x
     ∧ Trip.duration y = Trip.duration x
     ∧ Trip.tripNumber y = Trip.tripNumber x
     ∧ (∀ j, j ≠ i → trips w' !! j = trips w !! j)
     ∧ length (trips w') = length (trips w)
     ∧ (∀ a, activeTrip w' = Some a → Trip.id a ≠ tripId)
     ∧ (Trip.status x = active → activeTrip w' = None))
  ∧ (StorageService.accepts (storage w) written = false →
     ∃ w',
       cancelTrip w tripId now = (w', false)
       ∧ trips w' = trips w
       ∧ activeTrip w' = activeTrip w
       ∧ storage w' = storage w
       ∧ error w' = Some "Failed to update trip").
Proof.
  intros Hr Hi Hx written. pose proof (reachable_consistent w Hr) as Hc.
  pose proof (reachable_in_sync w Hr) as Hsync.
  split.
  2: { intros Hacc. unfold cancelTrip.
       rewrite (updateTrip_refused w tripId _ now i x Hc Hi Hx Hacc).
       eexists. by repeat split. }
  intros Hacc.
  destruct (updateTrip_known w tripId (cancellation now) now i x Hc Hi Hx Hacc)
    as (w1 & Heq & Ht & Ha & _).
  unfold cancelTrip. rewrite Heq.
  destruct (clear_active_trips w w1 tripId) as (Htrips & _).
  eexists _, (merge x (cancellation now) now). split; [done|].
  rewrite Htrips, Ht.
  split; [apply list_lookup_insert_eq; by eapply lookup_lt_Some|].
  do 6 (split; [done|]).
  split; [intros j Hj; by apply list_lookup_insert_ne|].
  split; [by rewrite length_insert|].
  assert (Hclear : ∀ a, activeTrip (clear_active w w1 tripId) = Some a →
                        Trip.id a ≠ tripId).
  { intros a [Ha' Hother]%clear_active_activeTrip. rewrite Ha in Ha'.
    destruct (activeTrip w) as [b|]; [|done].
    specialize (Hother b eq_refl). injection Ha' as <-.
    by rewrite patch_other. }
  split; [exact Hclear|].
  intros Hact.
  destruct (activeTrip (clear_active w w1 tripId)) as [a|] eqn:Ha1; [|done].
  exfalso. apply clear_active_activeTrip in Ha1 as [Ha1 Hother].
  destruct (active_known w Hc x (list_elem_of_lookup_2 _ _ _ Hi) Hact)
    as (b & Hb & Hbid).
  apply (Hother b Hb). congruence.
Qed.

Lemma reachable_started_tight : reachable Sample.started_tight.
Proof.
  apply reach_step; [apply reach_mount|].
  intros x Hx. vm_compute in Hx. by apply elem_of_nil in Hx.
Qed.

(** Over the store that takes everything the trip is cancelled; over the
    tight store, which has no room for the end time, it stays active. *)
Lemma cancelTrip_closes_the_trip_witness :
  (∃ w', cancelTrip Sample.reloaded "trip_1" 90000 = (w', true)
         ∧ Trip.status <$> trips w' = [cancelled]
         ∧ activeTrip w' = None)
  ∧ (∃ w', cancelTrip Sample.started_tight "trip_1" 90000 = (w', false)
           ∧ Trip.status <$> trips w' = [active]
           ∧ error w' = Some "Failed to update trip").
Proof.
  split.
  - destruct (cancelTrip_closes_the_trip Sample.reloaded "trip_1" 90000 0%nat
                (Trip.toJSON (newTrip [] Sample.form "trip_1" 0))
                reachable_reloaded eq_refl eq_refl) as [Hyes _].
    destruct (Hyes eq_refl)
      as (w' & y & Heq & _ & _ & _ & _ & _ & _ & _ & _ & _ & _ & Hnone).
    exists w'. split; [exact Heq|].
    split; [|by apply Hnone].
    apply (f_equal fst) in Heq. simpl in Heq. subst w'. reflexivity.
  - destruct (cancelTrip_closes_the_trip Sample.started_tight "trip_1" 90000
                0%nat (newTrip [] Sample.form "trip_1" 0)
                reachable_started_tight eq_refl eq_refl) as [_ Hno].
    destruct (Hno eq_refl) as (w' & Heq & Ht & _ & _ & He).
    exists w'. split; [exact Heq|]. split; [by rewrite Ht|exact He].
Defined.

Lemma length_filter_other {A} (f : A → string) (l : list A) k :
  NoDup (f <$> l) → (∃ x, x ∈ l ∧ f x = k) →
  (length (filter (λ y, f y ≠ k) l) + 1 = length l)%nat.
Proof.
  induction l as [|a l IH]; intros Hnodup (x & Hx & Hk).
  - by apply elem_of_nil in Hx.
  - rewrite fmap_cons in Hnodup.
    apply list.NoDup_cons in Hnodup as [Hnotin Hnodup].
    destruct (decide (f a = k)) as [Ha|Ha].
    + rewrite filter_cons_False by (intros ?; done).
      rewrite filter_all; [simpl; lia|].
      intros y Hy Hyk. apply Hnotin. apply list_elem_of_fmap.
      exists y. split; [congruence|done].
    + rewrite filter_cons_True by done. simpl.
      apply elem_of_cons in Hx as [->|Hx]; [done|].
      rewrite <- (IH Hnodup); [lia|]. by exists x.
Qed.

(** X22. Over a store that takes every write, [deleteTrip] always returns
    [true].  The trips left are those with another id, in their order: one
    trip fewer when the id was in use, the same trips when it was not.
    [activeTrip] never shows the deleted id afterwards, and the store holds
    the trips that are left. *)
Theorem hook_deleteTrip_removes_the_id w tripId :
  reachable w →
  StorageService.available (storage w) = true →
  (∀ l, StorageService.accepts (storage w) l = true) →
  ∃ w',
    deleteTrip w tripId = (w', true)
    ∧ (∀ x, x ∈ trips w' ↔ x ∈ trips w ∧ Trip.id x ≠ tripId)
    ∧ trips w' `sublist_of` trips w
    ∧ ((∀ x, x ∈ trips w → Trip.id x ≠ tripId) →
       trips w' = trips w ∧ activeTrip w' = activeTrip w)
    ∧ ((∃ x, x ∈ trips w ∧ Trip.id x = tripId) →
       (length (trips w') + 1 = length (trips w))%nat)
    ∧ (∀ a, activeTrip w' = Some a → Trip.id a ≠ tripId)
    ∧ Trip.id <$> StorageService.getTrips (storage w') = Trip.id <$> trips w'.
Proof.
  intros Hr Hav Hacc. pose proof (reachable_consistent w Hr) as Hc.
  pose proof (reachable_in_sync w Hr) as Hsync.
  pose proof (deleteTrip_consistent w tripId Hc) as Hc'.
  revert Hc'. unfold deleteTrip, StorageService.deleteTrip,
    StorageService.saveTrips. rewrite Hav, Hacc. simpl. intros Hc'.
  eexists. split; [done|].
  match goal with |- context [clear_active w ?w1 tripId] =>
    set (after := w1) in *;
    destruct (clear_active_trips w after tripId) as (Htrips & _)
  end.
  rewrite Htrips. subst after. cbn [trips].
  split; [intros x; rewrite list_elem_of_filter; tauto|].
  split; [apply sublist_filter|].
  split; [|split; [|split]].
  - intros Hno. split; [by apply filter_all|].
    unfold clear_active. destruct (activeTrip w) as [a|] eqn:Ha; [|done].
    destruct (decide (Trip.has_id tripId a)) as [Hid|]; [|done].
    exfalso. destruct (Hsync a Ha) as (_ & x & Hx & Hxa & _).
    apply (Hno x Hx). unfold Trip.has_id in Hid. congruence.
  - intros Hex. apply length_filter_other; [apply (distinct_ids w Hc)|done].
  - intros a [Ha' Hother]%clear_active_activeTrip. by apply Hother.
  - rewrite (stored _ Hc'), <- !list_fmap_compose. by rewrite Htrips.
Qed.

Lemma hook_deleteTrip_witness :
  ∃ w', deleteTrip Sample.started "trip_1" = (w', true)
        ∧ trips w' = [] ∧ activeTrip w' = None.
Proof.
  destruct (hook_deleteTrip_removes_the_id Sample.started "trip_1"
              reachable_started eq_refl (λ _, eq_refl))
    as (w' & Heq & _ & _ & _ & Hlen & Hact & _).
  exists w'. split; [exact Heq|].
  assert (Hl : (length (trips w') + 1 = 1)%nat).
  { apply Hlen. eexists. split; [apply list_elem_of_here|reflexivity]. }
  split; [destruct (trips w'); [done|simpl in Hl; lia]|].
  apply (f_equal fst) in Heq. simpl in Heq. subst w'. reflexivity.
Defined.

(** X23. With an id that no trip of the hook bears, [updateTrip],
    [cancelTrip] and [completeTrip] return [false] and change neither the
    trips, nor [activeTrip], nor the store; the first two leave the error
    "Failed to update trip", the third "Trip not found". *)
Theorem hook_unknown_id_changes_nothing w tripId :
  reachable w →
  (∀ x, x ∈ trips w → Trip.id x ≠ tripId) →
  (∀ u now,
     ∃ w', updateTrip w tripId u now = (w', false)
           ∧ trips w' = trips w ∧ activeTrip w' = activeTrip w
           ∧ storage w' = storage w
           ∧ error w' = Some "Failed to update trip")
  ∧ (∀ now,
       ∃ w', cancelTrip w tripId now = (w', false)
             ∧ trips w' = trips w ∧ activeTrip w' = activeTrip w
             ∧ storage w' = storage w
             ∧ error w' = Some "Failed to update trip")
  ∧ (∀ destination rating now,
       ∃ w', completeTrip w tripId destination rating now
             = (w', Returned false)
             ∧ trips w' = trips w ∧ activeTrip w' = activeTrip w
             ∧ storage w' = storage w
             ∧ error w' = Some "Trip not found").
Proof.
  intros Hr Hno. pose proof (reachable_consistent w Hr) as Hc.
  split; [|split].
  - intros u now. rewrite (updateTrip_unknown w tripId u now Hc Hno).
    eexists. by repeat split.
  - intros now. unfold cancelTrip.
    rewrite (updateTrip_unknown w tripId _ now Hc Hno).
    eexists. by repeat split.
  - intros destination rating now. unfold completeTrip.
    rewrite (find_unknown _ _ Hno). eexists. by repeat split.
Qed.

Lemma hook_unknown_id_witness :
  ∃ w', cancelTrip Sample.started "trip_9" 5 = (w', false)
        ∧ trips w' = trips Sample.started
        ∧ error w' = Some "Failed to update trip".
Proof.
  destruct (hook_unknown_id_changes_nothing Sample.started "trip_9"
              reachable_started) as (_ & Hcancel & _).
  - intros x Hx. apply list_elem_of_singleton in Hx as ->. discriminate.
  - destruct (Hcancel 5) as (w' & Heq & Ht & _ & _ & He). by exists w'.
Defined.

End UseTripsMore.

(** ** Recent trips, the trip history and its pages *)

Section HistoryFacts.

Import UseTripHistory.

(** X24. [getRecentTrips] gives the trips by falling creation instant,
    those created at the same instant in their stored order, cut to the
    first [limit] (5 when no limit is given, none for 0); a negative limit
    drops that many from the end instead.  No trip left out is newer than
    a trip that is kept. *)
Theorem getRecentTrips_newest_first trips limit :
  ∃ full,
    full ≡ₚ trips
    ∧ StronglySorted (JS.not_older TripsRoute.created) full
    ∧ (∀ k, filter (λ x, TripsRoute.created x = k) full
            = filter (λ x, TripsRoute.created x = k) trips)
    ∧ UseTrips.getRecentTrips trips limit
      = (let n := default 5 limit in
         if decide (0 ≤ n) then take (Z.to_nat n) full
         else take (length full - Z.to_nat (- n)) full)
    ∧ (∀ x y, x ∈ UseTrips.getRecentTrips trips limit →
              y ∈ trips → y ∉ UseTrips.getRecentTrips trips limit →
              TripsRoute.created y ≤ TripsRoute.created x).
Proof.
  exists (JS.sort_desc TripsRoute.created trips).
  split; [apply sort_desc_perm|]. split; [apply sort_desc_sorted|].
  split; [intros k; apply sort_desc_stable|].
  set (full := JS.sort_desc TripsRoute.created trips).
  assert (Heq : UseTrips.getRecentTrips trips limit
                = (let n := default 5 limit in
                   if decide (0 ≤ n) then take (Z.to_nat n) full
                   else take (length full - Z.to_nat (- n)) full)).
  { unfold UseTrips.getRecentTrips. fold full. simpl.
    destruct (decide (0 ≤ default 5 limit)) as [Hn|Hn].
    - by apply slice_from_0.
    - unfold JS.slice, JS.slice_index.
      rewrite (decide_True _ _ (proj1 (Z.nle_gt _ _) Hn)).
      rewrite (decide_False _ _ (Z.lt_irrefl 0)).
      rewrite (Z.min_l 0) by lia. simpl. rewrite Nat.sub_0_r. f_equal. lia. }
  split; [exact Heq|].
  intros x y Hx Hy Hny.
  assert (Hcut : ∃ m, UseTrips.getRecentTrips trips limit = take m full).
  { rewrite Heq. simpl. destruct (decide _); eauto. }
  destruct Hcut as [m Hm]. rewrite Hm in Hx, Hny.
  assert (Hyd : y ∈ drop m full).
  { assert (Hyf : y ∈ full) by (by apply sort_desc_elem).
    rewrite <- (take_drop m full) in Hyf.
    apply elem_of_app in Hyf as [|]; done. }
  pose proof (sort_desc_sorted TripsRoute.created trips) as Hsorted.
  fold full in Hsorted. rewrite <- (take_drop m full) in Hsorted.
  exact (StronglySorted_app_1_elem_of _ _ _ _ _ Hsorted Hx Hyd).
Qed.

Lemma criterion_spec wanted actual :
  criterion wanted actual
  ↔ ∀ s, wanted = Some s → JS.truthy s → actual = s.
Proof.
  unfold criterion. destruct wanted as [s|].
  - split; [by intros H ? [= <-]|]. intros H. by apply H.
  - split; [by intros _ ? [=]|done].
Qed.

(** X25. The history shows a trip exactly when it passes every criterion
    that is set: a status, purpose or mode that is given and not empty
    must be the trip's own, and the start must lie in the date range, both
    ends included.  The trips come by falling start, those started at the
    same instant in their stored order. *)
Theorem filteredTrips_selects_and_sorts trips f :
  let all := filteredTrips trips f in
  (∀ x, x ∈ all ↔
        x ∈ trips
        ∧ (∀ s, status f = Some s → JS.truthy s →
                status_name (Trip.status x) = s)
        ∧ (∀ s, purpose f = Some s → JS.truthy s →
                purpose_name (Trip.purpose x) = s)
        ∧ (∀ s, mode f = Some s → JS.truthy s → mode_name (Trip.mode x) = s)
        ∧ (∀ start end_, dateRange f = Some (start, end_) →
                         start ≤ started x ≤ end_))
  ∧ StronglySorted (JS.not_older started) all
  ∧ (∀ k, filter (λ x, started x = k) all
          = filter (λ x, started x = k) (filter (matches f) trips)).
Proof.
  simpl. split; [|split].
  - intros x. unfold filteredTrips.
    rewrite sort_desc_elem, list_elem_of_filter. unfold matches.
    rewrite !criterion_spec.
    destruct (dateRange f) as [[start end_]|].
    + split.
      * intros ((H1 & H2 & H3 & H4) & Hx). repeat split; try done.
        all: injection H as <- <-; apply H4.
      * intros (Hx & H1 & H2 & H3 & H4). repeat split; try done.
        all: by apply (H4 start end_).
    + split.
      * intros ((H1 & H2 & H3 & _) & Hx). by repeat split.
      * intros (Hx & H1 & H2 & H3 & _). by repeat split.
  - apply sort_desc_sorted.
  - intros k. apply sort_desc_stable.
Qed.


Lemma paginatedTrips_window pageSize p (all : list Trip.t) :
  0 < pageSize → 1 ≤ p →
  paginatedTrips pageSize p all
  = take (Z.to_nat pageSize) (drop (Z.to_nat (p - 1) * Z.to_nat pageSize) all).
Proof.
  intros Hps Hp. unfold paginatedTrips. simpl.
  rewrite slice_window by nia. f_equal; [f_equal; lia|]. f_equal. nia.
Qed.

Lemma concat_pages pageSize (k : nat) (all : list Trip.t) :
  0 < pageSize →
  concat (pages pageSize (Z.of_nat k) all) = take (k * Z.to_nat pageSize) all.
Proof.
  intros Hps. induction k as [|k IH].
  - unfold pages. by rewrite seqZ_nil.
  - unfold pages in *. rewrite seqZ_S, fmap_app, concat_app, IH. simpl.
    rewrite app_nil_r, paginatedTrips_window by lia.
    replace (Z.to_nat (1 + Z.of_nat k - 1)) with k by lia.
    rewrite take_take_drop. f_equal. lia.
Qed.

Lemma totalPages_spec pageSize (all : list Trip.t) :
  0 < pageSize →
  ∃ n, totalPages pageSize all = JS.Num n
       ∧ 0 ≤ n
       ∧ (n - 1) * pageSize < Z.of_nat (length all) ≤ n * pageSize.
Proof.
  intros Hps. unfold totalPages, JS.Math_ceil_quot.
  rewrite decide_False by lia. eexists. split; [done|].
  pose proof (Z.div_mod (- Z.of_nat (length all)) pageSize ltac:(lia)) as Hdm.
  pose proof (Z.mod_pos_bound (- Z.of_nat (length all)) pageSize Hps) as Hb.
  nia.
Qed.

(** X26. With a positive page size the pages [1 .. totalPages] cut the
    filtered trips into consecutive runs: put one after the other they
    give the list back, the trip at index [i] stands at place
    [i mod pageSize] of page [i / pageSize + 1], every page but the last
    is full, the last holds between one and [pageSize] trips, and a page
    beyond [totalPages] is empty. *)
Theorem pages_cut_the_history pageSize (all : list Trip.t) :
  0 < pageSize →
  ∃ n,
    totalPages pageSize all = JS.Num n
    ∧ 0 ≤ n
    ∧ (n = 0 ↔ all = [])
    ∧ concat (pages pageSize n all) = all
    ∧ (∀ i x, all !! i = Some x →
              paginatedTrips pageSize (Z.of_nat i `div` pageSize + 1) all
                !! Z.to_nat (Z.of_nat i `mod` pageSize) = Some x)
    ∧ (∀ p, 1 ≤ p < n →
            length (paginatedTrips pageSize p all) = Z.to_nat pageSize)
    ∧ (0 < n →
       (1 ≤ length (paginatedTrips pageSize n all) ≤ Z.to_nat pageSize)%nat)
    ∧ (∀ p, n < p → paginatedTrips pageSize p all = []).
Proof.
  intros Hps. destruct (totalPages_spec pageSize all Hps) as (n & Hn & Hn0 & Hlen).
  exists n. split; [done|]. split; [done|].
  split; [|split; [|split; [|split; [|split]]]].
  - split.
    + intros ->. destruct all; [done|]. simpl in Hlen. lia.
    + intros ->. simpl in Hlen. nia.
  - rewrite <- (Z2Nat.id n) by done. rewrite concat_pages by done.
    apply take_ge. nia.
  - intros i x Hi.
    pose proof (Z.div_mod (Z.of_nat i) pageSize ltac:(lia)) as Hdm.
    pose proof (Z.mod_pos_bound (Z.of_nat i) pageSize Hps) as Hb.
    assert (0 ≤ Z.of_nat i `div` pageSize) by (apply Z.div_pos; lia).
    rewrite paginatedTrips_window by lia.
    rewrite lookup_take_lt by lia. rewrite lookup_drop, <- Hi. f_equal. nia.
  - intros p Hp. rewrite paginatedTrips_window by lia.
    rewrite length_take, length_drop. nia.
  - intros Hpos. rewrite paginatedTrips_window by lia.
    rewrite length_take, length_drop. nia.
  - intros p Hp. rewrite paginatedTrips_window by lia.
    rewrite drop_ge; [by rewrite take_nil|]. nia.
Qed.

Lemma pages_cut_the_history_witness :
  ∃ n, totalPages 10 (UseTrips.trips Sample.started) = JS.Num n
       ∧ concat (pages 10 n (UseTrips.trips Sample.started))
         = UseTrips.trips Sample.started.
Proof.
  destruct (pages_cut_the_history 10 (UseTrips.trips Sample.started))
    as (n & Hn & _ & _ & Hcat & _); [lia|].
  by exists n.
Defined.

(** X27. With a positive page size, [hasNextPage] holds exactly below
    [totalPages]; then the next page has a trip on it and [nextPage] goes
    there.  Otherwise [nextPage] goes to [totalPages] itself, which is 0
    when no trip passes the filter, and page 0 is empty whatever the
    trips.  [prevPage] never goes below 1, and from a page in
    [1 .. totalPages] both stay in that range. *)
Theorem paging_moves pageSize p (all : list Trip.t) :
  0 < pageSize →
  ∃ n,
    totalPages pageSize all = JS.Num n
    ∧ (hasNextPage pageSize p all = true ↔ p < n)
    ∧ (1 ≤ p → hasNextPage pageSize p all = true →
       nextPage pageSize p all = JS.Num (p + 1)
       ∧ paginatedTrips pageSize (p + 1) all ≠ [])
    ∧ (hasNextPage pageSize p all = false → nextPage pageSize p all = JS.Num n)
    ∧ (all = [] → nextPage pageSize 1 all = JS.Num 0)
    ∧ paginatedTrips pageSize 0 all = []
    ∧ 1 ≤ prevPage p
    ∧ (1 ≤ p ≤ n →
       (∃ q, nextPage pageSize p all = JS.Num q ∧ 1 ≤ q ≤ n)
       ∧ 1 ≤ prevPage p ≤ n
       ∧ (hasPrevPage p = true ↔ prevPage p = p - 1)).
Proof.
  intros Hps.
  destruct (totalPages_spec pageSize all Hps)
    as (n & Hn & Hn0 & Hlen).
  exists n. split; [done|]. unfold hasNextPage, nextPage, hasPrevPage, prevPage.
  rewrite Hn. simpl.
  split; [by rewrite bool_decide_eq_true|].
  split; [|split; [|split; [|split; [|split]]]].
  - intros Hp Hnext%bool_decide_eq_true. split; [f_equal; lia|].
    rewrite paginatedTrips_window by lia. intros Hnil.
    apply (f_equal length) in Hnil. rewrite length_take, length_drop in Hnil.
    simpl in Hnil. nia.
  - intros Hnext%bool_decide_eq_false. f_equal. lia.
  - intros ->. simpl in Hlen. f_equal. nia.
  - unfold paginatedTrips, JS.slice, JS.slice_index. simpl.
    replace ((0 - 1) * pageSize + pageSize) with 0 by lia.
    rewrite (decide_False _ _ (Z.lt_irrefl 0)).
    rewrite (Z.min_l 0) by lia. done.
  - lia.
  - intros Hp. split; [eexists; split; [done|lia]|]. split; [lia|].
    rewrite bool_decide_eq_true. lia.
Qed.

Lemma paging_moves_witness :
  ∃ n, totalPages 10 (UseTrips.trips Sample.started) = JS.Num n
       ∧ nextPage 10 1 (UseTrips.trips Sample.started) = JS.Num n.
Proof.
  destruct (paging_moves 10 1 (UseTrips.trips Sample.started))
    as (n & Hn & Hiff & _ & Hlast & _); [lia|].
  exists n. split; [exact Hn|]. apply Hlast.
  reflexivity.
Defined.

End HistoryFacts.

(** ** The pages that call the hook *)

Section PageFacts.

Import NewTripPage.

Lemma toggle_elem travelerId prev id :
  id ∈ handleTravelerToggle travelerId prev
  ↔ if decide (id = travelerId) then id ∉ prev else id ∈ prev.
Proof.
  unfold handleTravelerToggle.
  destruct (decide (travelerId ∈ prev)) as [Hin|Hnotin].
  - rewrite list_elem_of_filter. destruct (decide (id = travelerId)) as [->|].
    + tauto.
    + tauto.
  - rewrite elem_of_app, list_elem_of_singleton.
    destruct (decide (id = travelerId)) as [->|]; tauto.
Qed.

Lemma toggle_NoDup travelerId prev :
  NoDup prev → NoDup (handleTravelerToggle travelerId prev).
Proof.
  intros Hnodup. unfold handleTravelerToggle.
  destruct (decide (travelerId ∈ prev)) as [Hin|Hnotin].
  - by apply list.NoDup_filter.
  - apply list.NoDup_app. split; [done|]. split; [|apply NoDup_singleton].
    intros x Hx ->%list_elem_of_singleton. done.
Qed.

(** X28. A toggle flips the membership of its traveler and of no other,
    and keeps a selection free of repetitions.  Toggling a traveler in and
    out again restores the selection; toggling one out and in again moves
    it to the end. *)
Theorem handleTravelerToggle_flips travelerId prev :
  let next := handleTravelerToggle travelerId prev in
  (travelerId ∈ next ↔ travelerId ∉ prev)
  ∧ (∀ other, other ≠ travelerId → other ∈ next ↔ other ∈ prev)
  ∧ (NoDup prev → NoDup next)
  ∧ (travelerId ∉ prev → handleTravelerToggle travelerId next = prev)
  ∧ (travelerId ∈ prev →
     handleTravelerToggle travelerId next
     = filter (λ id, id ≠ travelerId) prev ++ [travelerId])
  ∧ (NoDup prev → handleTravelerToggle travelerId next ≡ₚ prev).
Proof.
  simpl. split; [|split; [|split; [|split; [|split]]]].
  - rewrite toggle_elem. by rewrite decide_True.
  - intros other Hne. rewrite toggle_elem. by rewrite decide_False.
  - apply toggle_NoDup.
  - intros Hnotin. unfold handleTravelerToggle at 2.
    rewrite decide_False by done. unfold handleTravelerToggle.
    rewrite decide_True
      by (apply elem_of_app; right; by apply list_elem_of_singleton).
    rewrite list.filter_app.
    rewrite (filter_all _ prev) by (intros x Hx ->; done).
    rewrite filter_cons_False by (intros ?; done). apply app_nil_r.
  - intros Hin. unfold handleTravelerToggle at 2.
    rewrite decide_True by done. unfold handleTravelerToggle.
    rewrite decide_False; [done|].
    by intros [? _]%list_elem_of_filter.
  - intros Hnodup. apply NoDup_Permutation; [by do 2 apply toggle_NoDup|done|].
    intros x. rewrite toggle_elem.
    destruct (decide (x = travelerId)) as [->|Hne]; rewrite toggle_elem.
    + rewrite decide_True by done. destruct (decide (travelerId ∈ prev)); tauto.
    + by rewrite decide_False.
Qed.

Lemma toggles_elem toggles :
  ∀ acc id,
    bool_decide (id ∈ foldl (λ prev t, handleTravelerToggle t prev) acc toggles)
    = xorb (bool_decide (id ∈ acc))
           (Nat.odd (length (filter (λ t, t = id) toggles))).
Proof.
  induction toggles as [|t toggles IH]; intros acc id; simpl.
  - by rewrite xorb_false_r.
  - rewrite IH. pose proof (toggle_elem t acc id) as Hel.
    destruct (decide (id = t)) as [->|Hne].
    + rewrite filter_cons_True by done. rewrite (bool_decide_ext _ _ Hel).
      cbn [length]. rewrite Nat.odd_succ, <- Nat.negb_odd.
      rewrite bool_decide_not.
      by destruct (bool_decide (t ∈ acc)), (Nat.odd _).
    + rewrite filter_cons_False by congruence.
      by rewrite (bool_decide_ext _ _ Hel).
Qed.

Lemma toggles_NoDup toggles :
  ∀ acc, NoDup acc →
         NoDup (foldl (λ prev t, handleTravelerToggle t prev) acc toggles).
Proof.
  induction toggles as [|t toggles IH]; intros acc Hacc; [done|].
  simpl. apply IH. by apply toggle_NoDup.
Qed.

(** X29. The new trip page, after any run of toggles and with an origin
    and a mode chosen, creates (no trip being active, over a store that
    takes every write) a trip whose companions are the travelers toggled an
    odd number of times, each once; [totalTravelers] is their number plus
    one, and notes that are blank are stored as absent, others trimmed. *)
Theorem new_trip_page_creates_the_selection
    w origin mode purpose purposeDetail toggles notes tripId now :
  let selected := foldl (λ prev t, handleTravelerToggle t prev) [] toggles in
  UseTrips.activeTrip w = None →
  StorageService.available (UseTrips.storage w) = true →
  (∀ l, StorageService.accepts (UseTrips.storage w) l = true) →
  ∃ data w' x,
    tripData (Some origin) (Some mode) purpose purposeDetail selected notes
    = Some data
    ∧ UseTrips.createTrip w data tripId now = (w', Some tripId)
    ∧ UseTrips.activeTrip w' = Some x
    ∧ UseTrips.trips w' = UseTrips.trips w ++ [x]
    ∧ Trip.status x = active
    ∧ Trip.accompanyingTravelers x = selected
    ∧ NoDup (Trip.accompanyingTravelers x)
    ∧ (∀ id, id ∈ Trip.accompanyingTravelers x
             ↔ Nat.odd (length (filter (λ t, t = id) toggles)) = true)
    ∧ Trip.totalTravelers x = 1 + Z.of_nat (length selected)
    ∧ Trip.notes x = (if decide (JS.trim notes = "") then None
                      else Some (JS.trim notes)).
Proof.
  intros selected Hnone Hav Hacc. eexists _, _, _. split; [done|].
  unfold UseTrips.createTrip. rewrite Hnone.
  unfold StorageService.addTrip, StorageService.saveTrips. rewrite Hav, Hacc.
  split; [done|]. simpl. do 4 (split; [done|]).
  split; [apply toggles_NoDup, NoDup_nil_2|].
  split.
  - intros id. cbn [UseTrips.newTrip Trip.accompanyingTravelers
                    NewTripForm.accompanyingTravelers]. subst selected.
    pose proof (toggles_elem toggles [] id) as Hel.
    rewrite (bool_decide_eq_false_2 (id ∈ [])) in Hel by apply not_elem_of_nil.
    simpl in Hel. rewrite <- Hel. symmetry. apply bool_decide_eq_true.
  - split; [done|]. unfold trimmed_or_undefined, JS.truthy.
    by repeat case_match.
Qed.

Lemma new_trip_page_witness :
  ∃ data w' x,
    tripData (Some Sample.home) (Some car) work "" ["t1"; "t2"] "  "
    = Some data
    ∧ UseTrips.createTrip (UseTrips.mount Sample.fresh_storage) data "trip_1" 0
      = (w', Some "trip_1")
    ∧ UseTrips.activeTrip w' = Some x
    ∧ Trip.totalTravelers x = 3
    ∧ Trip.notes x = None.
Proof.
  destruct (new_trip_page_creates_the_selection
              (UseTrips.mount Sample.fresh_storage) Sample.home car work ""
              ["t1"; "t1"; "t1"; "t2"] "  " "trip_1" 0 eq_refl eq_refl
              (λ _, eq_refl))
    as (data & w' & x & Hdata & Hcreate & Hactive & _ & _ & _ & _ & _
        & Htotal & Hnotes).
  exists data, w', x. by repeat split.
Defined.

Import UseTrips.

(** X30. [handleUpdateNotes] on the active trip of a reachable state asks
    the store to take the trips with that trip's notes replaced by the
    trimmed text (by nothing when the text is blank).  When the store takes
    them, the update returns [true] and the notes are replaced in the
    collection and in [activeTrip]; the trip stays active, and the other
    trips are left as they are.  When [localStorage] refuses the write, the
    update returns [false] with the error "Failed to update trip", and
    trips, [activeTrip] and store are as before. *)
Theorem handleUpdateNotes_replaces_notes w a notes now :
  reachable w → activeTrip w = Some a →
  ∃ i x,
    trips w !! i = Some x ∧ Trip.id x = Trip.id a
    ∧ let y := merge x (TripUpdateForm.to_partial
                          (ActiveTripPage.notes_update notes)) now in
      let written := Trip.toJSON <$> <[i := y]> (trips w) in
      Trip.notes y = (if decide (JS.trim notes = "") then None
                      else Some (JS.trim notes))
      ∧ (StorageService.accepts (storage w) written = true →
         ∃ w' a',
           ActiveTripPage.handleUpdateNotes w (Trip.id a) notes now
           = (w', true)
           ∧ trips w' !! i = Some y
           ∧ (∀ j, j ≠ i → trips w' !! j = trips w !! j)
           ∧ activeTrip w' = Some a'
           ∧ Trip.id y = Trip.id a ∧ Trip.id a' = Trip.id a
           ∧ Trip.status y = active ∧ Trip.status a' = active
           ∧ Trip.notes a' = Trip.notes y
           ∧ Trip.tripNumber y = Trip.tripNumber x
           ∧ Trip.startTime y = Trip.startTime x)
      ∧ (StorageService.accepts (storage w) written = false →
         ∃ w',
           ActiveTripPage.handleUpdateNotes w (Trip.id a) notes now
           = (w', false)
           ∧ trips w' = trips w
           ∧ activeTrip w' = activeTrip w
           ∧ storage w' = storage w
           ∧ error w' = Some "Failed to update trip").
Proof.
  intros Hr Ha. pose proof (reachable_consistent w Hr) as Hc.
  destruct (reachable_in_sync w Hr a Ha) as (Hact & x & Hx & Hxa & Hxs).
  apply list_elem_of_lookup in Hx as [i Hi].
  exists i, x. split; [done|]. split; [done|]. simpl.
  split; [|split].
  - unfold NewTripPage.trimmed_or_undefined, JS.truthy. by repeat case_match.
  - intros Hacc.
    destruct (updateTrip_known w (Trip.id a)
                (TripUpdateForm.to_partial (ActiveTripPage.notes_update notes))
                now i x Hc Hi Hxa Hacc) as (w' & Heq & Ht & Ha' & _).
    exists w'. eexists.
    unfold ActiveTripPage.handleUpdateNotes. split; [exact Heq|].
    rewrite Ht, Ha', Ha.
    split; [apply list_lookup_insert_eq; by eapply lookup_lt_Some|].
    split; [intros j Hj; by apply list_lookup_insert_ne|].
    split; [done|]. unfold patch. rewrite decide_True by done. simpl.
    by repeat split.
  - intros Hacc. unfold ActiveTripPage.handleUpdateNotes.
    rewrite (updateTrip_refused w (Trip.id a) _ now i x Hc Hi Hxa Hacc).
    eexists. by repeat split.
Qed.

(** Over the store that takes everything the notes are replaced; over the
    tight store, which has no room for notes, they are not. *)
Lemma handleUpdateNotes_witness :
  (∃ w' a',
     ActiveTripPage.handleUpdateNotes Sample.started "trip_1" " by bus " 5
     = (w', true)
     ∧ activeTrip w' = Some a'
     ∧ Trip.notes a' = Some "by bus")
  ∧ (∃ w',
       ActiveTripPage.handleUpdateNotes Sample.started_tight "trip_1"
         " by bus " 5
       = (w', false)
       ∧ Trip.notes <$> activeTrip w' = Some None).
Proof.
  split.
  - destruct (handleUpdateNotes_replaces_notes Sample.started
                (newTrip [] Sample.form "trip_1" 0) " by bus " 5
                reachable_started eq_refl)
      as (i & x & Hi & _ & Hnotes & Hyes & _).
    assert (i = 0%nat) as ->.
    { apply lookup_lt_Some in Hi. simpl in Hi. lia. }
    injection Hi as <-.
    destruct (Hyes eq_refl)
      as (w' & a' & Heq & _ & _ & Ha' & _ & _ & _ & _ & Hsame & _).
    exists w', a'. split; [exact Heq|]. split; [exact Ha'|].
    by rewrite Hsame, Hnotes.
  - destruct (handleUpdateNotes_replaces_notes Sample.started_tight
                (newTrip [] Sample.form "trip_1" 0) " by bus " 5
                reachable_started_tight eq_refl)
      as (i & x & Hi & _ & _ & _ & Hno).
    assert (i = 0%nat) as ->.
    { apply lookup_lt_Some in Hi. simpl in Hi. lia. }
    injection Hi as <-.
    destruct (Hno eq_refl) as (w' & Heq & _ & Ha' & _).
    exists w'. split; [exact Heq|]. by rewrite Ha'.
Defined.

End PageFacts.
